(** * RigidBodyContactEffector: a shallow embedding and its checked properties

    Source: [src/simulation/dynamics/RigidBodyContactEffector/RigidBodyContactEffector.cpp]
    (and its header).

    Conventions of the embedding.
    - A C++ [double] is an exact rational ([Q]): rounding, overflow and NaN
      are not modelled.  Comparisons are the boolean tests [Qltb], [Qleb].
    - An [int] is a [Z]; a position in a [std::vector] is a [nat].
    - [std::vector<T>] is [list T].  Reading [v[i]] outside the vector is
      undefined in C++; here it yields the default element of the type.
    - [Eigen::Vector3d] / [Eigen::Matrix3d] are the records [Vec3] / [Mat3].
    - Functions of [<cmath>] that have no rational value ([sqrt], [cos],
      [sin], [atan2]) and the Basilisk helpers that are not part of the two
      source files are operations of the class [Extern]: every theorem
      holds for whatever they compute.
    - [std::rand()] reads a tape of integers carried by the state. *)

From Stdlib Require Import QArith Qminmax Qabs Lqa ZArith List Sorted Lia Bool.
Import ListNotations.

Open Scope Q_scope.

(** ** Numbers *)

Definition Qltb (x y : Q) : bool := negb (Qle_bool y x).
Definition Qleb (x y : Q) : bool := Qle_bool x y.
Definition Qgtb (x y : Q) : bool := Qltb y x.
Definition Qgeb (x y : Q) : bool := Qleb y x.

(** [*std::min_element(v.begin(), v.end())]: the first smallest element. *)
Fixpoint min_from (m : Q) (l : list Q) : Q :=
  match l with
  | [] => m
  | x :: r => min_from (if Qltb x m then x else m) r
  end.

Definition min_element (l : list Q) : Q :=
  match l with [] => 0 | x :: r => min_from x r end.

(** [*std::max_element(v.begin(), v.end())]: the first largest element. *)
Fixpoint max_from (m : Q) (l : list Q) : Q :=
  match l with
  | [] => m
  | x :: r => max_from (if Qltb m x then x else m) r
  end.

Definition max_element (l : list Q) : Q :=
  match l with [] => 0 | x :: r => max_from x r end.

(** ** Eigen::Vector3d and Eigen::Matrix3d *)

Record Vec3 : Type := mkVec3 { vx : Q; vy : Q; vz : Q }.

Definition vzero : Vec3 := mkVec3 0 0 0.
Definition vadd (a b : Vec3) : Vec3 := mkVec3 (vx a + vx b) (vy a + vy b) (vz a + vz b).
Definition vsub (a b : Vec3) : Vec3 := mkVec3 (vx a - vx b) (vy a - vy b) (vz a - vz b).
Definition vneg (a : Vec3) : Vec3 := mkVec3 (- vx a) (- vy a) (- vz a).
Definition vscale (a : Vec3) (k : Q) : Vec3 := mkVec3 (vx a * k) (vy a * k) (vz a * k).
Definition vdiv (a : Vec3) (k : Q) : Vec3 := mkVec3 (vx a / k) (vy a / k) (vz a / k).
Definition vdot (a b : Vec3) : Q := vx a * vx b + vy a * vy b + vz a * vz b.
Definition vcross (a b : Vec3) : Vec3 :=
  mkVec3 (vy a * vz b - vz a * vy b)
         (vz a * vx b - vx a * vz b)
         (vx a * vy b - vy a * vx b).

(** [v[i]] for [i] = 0, 1, 2. *)
Definition vget (a : Vec3) (i : nat) : Q :=
  match i with O => vx a | S O => vy a | _ => vz a end.

Record Mat3 : Type := mkMat3 { row0 : Vec3; row1 : Vec3; row2 : Vec3 }.

Definition mzero : Mat3 := mkMat3 vzero vzero vzero.
Definition midentity : Mat3 := mkMat3 (mkVec3 1 0 0) (mkVec3 0 1 0) (mkVec3 0 0 1).
Definition mcol (m : Mat3) (i : nat) : Vec3 :=
  mkVec3 (vget (row0 m) i) (vget (row1 m) i) (vget (row2 m) i).
Definition mtranspose (m : Mat3) : Mat3 := mkMat3 (mcol m 0) (mcol m 1) (mcol m 2).
Definition mmulv (m : Mat3) (v : Vec3) : Vec3 :=
  mkVec3 (vdot (row0 m) v) (vdot (row1 m) v) (vdot (row2 m) v).
Definition mmul (a b : Mat3) : Mat3 :=
  let bt := mtranspose b in
  mkMat3 (mmulv bt (row0 a)) (mmulv bt (row1 a)) (mmulv bt (row2 a)).
Definition madd (a b : Mat3) : Mat3 :=
  mkMat3 (vadd (row0 a) (row0 b)) (vadd (row1 a) (row1 b)) (vadd (row2 a) (row2 b)).
Definition msub (a b : Mat3) : Mat3 :=
  mkMat3 (vsub (row0 a) (row0 b)) (vsub (row1 a) (row1 b)) (vsub (row2 a) (row2 b)).
Definition mneg (a : Mat3) : Mat3 := mkMat3 (vneg (row0 a)) (vneg (row1 a)) (vneg (row2 a)).
Definition mscale (a : Mat3) (k : Q) : Mat3 :=
  mkMat3 (vscale (row0 a) k) (vscale (row1 a) k) (vscale (row2 a) k).

(** ** The interval kernel *)

(** [vectorInterval]: the value of a vector at the two ends of the step. *)
Record vectorInterval : Type := mkInterval { lower : Vec3; upper : Vec3 }.

(** The four end-point products pushed into [component1], [a2b3], ... *)
Definition products (al au bl bu : Q) : list Q :=
  [al * bl; al * bu; au * bl; au * bu].

(** [IntervalDotProduct]; the returned two-element vector is the pair
    ([result[0]], [result[1]]). *)
Definition IntervalDotProduct (vectorA vectorB : vectorInterval) : Q * Q :=
  let component1 := products (vx (lower vectorA)) (vx (upper vectorA))
                             (vx (lower vectorB)) (vx (upper vectorB)) in
  let component2 := products (vy (lower vectorA)) (vy (upper vectorA))
                             (vy (lower vectorB)) (vy (upper vectorB)) in
  let component3 := products (vz (lower vectorA)) (vz (upper vectorA))
                             (vz (lower vectorB)) (vz (upper vectorB)) in
  (min_element component1 + min_element component2 + min_element component3,
   max_element component1 + max_element component2 + max_element component3).

(** [IntervalCrossProduct]. *)
Definition IntervalCrossProduct (vectorA vectorB : vectorInterval) : vectorInterval :=
  let a2b3 := products (vy (lower vectorA)) (vy (upper vectorA))
                       (vz (lower vectorB)) (vz (upper vectorB)) in
  let a3b2 := products (vz (lower vectorA)) (vz (upper vectorA))
                       (vy (lower vectorB)) (vy (upper vectorB)) in
  let a3b1 := products (vz (lower vectorA)) (vz (upper vectorA))
                       (vx (lower vectorB)) (vx (upper vectorB)) in
  let a1b3 := products (vx (lower vectorA)) (vx (upper vectorA))
                       (vz (lower vectorB)) (vz (upper vectorB)) in
  let a1b2 := products (vx (lower vectorA)) (vx (upper vectorA))
                       (vy (lower vectorB)) (vy (upper vectorB)) in
  let a2b1 := products (vy (lower vectorA)) (vy (upper vectorA))
                       (vx (lower vectorB)) (vx (upper vectorB)) in
  let low := mkVec3 (min_element a2b3 - min_element a3b2)
                    (min_element a3b1 - min_element a1b3)
                    (min_element a1b2 - min_element a2b1) in
  let up := mkVec3 (max_element a2b3 - max_element a3b2)
                   (max_element a3b1 - max_element a1b3)
                   (max_element a1b2 - max_element a2b1) in
  mkInterval low up.

(** A sample lies in a vectorInterval when each of its components lies
    between the two end values, whichever of them is the smaller. *)
Definition between (l u a : Q) : Prop := (l <= a <= u) \/ (u <= a <= l).

Definition inInterval (a : Vec3) (A : vectorInterval) : Prop :=
  between (vx (lower A)) (vx (upper A)) (vx a) /\
  between (vy (lower A)) (vy (upper A)) (vy a) /\
  between (vz (lower A)) (vz (upper A)) (vz a).

(** ** External operations *)

(** What the two source files call but do not define: the functions of
    [<cmath>] without a rational value, [eigenTilde] of
    [avsEigenSupport.h] and the two methods of [Eigen::MRPd]
    ([avsEigenMRP.h]).  [abs] is [Qabs]; [pow(x, 2.0)] is [x ^ 2]. *)
Class Extern : Type := {
  sqrt : Q -> Q;
  cos : Q -> Q;
  sin : Q -> Q;
  atan2 : Q -> Q -> Q;
  eigenTilde : Vec3 -> Mat3;
  Bmat : Vec3 -> Mat3;
  toRotationMatrix : Vec3 -> Mat3
}.

(** [v.norm()] and [v.normalized()] (Eigen leaves a zero vector as it is). *)
Definition vnorm {E : Extern} (v : Vec3) : Q := sqrt (vdot v v).
Definition vnormalized {E : Extern} (v : Vec3) : Vec3 :=
  if Qltb 0 (vdot v v) then vdiv v (sqrt (vdot v v)) else v.

(** [std::rand()]: the process-wide generator is a tape of integers and
    the number of values drawn so far. *)
Record Rng : Type := mkRng { tape : nat -> Z; drawn : nat }.

Definition rand (g : Rng) : Z * Rng :=
  (tape g (drawn g), mkRng (tape g) (S (drawn g))).

(** ** The data model of the header *)

Record indivBoundingBox : Type := mkBox {
  xAxisInterval : vectorInterval;
  yAxisInterval : vectorInterval;
  zAxisInterval : vectorInterval;
  halfSize : Vec3
}.

Record boundingBoxDetail : Type := mkDetail {
  parentIndices : nat * nat;
  overlaps : list (nat * nat)
}.

(** [halfEdge]: one cluster of faces.  A triangle is the list of its three
    vertex indices, an edge the list of its two. *)
Record halfEdge : Type := mkHalfEdge {
  faceNormals : list Vec3;
  faceTriangles : list (list nat);
  faceCentroids : list Vec3;
  faceBoundingBoxes : list Vec3;
  faceBoundingRadius : list Q;
  edgeIndices : list (list nat);
  faceIndices : list (nat * nat * nat);
  centroid : Vec3;
  uniqueVertIndices : list nat;
  boundingBox : Vec3
}.

Record dynamicData : Type := mkDynamicData {
  r_BN_N : Vec3;
  v_BN_N : Vec3;
  nonConservativeAccelpntB_B : Vec3;
  m_SC : Q;
  ISCPntB_B : Mat3;
  ISCPntB_B_inv : Mat3;
  c_B : Vec3;
  omega_BN_B : Vec3;
  omegaDot_BN_B : Vec3;
  omegaTilde_BN_B : Mat3;
  sigma_BN : Vec3;
  sigma_BprimeB : Vec3;
  dcm_BprimeB : Mat3;
  dcm_BN : Mat3;
  dcm_NB : Mat3
}.

(** [geometry]: one body.  The file name, the loader's buffers and the
    message readers play no part in the functions embedded here and are
    left out. *)
Module Body.
Record geometry : Type := mk {
  boundingRadius : Q;
  coefRestitution : Q;
  coefFriction : Q;
  vertices : list Vec3;
  polyhedron : list halfEdge;
  coarseSearchList : boundingBoxDetail;
  states : dynamicData;
  futureStates : dynamicData;
  isSpice : bool;
  forceExternal_N : list Vec3;
  torqueExternalPntB_B : list Vec3;
  impactTimes : list Q;
  impactTimeSteps : list Q
}.

Definition set_coarseSearchList (b : geometry) (d : boundingBoxDetail) : geometry :=
  mk (boundingRadius b) (coefRestitution b) (coefFriction b) (vertices b)
     (polyhedron b) d (states b) (futureStates b) (isSpice b)
     (forceExternal_N b) (torqueExternalPntB_B b) (impactTimes b) (impactTimeSteps b).

Definition set_queues (b : geometry) (f t : list Vec3) (ts dts : list Q) : geometry :=
  mk (boundingRadius b) (coefRestitution b) (coefFriction b) (vertices b)
     (polyhedron b) (coarseSearchList b) (states b) (futureStates b) (isSpice b)
     f t ts dts.
End Body.

Definition geometry : Type := Body.geometry.

Definition zeroData : dynamicData :=
  mkDynamicData vzero vzero vzero 0 mzero mzero vzero vzero vzero mzero
                vzero vzero mzero mzero mzero.

Definition noHalfEdge : halfEdge :=
  mkHalfEdge [] [] [] [] [] [] [] vzero [] vzero.

Definition noBody : geometry :=
  Body.mk 0 0 0 [] [] (mkDetail (O, O) []) zeroData zeroData false [] [] [] [].

(** The effector: its private and public members and, from the base class
    [DynamicEffector], the three output vectors. *)
Record RigidBodyContactEffector : Type := mkEffector {
  currentSimSeconds : Q;
  closeBodies : list (nat * nat);
  currentBodyInCycle : Z;
  currentMinError : Q;
  responseFound : bool;
  lockedToRand : bool;
  timeFound : Q;
  integrateTimeStep : Q;
  newMacroTimeStep : bool;
  topTime : Q;
  topTimeStep : Q;
  secondInter : bool;
  Bodies : list geometry;
  numBodies : Z;
  currentBody : Z;
  maxPosError : Q;
  slipTolerance : Q;
  simTimeStep : Q;
  collisionIntegrationStep : Q;
  maxBoundingBoxDim : Q;
  minBoundingBoxDim : Q;
  boundingBoxFF : Q;
  maxTimeStep : Q;
  timeSynchTol : Q;
  forceExternal_N : Vec3;
  forceExternal_B : Vec3;
  torqueExternalPntB_B : Vec3
}.

Definition set_closeBodies (s : RigidBodyContactEffector) (c : list (nat * nat)) :=
  mkEffector (currentSimSeconds s) c (currentBodyInCycle s) (currentMinError s)
    (responseFound s) (lockedToRand s) (timeFound s) (integrateTimeStep s)
    (newMacroTimeStep s) (topTime s) (topTimeStep s) (secondInter s) (Bodies s)
    (numBodies s) (currentBody s) (maxPosError s) (slipTolerance s) (simTimeStep s)
    (collisionIntegrationStep s) (maxBoundingBoxDim s) (minBoundingBoxDim s)
    (boundingBoxFF s) (maxTimeStep s) (timeSynchTol s)
    (forceExternal_N s) (forceExternal_B s) (torqueExternalPntB_B s).

Definition set_Bodies (s : RigidBodyContactEffector) (b : list geometry) :=
  mkEffector (currentSimSeconds s) (closeBodies s) (currentBodyInCycle s)
    (currentMinError s) (responseFound s) (lockedToRand s) (timeFound s)
    (integrateTimeStep s) (newMacroTimeStep s) (topTime s) (topTimeStep s)
    (secondInter s) b (numBodies s) (currentBody s) (maxPosError s)
    (slipTolerance s) (simTimeStep s) (collisionIntegrationStep s)
    (maxBoundingBoxDim s) (minBoundingBoxDim s) (boundingBoxFF s) (maxTimeStep s)
    (timeSynchTol s) (forceExternal_N s) (forceExternal_B s) (torqueExternalPntB_B s).

(** [Bodies[i]] and an assignment to a member of [Bodies[i]]. *)
Definition body (s : RigidBodyContactEffector) (i : nat) : geometry :=
  nth i (Bodies s) noBody.

Fixpoint update {A : Type} (l : list A) (i : nat) (f : A -> A) : list A :=
  match l, i with
  | [], _ => []
  | x :: r, O => f x :: r
  | x :: r, S j => x :: update r j f
  end.

(** ** Broad phase *)

(** The test of [CheckBoundingSphere] for the bodies [bodyIt1], [bodyIt2]. *)
Definition bodyDifference (s : RigidBodyContactEffector) (bodyIt1 bodyIt2 : nat)
  : vectorInterval :=
  mkInterval
    (vsub (r_BN_N (Body.states (body s bodyIt1))) (r_BN_N (Body.states (body s bodyIt2))))
    (vsub (r_BN_N (Body.futureStates (body s bodyIt1)))
          (r_BN_N (Body.futureStates (body s bodyIt2)))).

Definition spheresClose {E : Extern} (s : RigidBodyContactEffector)
  (bodyIt1 bodyIt2 : nat) : bool :=
  let bodyDistance :=
    IntervalDotProduct (bodyDifference s bodyIt1 bodyIt2)
                       (bodyDifference s bodyIt1 bodyIt2) in
  let radii := Body.boundingRadius (body s bodyIt1)
               + Body.boundingRadius (body s bodyIt2) in
  Qltb (sqrt (Qabs (fst bodyDistance))) radii
  || Qltb (sqrt (Qabs (snd bodyDistance))) radii.

(** The inner loop: [bodyIt2] runs from [bodyIt1 + 1] to [numBodies - 1]. *)
Definition sphereRow {E : Extern} (s : RigidBodyContactEffector) (bodyIt1 : nat)
  : list (nat * nat) :=
  map (fun bodyIt2 => (bodyIt1, bodyIt2))
      (filter (spheresClose s bodyIt1)
              (seq (S bodyIt1) (Z.to_nat (numBodies s) - S bodyIt1))).

(** [CheckBoundingSphere]: [bodyIt1] runs from 0 to [numBodies - 2]. *)
Definition CheckBoundingSphere {E : Extern} (s : RigidBodyContactEffector)
  : RigidBodyContactEffector :=
  set_closeBodies s
    (flat_map (sphereRow s) (seq 0 (Z.to_nat (numBodies s - 1)))).

(** ** Mid phase *)

Definition maxAbsEnd (i : Q * Q) : Q :=
  if Qltb (Qabs (fst i)) (Qabs (snd i)) then Qabs (snd i) else Qabs (fst i).

(** [SeparatingPlane]. *)
Definition SeparatingPlane (displacementInterval candidateInterval : vectorInterval)
  (box1 box2 : indivBoundingBox) : bool :=
  let lhs := maxAbsEnd (IntervalDotProduct candidateInterval displacementInterval) in
  let rhs := vx (halfSize box1)
             * maxAbsEnd (IntervalDotProduct candidateInterval (xAxisInterval box1)) in
  let rhs := rhs + vy (halfSize box1)
             * maxAbsEnd (IntervalDotProduct candidateInterval (yAxisInterval box1)) in
  let rhs := rhs + vz (halfSize box1)
             * maxAbsEnd (IntervalDotProduct candidateInterval (zAxisInterval box1)) in
  let rhs := rhs + vx (halfSize box2)
             * maxAbsEnd (IntervalDotProduct candidateInterval (xAxisInterval box2)) in
  let rhs := rhs + vy (halfSize box2)
             * maxAbsEnd (IntervalDotProduct candidateInterval (yAxisInterval box2)) in
  let rhs := rhs + vz (halfSize box2)
             * maxAbsEnd (IntervalDotProduct candidateInterval (zAxisInterval box2)) in
  Qltb rhs lhs.

Definition xAxis : Vec3 := mkVec3 1 0 0.
Definition yAxis : Vec3 := mkVec3 0 1 0.
Definition zAxis : Vec3 := mkVec3 0 0 1.

(** The swept box of cluster [boxIt] of a body, as built in [CheckBoundingBox]. *)
Definition sweptBox (ff : Q) (b : geometry) (boxIt : nat) : indivBoundingBox :=
  mkBox
    (mkInterval (mmulv (dcm_NB (Body.states b)) xAxis)
                (mmulv (dcm_NB (Body.futureStates b)) xAxis))
    (mkInterval (mmulv (dcm_NB (Body.states b)) yAxis)
                (mmulv (dcm_NB (Body.futureStates b)) yAxis))
    (mkInterval (mmulv (dcm_NB (Body.states b)) zAxis)
                (mmulv (dcm_NB (Body.futureStates b)) zAxis))
    (vscale (boundingBox (nth boxIt (Body.polyhedron b) noHalfEdge)) ff).

Definition clusterCentre (d : dynamicData) (b : geometry) (boxIt : nat) : Vec3 :=
  vadd (r_BN_N d)
       (mmulv (dcm_NB d) (centroid (nth boxIt (Body.polyhedron b) noHalfEdge))).

Definition displacement (b1 b2 : geometry) (boxIt1 boxIt2 : nat) : vectorInterval :=
  mkInterval
    (vsub (clusterCentre (Body.states b1) b1 boxIt1)
          (clusterCentre (Body.states b2) b2 boxIt2))
    (vsub (clusterCentre (Body.futureStates b1) b1 boxIt1)
          (clusterCentre (Body.futureStates b2) b2 boxIt2)).

(** The fifteen candidate axes in the order in which they are tried. *)
Definition candidateAxes (box1 box2 : indivBoundingBox) : list vectorInterval :=
  [ xAxisInterval box1; yAxisInterval box1; zAxisInterval box1;
    xAxisInterval box2; yAxisInterval box2; zAxisInterval box2;
    IntervalCrossProduct (xAxisInterval box1) (xAxisInterval box2);
    IntervalCrossProduct (xAxisInterval box1) (yAxisInterval box2);
    IntervalCrossProduct (xAxisInterval box1) (zAxisInterval box2);
    IntervalCrossProduct (yAxisInterval box1) (xAxisInterval box2);
    IntervalCrossProduct (yAxisInterval box1) (yAxisInterval box2);
    IntervalCrossProduct (yAxisInterval box1) (zAxisInterval box2);
    IntervalCrossProduct (zAxisInterval box1) (xAxisInterval box2);
    IntervalCrossProduct (zAxisInterval box1) (yAxisInterval box2);
    IntervalCrossProduct (zAxisInterval box1) (zAxisInterval box2) ].

(** One pass of the body of the two cluster loops: [true] when some
    [SeparatingPlane] call made the loop [continue]. *)
Definition separated (ff : Q) (b1 b2 : geometry) (boxIt1 boxIt2 : nat) : bool :=
  let box1 := sweptBox ff b1 boxIt1 in
  let box2 := sweptBox ff b2 boxIt2 in
  existsb (fun candidate =>
             SeparatingPlane (displacement b1 b2 boxIt1 boxIt2) candidate box1 box2)
          (candidateAxes box1 box2).

(** [layer1Box.overlaps] after the two cluster loops for one close pair. *)
Definition clusterOverlaps (ff : Q) (b1 b2 : geometry) : list (nat * nat) :=
  flat_map (fun boxIt1 =>
              map (fun boxIt2 => (boxIt1, boxIt2))
                  (filter (fun boxIt2 => negb (separated ff b1 b2 boxIt1 boxIt2))
                          (seq 0 (length (Body.polyhedron b2)))))
           (seq 0 (length (Body.polyhedron b1))).

(** The body of the loop over [closeBodies]. *)
Definition boxStep (s : RigidBodyContactEffector) (pair : nat * nat)
  : RigidBodyContactEffector :=
  let layer1Box :=
    mkDetail pair
      (clusterOverlaps (boundingBoxFF s) (body s (fst pair)) (body s (snd pair))) in
  if (0 <? length (overlaps layer1Box))%nat
  then set_Bodies s (update (Bodies s) (fst pair)
                            (fun b => Body.set_coarseSearchList b layer1Box))
  else s.

(** [CheckBoundingBox]. *)
Definition CheckBoundingBox (s : RigidBodyContactEffector) : RigidBodyContactEffector :=
  fold_left boxStep (closeBodies s) s.

(** *** The inequality of [SeparatingPlane] with a maximum *)




(** *** The mid-phase test in the words of the specification

    The definitions below are written from the specification alone: they
    use the data of the two bodies and the interval kernel, and none of
    [sweptBox], [displacement], [candidateAxes], [SeparatingPlane]. *)

(** Modelled from the spec: a box axis is a vector interval, the unit
    vector [e] of the body carried by [dcm_NB] at the start of the step
    (lower end) and at the end of the step (upper end). *)
Definition sweptAxis (b : geometry) (e : Vec3) : vectorInterval :=
  mkInterval (mmulv (dcm_NB (Body.states b)) e)
             (mmulv (dcm_NB (Body.futureStates b)) e).

(** Modelled from the spec: the three axes of the box of a body. *)
Definition boxAxes (b : geometry) : list vectorInterval :=
  [ sweptAxis b (mkVec3 1 0 0); sweptAxis b (mkVec3 0 1 0); sweptAxis b (mkVec3 0 0 1) ].

(** Modelled from the spec: the 15 candidate axes, the three axes of each
    box and the nine interval cross products of an axis of the first box
    with an axis of the second. *)
Definition fifteenAxes (b1 b2 : geometry) : list vectorInterval :=
  boxAxes b1 ++ boxAxes b2
  ++ flat_map (fun axis1 => map (fun axis2 => IntervalCrossProduct axis1 axis2)
                                (boxAxes b2))
              (boxAxes b1).






(** ** Example inputs for the broad and the mid phase *)

(** A body at rest at [r], axes aligned with the inertial frame. *)
Definition restingData (r : Vec3) : dynamicData :=
  mkDynamicData r vzero vzero 1 midentity midentity vzero vzero vzero mzero
                vzero vzero midentity midentity midentity.

(** One cluster: a triangle in the plane z = 0, with half-extents (1, 1, 1). *)
Definition triangleCluster : halfEdge :=
  mkHalfEdge [mkVec3 0 0 1] [[0; 1; 2]%nat] [mkVec3 0 0 0] [mkVec3 1 1 0] []
             [[0; 1]%nat; [1; 2]%nat] [(0, 0, 0)%nat; (0, 0, 0)%nat]
             vzero [0; 1; 2]%nat (mkVec3 1 1 1).

Definition triangleBody (r : Vec3) (list0 : boundingBoxDetail) : geometry :=
  Body.mk 60 (1#2) (1#10)
          [mkVec3 (-1) (-1) 0; mkVec3 1 (-1) 0; mkVec3 0 1 0]
          [triangleCluster] list0 (restingData r) (restingData r) false [] [] [] [].

Definition effectorOf (bodies : list geometry) (close : list (nat * nat))
  : RigidBodyContactEffector :=
  mkEffector 0 close (-1) 1 false false 0 0 true 0 0 false bodies
             (Z.of_nat (length bodies)) 0 (1#1000) 0 (1#10) (1#1000) 1 (5#1000) 1
             (1#1000) (1#1000000000) vzero vzero vzero.



(** ** The impulse solver *)

(** [Eigen::VectorXd] is a list; [X(i)] reads, [X(i) = v] writes. *)
Definition vecZero (n : nat) : list Q := repeat 0 n.
Definition at_ (X : list Q) (i : nat) : Q := nth i X 0.
Definition put (X : list Q) (i : nat) (v : Q) : list Q := update X i (fun _ => v).

Fixpoint vecMap2 (f : Q -> Q -> Q) (a b : list Q) : list Q :=
  match a, b with
  | x :: a', y :: b' => f x y :: vecMap2 f a' b'
  | _, _ => []
  end.

Definition vecAdd (a b : list Q) : list Q := vecMap2 Qplus a b.
Definition vecScale (k : Q) (a : list Q) : list Q := map (fun x => k * x) a.
Definition vecDiv (a : list Q) (k : Q) : list Q := map (fun x => x / k) a.

(** [X.segment(i, 3)] as a vector, and [X.segment(i, 3) = v]. *)
Definition segment3 (X : list Q) (i : nat) : Vec3 :=
  mkVec3 (at_ X i) (at_ X (i + 1)) (at_ X (i + 2)).
Definition putSegment3 (X : list Q) (i : nat) (v : Vec3) : list Q :=
  put (put (put X i (vx v)) (i + 1) (vy v)) (i + 2) (vz v).

(** [X.segment(i, n)]. *)
Definition segment (X : list Q) (i n : nat) : list Q := firstn n (skipn i X).

(** [Eigen::MatrixXd] is the list of its rows; [M * v]. *)
Definition matMulVec (M : list (list Q)) (v : list Q) : list Q :=
  map (fun row => fold_left Qplus (vecMap2 Qmult row v) 0) M.

(** [X.head(n) = w]: the first [n] entries are replaced by those of [w]. *)
Definition putHead (X : list Q) (n : nat) (w : list Q) : list Q :=
  map (at_ w) (seq 0 n) ++ skipn n X.

(** The condition written three times in the source,
    [X_c(numImpacts * 6 + impNum * 2 + 1)
       < (-1.0 * (pow(coefRes, 2.0) * X_c(numImpacts * 6 + impNum * 2)))]. *)
Definition energyPending (coefRes : Q) (X_c : list Q) (numImpacts impNum : nat) : bool :=
  Qltb (at_ X_c (numImpacts * 6 + impNum * 2 + 1))
       (-(1) * (coefRes ^ 2 * at_ X_c (numImpacts * 6 + impNum * 2))).

(** A contact as stored in [impacts]: the point on body 1, the point on
    body 2 and the normal. *)
Definition impact : Type := (Vec3 * Vec3 * Vec3)%type.
Definition pointA (i : impact) : Vec3 := fst (fst i).
Definition pointB (i : impact) : Vec3 := snd (fst i).
Definition normalOf (i : impact) : Vec3 := snd i.
Definition noImpact : impact := (vzero, vzero, vzero).

Section Solver.
Context {E : Extern}.

(** The body of the loop of [CollisionStateDerivative]. *)
Definition derivativeStep (X_c : list Q) (numImpacts : nat) (coefRes coefFric : Q)
  (Xdot_c : list Q) (impNum : nat) : list Q :=
  let Xdot_c :=
    if energyPending coefRes X_c numImpacts impNum then
      let phi := atan2 (at_ X_c (impNum * 3 + 1)) (at_ X_c (impNum * 3)) in
      let Xdot_c := put Xdot_c (numImpacts * 3 + impNum * 3) (- coefFric * cos phi) in
      let Xdot_c := put Xdot_c (numImpacts * 3 + impNum * 3 + 1) (- coefFric * sin phi) in
      put Xdot_c (numImpacts * 3 + impNum * 3 + 2) 1
    else Xdot_c in
  if Qltb (at_ X_c (impNum * 3 + 2)) 0 then
    put Xdot_c (numImpacts * 6 + impNum * 2) (at_ X_c (impNum * 3 + 2))
  else if energyPending coefRes X_c numImpacts impNum then
    put Xdot_c (numImpacts * 6 + impNum * 2 + 1) (at_ X_c (impNum * 3 + 2))
  else Xdot_c.

(** [CollisionStateDerivative]. *)
Definition CollisionStateDerivative (X_c : list Q) (impacts : list impact)
  (M_tot : list (list Q)) (coefRes coefFric : Q) : list Q :=
  let Xdot_c := vecZero (length X_c) in
  let numImpacts := length impacts in
  let Xdot_c := fold_left (derivativeStep X_c numImpacts coefRes coefFric)
                          (seq 0 numImpacts) Xdot_c in
  putHead Xdot_c (numImpacts * 3)
          (matMulVec M_tot (segment Xdot_c (numImpacts * 3) (numImpacts * 3))).

(** One pass of the [while] loop up to the new [X_c]: the RK4 step. *)
Definition rk4Step (h : Q) (impacts : list impact) (M_tot : list (list Q))
  (coefRes coefFric : Q) (X_c : list Q) : list Q :=
  let f X := CollisionStateDerivative X impacts M_tot coefRes coefFric in
  let k1 := f X_c in
  let k2 := f (vecAdd X_c (vecScale h (vecDiv k1 2))) in
  let k3 := f (vecAdd X_c (vecScale h (vecDiv k2 2))) in
  let k4 := f (vecAdd X_c (vecScale h k3)) in
  vecAdd X_c
         (vecScale (h / 6)
                   (vecAdd (vecAdd (vecAdd k1 (vecScale 2 k2)) (vecScale 2 k3)) k4)).

(** The [for] loop that recomputes [energyMet] after a step. *)
Definition energyMetAll (coefRes : Q) (X_c : list Q) (numImpacts : nat) : bool :=
  forallb (fun impNum => negb (energyPending coefRes X_c numImpacts impNum))
          (seq 0 numImpacts).

(** [int loopMax = 1e9]. *)
Definition loopMax : Z := 1000000000.

(** The [while (!energyMet)] loop, entered with [energyMet = false].  It
    returns the final [currLoop] and [X_c]; [fuel] bounds the number of
    passes of the model. *)
Fixpoint integrateLoop (fuel : nat) (h : Q) (impacts : list impact)
  (M_tot : list (list Q)) (coefRes coefFric : Q) (currLoop : Z) (X_c : list Q)
  : option (Z * list Q) :=
  match fuel with
  | O => None
  | S fuel' =>
      let currLoop := (currLoop + 1)%Z in
      let X_c := rk4Step h impacts M_tot coefRes coefFric X_c in
      let energyMet := energyMetAll coefRes X_c (length impacts) in
      let energyMet := if (loopMax <? currLoop)%Z then true else energyMet in
      if energyMet then Some (currLoop, X_c)
      else integrateLoop fuel' h impacts M_tot coefRes coefFric currLoop X_c
  end.

(** The loop as [computeForceTorque] runs it: [currLoop = 0] and enough
    fuel for [loopMax + 1] passes. *)
Definition integrateCollision (h : Q) (impacts : list impact)
  (M_tot : list (list Q)) (coefRes coefFric : Q) (X_c : list Q)
  : option (Z * list Q) :=
  integrateLoop (Z.to_nat (loopMax + 1)) h impacts M_tot coefRes coefFric 0 X_c.

End Solver.

(** The relative velocity of the two contact points in the contact frame,
    the right-hand side of [X_c.segment(impNum * 3, 3) = ...]. *)
Definition contactFrameVelocity (dcm_CN : Mat3) (imp : impact)
  (body1Current body2Current : dynamicData) : Vec3 :=
  mmulv dcm_CN
    (vsub
       (vadd (v_BN_N body1Current)
             (mmulv (dcm_NB body1Current)
                    (mmulv (omegaTilde_BN_B body1Current)
                           (vsub (mmulv (dcm_BN body1Current) (pointA imp))
                                 (r_BN_N body1Current)))))
       (vadd (v_BN_N body2Current)
             (mmulv (dcm_NB body2Current)
                    (mmulv (omegaTilde_BN_B body2Current)
                           (vsub (mmulv (dcm_BN body2Current) (pointB imp))
                                 (r_BN_N body2Current)))))).

Definition seedStep (dcm_CN : list Mat3) (impacts : list impact)
  (body1Current body2Current : dynamicData) (X_c : list Q) (impNum : nat) : list Q :=
  let numImpacts := length impacts in
  let X_c := putSegment3 X_c (impNum * 3)
               (contactFrameVelocity (nth impNum dcm_CN mzero)
                                     (nth impNum impacts noImpact)
                                     body1Current body2Current) in
  if Qltb (at_ X_c (impNum * 3)) 0
  then put X_c (numImpacts * 6 + impNum * 2 + 1) (- 1e-14)
  else put X_c (numImpacts * 6 + impNum * 2 + 1) 1e-14.

(** "Create the initial collision state". *)
Definition initialCollisionState (dcm_CN : list Mat3) (impacts : list impact)
  (body1Current body2Current : dynamicData) : list Q :=
  fold_left (seedStep dcm_CN impacts body1Current body2Current)
            (seq 0 (length impacts)) (vecZero (length impacts * 8)).

(** ** An instance of the external operations

    Used by the closed examples only.  It is exact wherever the square root
    is rational.  An angle is held as the tangent of its half, so that
    [cos], [sin] and [atan2] stay rational: for y = 0 < x the angle is 0,
    with cosine 1 and sine 0; for (y, x) = (3, 4) the cosine is 4/5 and the
    sine 3/5.  Results are reduced fractions ([Qred]).  The MRP methods and
    [eigenTilde] are the textbook formulas. *)

(** The square root, rounded down to a multiple of 2^-30. *)
Definition exampleSqrt (x : Q) : Q :=
  Qred (Z.sqrt (Qnum x * 4 ^ 30 / Zpos (Qden x)) # (2 ^ 30)).

Definition exampleAtan2 (y x : Q) : Q :=
  Qred (Qred y / (Qred x + exampleSqrt (Qred x * Qred x + Qred y * Qred y))).
Definition exampleCos (t : Q) : Q := Qred ((1 - t * t) / (1 + t * t)).
Definition exampleSin (t : Q) : Q := Qred (2 * t / (1 + t * t)).

Definition reduced (m : Mat3) : Mat3 :=
  let red v := mkVec3 (Qred (vx v)) (Qred (vy v)) (Qred (vz v)) in
  mkMat3 (red (row0 m)) (red (row1 m)) (red (row2 m)).

Definition exampleTilde (v : Vec3) : Mat3 :=
  reduced (mkMat3 (mkVec3 0 (- vz v) (vy v))
                  (mkVec3 (vz v) 0 (- vx v))
                  (mkVec3 (- vy v) (vx v) 0)).

Definition exampleBmat (s : Vec3) : Mat3 :=
  let s := mkVec3 (Qred (vx s)) (Qred (vy s)) (Qred (vz s)) in
  let s2 := vdot s s in
  reduced
    (madd (madd (mscale midentity (1 - s2)) (mscale (exampleTilde s) 2))
          (mscale (mkMat3 (vscale s (vx s)) (vscale s (vy s)) (vscale s (vz s))) 2)).

Definition exampleRotation (s : Vec3) : Mat3 :=
  let s := mkVec3 (Qred (vx s)) (Qred (vy s)) (Qred (vz s)) in
  let s2 := vdot s s in
  let t := exampleTilde s in
  reduced
    (madd midentity
          (mscale (madd (mscale (mmul t t) 8) (mscale t (4 * (1 - s2))))
                  (1 / ((1 + s2) * (1 + s2))))).

Definition exampleExtern : Extern :=
  Build_Extern exampleSqrt exampleCos exampleSin exampleAtan2
               exampleTilde exampleBmat exampleRotation.

(** ** Example inputs for the solver *)

(** One contact at the origin with normal z; body 1 moves with velocity
    (4, 3, -1), body 2 is at rest: the contact is closing (normal velocity
    -1) while it slides along (4, 3). *)
Definition slidingContact : list impact := [(vzero, vzero, mkVec3 0 0 1)].

Definition movingData (v : Vec3) : dynamicData :=
  mkDynamicData vzero v vzero 1 midentity midentity vzero vzero vzero mzero
                vzero vzero midentity midentity midentity.

Definition slidingState : list Q :=
  initialCollisionState [midentity] slidingContact
                        (movingData (mkVec3 4 3 (-1))) (movingData vzero).

(** The 3 x 3 inverse-inertia matrix of a unit point mass. *)
Definition unitMass : list (list Q) := [[1; 0; 0]; [0; 1; 0]; [0; 0; 1]].

(** ** The narrow phase of [computeForceTorque] *)

(** [v.erase(v.begin() + i)]. *)
Fixpoint erase {A : Type} (l : list A) (i : nat) : list A :=
  match l, i with
  | [], _ => []
  | _ :: r, O => r
  | x :: r, S j => x :: erase r j
  end.

(** The position of the first element that satisfies [p]. *)
Fixpoint findIndex {A : Type} (p : A -> bool) (l : list A) : option nat :=
  match l with
  | [] => None
  | x :: r => if p x then Some O
              else match findIndex p r with Some i => Some (S i) | None => None end
  end.

Section NarrowPhase.
Context {E : Extern}.

(** [PointInTriangle]: the returned flag, [*contactPoint] and [*distance]. *)
Definition PointInTriangle (supportPoint triVertex0 triVertex1 triVertex2 : Vec3)
  : Z * Vec3 * Q :=
  let u01 := vsub triVertex1 triVertex0 in
  let u02 := vsub triVertex2 triVertex0 in
  let u12 := vsub triVertex2 triVertex1 in
  let n := vnormalized (vcross u01 u02) in
  let w := vsub supportPoint triVertex0 in
  let alpha := vdot w n in
  let vecToPlane := vscale n (- alpha) in
  let contactPoint := vadd supportPoint vecToPlane in
  let distance := Qabs alpha in
  let V1 := vsub (vneg (vnormalized u01)) (vnormalized u02) in
  let V2 := vadd (vneg (vnormalized u12)) (vnormalized u01) in
  let V3 := vadd (vnormalized u02) (vnormalized u12) in
  let f1 := vdot (vcross V1 (vsub contactPoint triVertex0)) n in
  let f2 := vdot (vcross V2 (vsub contactPoint triVertex1)) n in
  let f3 := vdot (vcross V3 (vsub contactPoint triVertex2)) n in
  let inside a b :=
    if Qleb (- 1e-9) (vdot (vcross (vsub a contactPoint) (vsub b contactPoint)) n)
    then 1%Z else (-1)%Z in
  let flag :=
    if Qleb f2 0 && Qltb 0 f1 then inside triVertex0 triVertex1
    else if Qleb f3 0 && Qltb 0 f2 then inside triVertex1 triVertex2
    else if Qleb f1 0 && Qltb 0 f3 then inside triVertex2 triVertex0
    else (-1)%Z in
  (flag, contactPoint, distance).

Definition within (x lo hi : Q) : bool := Qleb lo x && Qleb x hi.

(** [LineLineDistance]: the returned flag, [*pointA] and [*pointB].  On the
    one path that returns without writing the two points (parallel lines,
    last [return -1]) the caller does not read them; they are zero here. *)
Definition LineLineDistance (vertex1 vertex2 vertex3 vertex4 : Vec3)
  : Z * Vec3 * Vec3 :=
  let line21 := vsub vertex2 vertex1 in
  let swap := Qltb (vdot line21 (vsub vertex4 vertex3)) 0 in
  let vertex3' := if swap then vertex4 else vertex3 in
  let vertex4' := if swap then vertex3 else vertex4 in
  let vertex3 := vertex3' in
  let vertex4 := vertex4' in
  let line13 := vsub vertex1 vertex3 in
  let line43 := vsub vertex4 vertex3 in
  let d1343 := vdot line13 line43 in
  let d4321 := vdot line43 line21 in
  let d1321 := vdot line13 line21 in
  let d4343 := vdot line43 line43 in
  let d2121 := vdot line21 line21 in
  let denom := d2121 * d4343 - d4321 * d4321 in
  if Qltb (Qabs denom) 1e-9 then
    let line23 := vsub vertex2 vertex3 in
    let line24 := vsub vertex2 vertex4 in
    let line41 := vsub vertex4 vertex1 in
    let footA v := vadd vertex1 (vscale line21 (vdot v line21 / d2121)) in
    let footB v := vadd vertex3 (vscale line43 (vdot v line43 / d4343)) in
    if Qltb (vdot line13 line43) 0 && Qltb 0 (vdot line24 (vneg line43)) then
      (0%Z, vdiv (vadd (footA (vneg line13)) vertex2) 2,
            vdiv (vadd (footB line23) vertex3) 2)
    else if Qltb (vdot line13 line43) 0 && Qltb (vdot line24 (vneg line43)) 0 then
      (0%Z, vdiv (vadd (footA (vneg line13)) (footA line41)) 2,
            vdiv (vadd vertex3 vertex4) 2)
    else if Qltb (vdot (vneg line43) line24) 0 && Qltb 0 (vdot line13 line43) then
      (0%Z, vdiv (vadd (footA line41) vertex1) 2,
            vdiv (vadd (footB line13) vertex4) 2)
    else if Qltb 0 (vdot (vneg line43) line24) && Qltb 0 (vdot line13 line43) then
      (0%Z, vdiv (vadd vertex1 vertex2) 2,
            vdiv (vadd (footB line13) (footB line23)) 2)
    else if within (vdot line21 (vneg line23)) (- 1e-6) 1e-6 then
      (0%Z, vertex2, vertex3)
    else if within (vdot (vneg line41) line21) (- 1e-6) 1e-6 then
      (0%Z, vertex1, vertex4)
    else if within (vdot line21 line13) (- 1e-6) 1e-6
            && within (vdot line21 line24) (- 1e-6) 1e-6 then
      (0%Z, vdiv (vadd vertex1 vertex2) 2, vdiv (vadd vertex3 vertex4) 2)
    else ((-1)%Z, vzero, vzero)
  else
    let numer := d1343 * d4321 - d1321 * d4343 in
    let mua := numer / denom in
    let mub := (d1343 + d4321 * mua) / d4343 in
    let pointA := if Qltb mua 0 then vertex1
                  else if Qltb 1 mua then vertex2
                  else vadd vertex1 (vscale line21 mua) in
    let pointB := if Qltb mub 0 then vertex3
                  else if Qltb 1 mub then vertex4
                  else vadd vertex3 (vscale line43 mub) in
    let retValue := if Qltb mua 0 || Qltb 1 mua || Qltb mub 0 || Qltb 1 mub
                    then (-1)%Z else 1%Z in
    (retValue, pointA, pointB).

(** The kinematic predictor: [bodyNCurrent] and [bodyNFuture] of body [b].
    [otherOmegaDot] is the angular acceleration the source adds to the
    future angular velocity (that of [closeBodies[groupIt1][0]] for both
    bodies).  Members that the source leaves unset are zero. *)
Definition predictCurrent (b : geometry) (tau : Q) : dynamicData :=
  let st := Body.states b in
  if Body.isSpice b then
    let dcm := madd (mscale (mmul (mneg (omegaTilde_BN_B st)) (dcm_BN st)) tau)
                    (dcm_BN st) in
    mkDynamicData (vadd (r_BN_N st) (vscale (v_BN_N st) tau)) (v_BN_N st)
                  vzero 0 mzero mzero vzero vzero vzero (omegaTilde_BN_B st)
                  vzero vzero mzero dcm (mtranspose dcm)
  else
    let r := vadd (vadd (r_BN_N st) (vscale (v_BN_N st) tau))
                  (mmulv (dcm_NB st)
                         (vscale (vscale (nonConservativeAccelpntB_B st) tau) tau)) in
    let v := vadd (v_BN_N st)
                  (mmulv (dcm_NB st) (vscale (nonConservativeAccelpntB_B st) tau)) in
    let omega := vadd (omega_BN_B st) (vscale (omegaDot_BN_B st) tau) in
    let sigma := vadd (vscale (mmulv (mscale (Bmat (sigma_BN st)) (25#100)) omega) tau)
                      (sigma_BN st) in
    let dcmNB := toRotationMatrix sigma in
    mkDynamicData r v vzero 0 mzero mzero vzero omega vzero (eigenTilde omega)
                  sigma vzero mzero (mtranspose dcmNB) dcmNB.

Definition predictFuture (b : geometry) (cur : dynamicData) (otherOmegaDot : Vec3)
  (timeStep : Q) : dynamicData :=
  let st := Body.states b in
  if Body.isSpice b then
    let dcm := madd (mscale (mmul (mneg (omegaTilde_BN_B st)) (dcm_BN cur)) timeStep)
                    (dcm_BN cur) in
    mkDynamicData (vadd (r_BN_N cur) (vscale (v_BN_N st) timeStep)) (v_BN_N st)
                  vzero 0 mzero mzero vzero vzero vzero mzero
                  vzero vzero mzero dcm (mtranspose dcm)
  else
    let r := vadd (vadd (r_BN_N cur) (vscale (v_BN_N cur) timeStep))
                  (mmulv (dcm_NB cur)
                         (vscale (vscale (nonConservativeAccelpntB_B st) timeStep)
                                 timeStep)) in
    let omega := vadd (omega_BN_B cur) (vscale otherOmegaDot timeStep) in
    let sigma := vadd (vscale (mmulv (mscale (Bmat (sigma_BN cur)) (25#100)) omega)
                              timeStep)
                      (sigma_BN cur) in
    let dcmNB := toRotationMatrix sigma in
    mkDynamicData r vzero vzero 0 mzero mzero vzero omega vzero mzero
                  sigma vzero mzero (mtranspose dcmNB) dcmNB.

(** A body-frame point over the step: [tempVecInter]. *)
Definition sweep (cur fut : dynamicData) (p : Vec3) : vectorInterval :=
  mkInterval (vadd (r_BN_N cur) (mmulv (dcm_NB cur) p))
             (vadd (r_BN_N fut) (mmulv (dcm_NB fut) p)).

Definition vertexOf (b : geometry) (i : nat) : Vec3 := nth i (Body.vertices b) vzero.

Definition idiff (a b : vectorInterval) : vectorInterval :=
  mkInterval (vsub (lower a) (lower b)) (vsub (upper a) (upper b)).

(** An element of [bodyNEdgeInter]. *)
Record edgeInter : Type := mkEdgeInter {
  edgeStart : vectorInterval;
  edgeEnd : vectorInterval;
  edgeNormal1 : Vec3;
  edgeNormal2 : Vec3
}.

Definition edgeInters (b : geometry) (cluster : halfEdge) (cur fut : dynamicData)
  : list edgeInter :=
  map (fun edgeInd =>
         let edge := nth edgeInd (edgeIndices cluster) [] in
         let faces := nth edgeInd (faceIndices cluster) (O, O, O) in
         mkEdgeInter
           (sweep cur fut (vertexOf b (nth 0 edge O)))
           (sweep cur fut (vertexOf b (nth 1 edge O)))
           (mmulv (dcm_NB cur) (nth (fst (fst faces)) (faceNormals cluster) vzero))
           (mmulv (dcm_NB cur)
                  (nth (snd faces)
                       (faceNormals (nth (snd (fst faces)) (Body.polyhedron b) noHalfEdge))
                       vzero)))
      (seq 0 (length (edgeIndices cluster))).

(** The running state of the search: [impacts], [currentMaxError],
    [maxErrorInd] and [this->currentMinError]. *)
Record search : Type := mkSearch {
  impacts : list impact;
  currentMaxError : Q;
  maxErrorInd : Z;
  minError : Q
}.

(** [(contactError <= maxPosError) || (contactError <= currentMinError + 1e-15)]. *)
Definition acceptable (maxPosError : Q) (st : search) (contactError : Q) : bool :=
  Qleb contactError maxPosError || Qleb contactError (minError st + 1e-15).

(** The [for (impInd ...)] loop that erases the first stored contact within
    1e-3 of either point. *)
Definition dropNear (st : search) (a b : Vec3) : search :=
  match findIndex (fun imp => Qltb (vnorm (vsub a (pointA imp))) 1e-3
                              || Qltb (vnorm (vsub b (pointB imp))) 1e-3)
                  (impacts st) with
  | Some impInd =>
      mkSearch (erase (impacts st) impInd)
               (if (Z.of_nat impInd =? maxErrorInd st)%Z then minError st
                else currentMaxError st)
               (maxErrorInd st) (minError st)
  | None => st
  end.

(** [impacts.push_back(...)] and the update of the error bounds. *)
Definition pushImpact (st : search) (imp : impact) (contactError : Q) : search :=
  let impacts' := impacts st ++ [imp] in
  if Qltb (currentMaxError st) contactError
  then mkSearch impacts' contactError (Z.of_nat (length impacts') - 1) (minError st)
  else mkSearch impacts' (currentMaxError st) (maxErrorInd st) contactError.

(** The triple product test on a face (or an edge pair) and a support. *)
Definition elemTest (support leg1 leg2 : vectorInterval) : Q * Q :=
  IntervalDotProduct support (IntervalCrossProduct leg1 leg2).

Definition straddles (tol : Q) (t : Q * Q) : bool :=
  (Qleb (fst t) (- tol) && Qleb tol (snd t))
  || (Qleb tol (fst t) && Qleb (snd t) (- tol)).

Definition straddlesStrictly (t : Q * Q) : bool :=
  (Qltb (fst t) 0 && Qltb 0 (snd t)) || (Qltb 0 (fst t) && Qltb (snd t) 0).

(** One face against the vertices of the other body.  [faceOfBody1] tells
    which of the two loops this is; the result is the search state and
    [usedVerts]. *)
Definition faceAgainstVertices (maxPosError : Q) (faceOfBody1 : bool)
  (f0 f1 f2 : vectorInterval) (normal_N : Vec3) (verts : list vectorInterval)
  (st : search) : search * list nat :=
  let leg1 := idiff f0 f1 in
  let leg2 := idiff f0 f2 in
  fold_left
    (fun (acc : search * list nat) vertInd =>
       let (st, usedVerts) := acc in
       let vert := nth vertInd verts (mkInterval vzero vzero) in
       if straddles 1e-12 (elemTest (idiff vert f0) leg1 leg2) then
         match PointInTriangle (lower vert) (lower f0) (lower f1) (lower f2) with
         | (intersectFlag, contactPoint, contactError) =>
             if (intersectFlag =? 1)%Z && acceptable maxPosError st contactError then
               let imp : impact :=
                 if faceOfBody1 then (contactPoint, lower vert, normal_N)
                 else (lower vert, contactPoint, normal_N) in
               let st := dropNear st (pointA imp) (pointB imp) in
               (pushImpact st imp contactError, usedVerts ++ [vertInd])
             else acc
         end
       else acc)
    (seq 0 (length verts)) (st, []).

(** The loop over the faces of one cluster; used vertices are erased from
    the list after each face, last first. *)
Definition facesAgainstVertices (maxPosError : Q) (faceOfBody1 : bool)
  (b : geometry) (cluster : halfEdge) (cur fut : dynamicData)
  (verts : list vectorInterval) (st : search) : search * list vectorInterval :=
  fold_left
    (fun (acc : search * list vectorInterval) faceInd =>
       let (st, verts) := acc in
       let tri := nth faceInd (faceTriangles cluster) [] in
       let corner i := sweep cur fut (vertexOf b (nth i tri O)) in
       let normal := nth faceInd (faceNormals cluster) vzero in
       let normal_N := if faceOfBody1 then mmulv (dcm_NB cur) (vneg normal)
                       else mmulv (dcm_NB cur) normal in
       let (st, usedVerts) :=
         faceAgainstVertices maxPosError faceOfBody1
                             (corner 0%nat) (corner 1%nat) (corner 2%nat)
                             normal_N verts st in
       (st, fold_left (fun vs i => erase vs i) (rev usedVerts) verts))
    (seq 0 (length (faceTriangles cluster))) (st, verts).

(** The velocity of the contact used to choose the normal of an edge
    contact. *)
Definition contactVelocity_N (body1Current body2Current : dynamicData)
  (contactPoint contactPoint2 : Vec3) : Vec3 :=
  vsub
    (vadd (v_BN_N body1Current)
          (mmulv (dcm_NB body1Current)
                 (mmulv (mmul (omegaTilde_BN_B body1Current) (dcm_BN body1Current))
                        (vsub contactPoint (r_BN_N body1Current)))))
    (vadd (v_BN_N body2Current)
          (mmulv (dcm_NB body2Current)
                 (mmulv (mmul (omegaTilde_BN_B body2Current) (dcm_BN body2Current))
                        (vsub contactPoint2 (r_BN_N body2Current))))).

(** One edge of body 1 against one edge of body 2. *)
Definition edgeAgainstEdge (maxPosError : Q) (body1Current body2Current : dynamicData)
  (e1 e2 : edgeInter) (st : search) : search :=
  let leg1 := idiff (edgeEnd e1) (edgeStart e1) in
  let leg2 := idiff (edgeEnd e2) (edgeStart e2) in
  if straddlesStrictly (elemTest (idiff (edgeStart e2) (edgeStart e1)) leg1 leg2) then
    match LineLineDistance (lower (edgeStart e1)) (lower (edgeEnd e1))
                           (lower (edgeStart e2)) (lower (edgeEnd e2)) with
    | (intersectFlag, contactPoint, contactPoint2) =>
        let contactError := vnorm (vsub contactPoint contactPoint2) in
        if ((intersectFlag =? 0)%Z || (intersectFlag =? 1)%Z)
           && acceptable maxPosError st contactError then
          let st := dropNear st contactPoint contactPoint2 in
          let vel := contactVelocity_N body1Current body2Current
                                       contactPoint contactPoint2 in
          let opposes1 := Qltb (vdot vel (edgeNormal1 e2)) (- 1e-12) in
          let opposes2 := Qltb (vdot vel (edgeNormal2 e2)) (- 1e-12) in
          if opposes1 && opposes2 then
            pushImpact st (contactPoint, contactPoint2,
                           vnormalized (vadd (edgeNormal1 e2) (edgeNormal2 e2)))
                       contactError
          else if opposes1 then
            pushImpact st (contactPoint, contactPoint2, edgeNormal1 e2) contactError
          else if opposes2 then
            pushImpact st (contactPoint, contactPoint2, edgeNormal2 e2) contactError
          else st
        else st
    end
  else st.

(** The body of the loop over [coarseSearchList.overlaps]. *)
Definition clusterPairSearch (maxPosError : Q) (b1 b2 : geometry)
  (body1Current body1Future body2Current body2Future : dynamicData)
  (st : search) (polyPair : nat * nat) : search :=
  let cluster1 := nth (fst polyPair) (Body.polyhedron b1) noHalfEdge in
  let cluster2 := nth (snd polyPair) (Body.polyhedron b2) noHalfEdge in
  let body1UniqueVertInter :=
    map (fun i => sweep body1Current body1Future (vertexOf b1 i))
        (uniqueVertIndices cluster1) in
  let body2UniqueVertInter :=
    map (fun i => sweep body2Current body2Future (vertexOf b2 i))
        (uniqueVertIndices cluster2) in
  let body1EdgeInter := edgeInters b1 cluster1 body1Current body1Future in
  let body2EdgeInter := edgeInters b2 cluster2 body2Current body2Future in
  let (st, _) := facesAgainstVertices maxPosError true b1 cluster1
                   body1Current body1Future body2UniqueVertInter st in
  let (st, _) := facesAgainstVertices maxPosError false b2 cluster2
                   body2Current body2Future body1UniqueVertInter st in
  fold_left
    (fun st e1 =>
       fold_left (fun st e2 => edgeAgainstEdge maxPosError body1Current body2Current
                                               e1 e2 st)
                 body2EdgeInter st)
    body1EdgeInter st.

(** "Fine collision detection": the search over all listed cluster pairs,
    started with no impact, [currentMaxError = 0], [maxErrorInd = -1] and
    [currentMinError = 100]. *)
Definition fineDetection (maxPosError : Q) (b1 b2 : geometry)
  (body1Current body1Future body2Current body2Future : dynamicData) : search :=
  fold_left (clusterPairSearch maxPosError b1 b2 body1Current body1Future
                               body2Current body2Future)
            (overlaps (Body.coarseSearchList b1))
            (mkSearch [] 0 (-1) 100).

End NarrowPhase.

(** ** [computeForceTorque] *)

Definition set_outputs (s : RigidBodyContactEffector) (f_N f_B t_B : Vec3) :=
  mkEffector (currentSimSeconds s) (closeBodies s) (currentBodyInCycle s)
    (currentMinError s) (responseFound s) (lockedToRand s) (timeFound s)
    (integrateTimeStep s) (newMacroTimeStep s) (topTime s) (topTimeStep s)
    (secondInter s) (Bodies s) (numBodies s) (currentBody s) (maxPosError s)
    (slipTolerance s) (simTimeStep s) (collisionIntegrationStep s)
    (maxBoundingBoxDim s) (minBoundingBoxDim s) (boundingBoxFF s) (maxTimeStep s)
    (timeSynchTol s) f_N f_B t_B.

Definition set_currentMinError (s : RigidBodyContactEffector) (e : Q) :=
  mkEffector (currentSimSeconds s) (closeBodies s) (currentBodyInCycle s)
    e (responseFound s) (lockedToRand s) (timeFound s)
    (integrateTimeStep s) (newMacroTimeStep s) (topTime s) (topTimeStep s)
    (secondInter s) (Bodies s) (numBodies s) (currentBody s) (maxPosError s)
    (slipTolerance s) (simTimeStep s) (collisionIntegrationStep s)
    (maxBoundingBoxDim s) (minBoundingBoxDim s) (boundingBoxFF s) (maxTimeStep s)
    (timeSynchTol s) (forceExternal_N s) (forceExternal_B s) (torqueExternalPntB_B s).

(** The members of the cycle coordinator: [currentBodyInCycle],
    [newMacroTimeStep], [topTime], [topTimeStep], [secondInter]. *)
Definition set_cycle (s : RigidBodyContactEffector) (cur : Z) (newMacro : bool)
  (top topStep : Q) (second : bool) :=
  mkEffector (currentSimSeconds s) (closeBodies s) cur
    (currentMinError s) (responseFound s) (lockedToRand s) (timeFound s)
    (integrateTimeStep s) newMacro top topStep
    second (Bodies s) (numBodies s) (currentBody s) (maxPosError s)
    (slipTolerance s) (simTimeStep s) (collisionIntegrationStep s)
    (maxBoundingBoxDim s) (minBoundingBoxDim s) (boundingBoxFF s) (maxTimeStep s)
    (timeSynchTol s) (forceExternal_N s) (forceExternal_B s) (torqueExternalPntB_B s).

Definition set_responseFound (s : RigidBodyContactEffector) (v : bool) :=
  mkEffector (currentSimSeconds s) (closeBodies s) (currentBodyInCycle s)
    (currentMinError s) v (lockedToRand s) (timeFound s)
    (integrateTimeStep s) (newMacroTimeStep s) (topTime s) (topTimeStep s)
    (secondInter s) (Bodies s) (numBodies s) (currentBody s) (maxPosError s)
    (slipTolerance s) (simTimeStep s) (collisionIntegrationStep s)
    (maxBoundingBoxDim s) (minBoundingBoxDim s) (boundingBoxFF s) (maxTimeStep s)
    (timeSynchTol s) (forceExternal_N s) (forceExternal_B s) (torqueExternalPntB_B s).

Definition set_lockedToRand (s : RigidBodyContactEffector) (v : bool) :=
  mkEffector (currentSimSeconds s) (closeBodies s) (currentBodyInCycle s)
    (currentMinError s) (responseFound s) v (timeFound s)
    (integrateTimeStep s) (newMacroTimeStep s) (topTime s) (topTimeStep s)
    (secondInter s) (Bodies s) (numBodies s) (currentBody s) (maxPosError s)
    (slipTolerance s) (simTimeStep s) (collisionIntegrationStep s)
    (maxBoundingBoxDim s) (minBoundingBoxDim s) (boundingBoxFF s) (maxTimeStep s)
    (timeSynchTol s) (forceExternal_N s) (forceExternal_B s) (torqueExternalPntB_B s).

(** [timeFound = currentTime + timeStep + 1.0e-15; integrateTimeStep = timeStep]. *)
Definition set_found (s : RigidBodyContactEffector) (currentTime timeStep : Q) :=
  mkEffector (currentSimSeconds s) (closeBodies s) (currentBodyInCycle s)
    (currentMinError s) (responseFound s) (lockedToRand s)
    (currentTime + timeStep + 1e-15)
    timeStep (newMacroTimeStep s) (topTime s) (topTimeStep s)
    (secondInter s) (Bodies s) (numBodies s) (currentBody s) (maxPosError s)
    (slipTolerance s) (simTimeStep s) (collisionIntegrationStep s)
    (maxBoundingBoxDim s) (minBoundingBoxDim s) (boundingBoxFF s) (maxTimeStep s)
    (timeSynchTol s) (forceExternal_N s) (forceExternal_B s) (torqueExternalPntB_B s).

(** [Bodies[i]] for an [int] index. *)
Definition bodyAt (s : RigidBodyContactEffector) (i : Z) : geometry :=
  if (i <? 0)%Z then noBody else body s (Z.to_nat i).

(** The [return] statement through which a call leaves, by its line in
    the source.  It is not data of the program: it names the path taken. *)
Inductive exit : Type :=
  | ReplayA          (* line 640: the stored response of body A again *)
  | StaleA           (* line 643 *)
  | NoContact        (* line 1000: empty manifold *)
  | RejectReplayA    (* line 1012: step-rejection values again *)
  | OverPenetration  (* line 1027 *)
  | Solved           (* line 1165 *)
  | EmptyQueueB      (* line 1178 *)
  | ReplayB          (* line 1187 *)
  | StaleB           (* line 1194 *)
  | RejectReplayB    (* line 1207 *)
  | SynchB           (* line 1220 *)
  | LateB            (* line 1235 *)
  | Fallthrough.     (* line 1239: end of the function *)

(** [((std::rand() % 1000) + 1000.0) / timeStep]. *)
Definition rejectionValue (r : Z) (timeStep : Q) : Q :=
  (inject_Z (Z.rem r 1000) + 1000) / timeStep.

(** The six assignments of the step-rejection signal: the three components
    of [forceExternal_N], then those of [torqueExternalPntB_B]. *)
Definition drawRejection (s : RigidBodyContactEffector) (g : Rng) (timeStep : Q)
  : RigidBodyContactEffector * Rng :=
  let (r0, g) := rand g in
  let (r1, g) := rand g in
  let (r2, g) := rand g in
  let (r3, g) := rand g in
  let (r4, g) := rand g in
  let (r5, g) := rand g in
  (set_outputs s
     (mkVec3 (rejectionValue r0 timeStep) (rejectionValue r1 timeStep)
             (rejectionValue r2 timeStep))
     (forceExternal_B s)
     (mkVec3 (rejectionValue r3 timeStep) (rejectionValue r4 timeStep)
             (rejectionValue r5 timeStep)),
   g).

(** Lines 525-527, 564 and 599-624: outputs zeroed, [currentMinError = 100]
    and the cycle coordinator. *)
Definition prologue (s : RigidBodyContactEffector) (currentTime timeStep : Q)
  : RigidBodyContactEffector :=
  let s := set_outputs s vzero vzero vzero in
  let s := set_currentMinError s 100 in
  let s := if newMacroTimeStep s
           then set_cycle s (currentBodyInCycle s) false currentTime timeStep false
           else s in
  if Qltb (Qabs (topTime s - currentTime)) 1e-15
     && Qltb (Qabs (topTimeStep s - timeStep)) 1e-15
  then
    if secondInter s
    then set_cycle s (currentBodyInCycle s) (newMacroTimeStep s)
                   (topTime s) (topTimeStep s) false
    else
      let cur := (currentBodyInCycle s + 1)%Z in
      let cur := if Body.isSpice (bodyAt s cur) then (cur + 1)%Z else cur in
      let s := set_cycle s cur (newMacroTimeStep s) (topTime s) (topTimeStep s) true in
      set_lockedToRand (set_responseFound s false) false
  else s.

Definition vecOf (v : Vec3) : list Q := [vx v; vy v; vz v].

Section ForceTorque.
Context {E : Extern}.

(** The local contact frame of an impact: [tempDCM]. *)
Definition contactFrame (body2Current : dynamicData) (imp : impact) : Mat3 :=
  let cHat_3 := vnormalized (normalOf imp) in
  let cHat_1 := vcross cHat_3 (mmulv (dcm_NB body2Current) zAxis) in
  let cHat_1 := if Qltb (vnorm cHat_1) 1e-9
                then vcross cHat_3 (mmulv (dcm_NB body2Current) xAxis)
                else cHat_1 in
  let cHat_1 := vnormalized cHat_1 in
  let cHat_2 := vnormalized (vcross cHat_3 cHat_1) in
  mkMat3 cHat_1 cHat_2 cHat_3.

(** One body's part of [M_C] for the block (ii, jj). *)
Definition inverseInertiaTerm (st : dynamicData) (dcm_CN_ii dcm_CB_ii : Mat3)
  (p_ii p_jj : Vec3) : Mat3 :=
  msub (mscale midentity (1 / m_SC st))
       (mmul (mmul (eigenTilde (mmulv dcm_CN_ii p_ii))
                   (mmul (mmul dcm_CB_ii (ISCPntB_B_inv st)) (mtranspose dcm_CB_ii)))
             (eigenTilde (mmulv dcm_CN_ii p_jj))).

(** The block (ii, jj) of [M_tot]. *)
Definition inertiaBlock (b1 b2 : geometry) (dcm_CN dcm_CB1 dcm_CB2 : list Mat3)
  (imps : list impact) (ii jj : nat) : Mat3 :=
  let imp_ii := nth ii imps noImpact in
  let imp_jj := nth jj imps noImpact in
  let term1 := inverseInertiaTerm (Body.states b1) (nth ii dcm_CN mzero)
                 (nth ii dcm_CB1 mzero) (pointA imp_ii) (pointA imp_jj) in
  let M_C :=
    if Body.isSpice b2 then term1
    else madd term1
              (inverseInertiaTerm (Body.states b2) (nth ii dcm_CN mzero)
                 (nth ii dcm_CB2 mzero) (pointB imp_ii) (pointB imp_jj)) in
  if (ii =? jj)%nat then M_C
  else mmul M_C (mmul (nth ii dcm_CB1 mzero) (mtranspose (nth jj dcm_CB1 mzero))).

(** [M_tot], row by row. *)
Definition inverseInertiaMatrix (b1 b2 : geometry) (dcm_CN dcm_CB1 dcm_CB2 : list Mat3)
  (imps : list impact) : list (list Q) :=
  let K := length imps in
  flat_map
    (fun ii =>
       let blocks := map (inertiaBlock b1 b2 dcm_CN dcm_CB1 dcm_CB2 imps ii)
                         (seq 0 K) in
       [ flat_map (fun b => vecOf (row0 b)) blocks;
         flat_map (fun b => vecOf (row1 b)) blocks;
         flat_map (fun b => vecOf (row2 b)) blocks ])
    (seq 0 K).

(** "Extract resulting force and torque": the four accumulators
    ([forceExternal_N], [torqueExternalPntB_B], [forceExternalOther_N],
    [torqueExternalOtherPntB_B]) after the loop. *)
Definition extractStep (dcm_CN : list Mat3) (imps : list impact) (X_c : list Q)
  (body1Current body2Current : dynamicData) (timeStep : Q)
  (acc : Vec3 * Vec3 * Vec3 * Vec3) (impNum : nat) : Vec3 * Vec3 * Vec3 * Vec3 :=
  match acc with
  | (force, torque, forceOther, torqueOther) =>
      let numImpacts := length imps in
      let imp := nth impNum imps noImpact in
      let impulse_Body1_N :=
        mmulv (mtranspose (nth impNum dcm_CN mzero))
              (segment3 X_c (numImpacts * 3 + impNum * 3)) in
      let forceOther := vsub forceOther impulse_Body1_N in
      let torqueOther :=
        vsub torqueOther
             (mmulv (dcm_BN body2Current)
                    (vcross (vsub (pointB imp) (r_BN_N body2Current)) impulse_Body1_N)) in
      let force := vadd force (vdiv impulse_Body1_N timeStep) in
      let torque :=
        vadd torque
             (mmulv (dcm_BN body1Current)
                    (vcross (vsub (pointA imp) (r_BN_N body1Current))
                            (vdiv impulse_Body1_N timeStep))) in
      (force, torque, forceOther, torqueOther)
  end.

(** Lines 1029-1165: the impulse solve for a non-empty manifold and the
    queueing of the result. *)
Definition solveImpacts (s : RigidBodyContactEffector) (bodyPair : nat * nat)
  (body1Current body2Current : dynamicData) (found : search)
  (currentTime timeStep : Q) : RigidBodyContactEffector :=
  let b1 := body s (fst bodyPair) in
  let b2 := body s (snd bodyPair) in
  let imps := impacts found in
  let dcm_CN := map (contactFrame body2Current) imps in
  let dcm_CB1 := map (fun c => mmul c (dcm_NB body1Current)) dcm_CN in
  let dcm_CB2 := map (fun c => mmul c (dcm_NB body2Current)) dcm_CN in
  let M_tot := inverseInertiaMatrix b1 b2 dcm_CN dcm_CB1 dcm_CB2 imps in
  let X_c := initialCollisionState dcm_CN imps body1Current body2Current in
  let X_c :=
    match integrateCollision (collisionIntegrationStep s) imps M_tot
                             (Body.coefRestitution b1) (Body.coefFriction b1) X_c with
    | Some (_, X) => X
    | None => X_c
    end in
  match fold_left (extractStep dcm_CN imps X_c body1Current body2Current timeStep)
                  (seq 0 (length imps))
                  (forceExternal_N s, torqueExternalPntB_B s, vzero, vzero) with
  | (force, torque, forceOther, torqueOther) =>
      let s := set_outputs s force (forceExternal_B s) torque in
      if Qleb (currentMaxError found) (maxPosError s) then
        let s := set_found (set_responseFound s true) currentTime timeStep in
        let bodies :=
          update (Bodies s) (fst bodyPair)
                 (fun b => Body.set_queues b (Body.forceExternal_N b ++ [force])
                                           (Body.torqueExternalPntB_B b)
                                           (Body.impactTimes b) (Body.impactTimeSteps b)) in
        let bodies :=
          update bodies (snd bodyPair)
                 (fun b => Body.set_queues b (Body.forceExternal_N b ++ [forceOther])
                                           (Body.torqueExternalPntB_B b)
                                           (Body.impactTimes b) (Body.impactTimeSteps b)) in
        let bodies :=
          update bodies (fst bodyPair)
                 (fun b => Body.set_queues b (Body.forceExternal_N b)
                                           (Body.torqueExternalPntB_B b ++ [torque])
                                           (Body.impactTimes b) (Body.impactTimeSteps b)) in
        let bodies :=
          update bodies (snd bodyPair)
                 (fun b => Body.set_queues b (Body.forceExternal_N b)
                                           (Body.torqueExternalPntB_B b ++ [torqueOther])
                                           (Body.impactTimes b ++ [currentTime])
                                           (Body.impactTimeSteps b ++ [timeStep])) in
        set_Bodies s bodies
      else s
  end.

(** The manifold found for a close bodyPair: the predictor and the search. *)
Definition manifold (s : RigidBodyContactEffector) (bodyPair : nat * nat)
  (currentTime timeStep : Q) : dynamicData * dynamicData * search :=
  let b1 := body s (fst bodyPair) in
  let b2 := body s (snd bodyPair) in
  let tau := currentTime - currentSimSeconds s in
  let body1Current := predictCurrent b1 tau in
  let body2Current := predictCurrent b2 tau in
  let body1Future :=
    predictFuture b1 body1Current (omegaDot_BN_B (Body.states b1)) timeStep in
  let body2Future :=
    predictFuture b2 body2Current (omegaDot_BN_B (Body.states b1)) timeStep in
  (body1Current, body2Current,
   fineDetection (maxPosError s) b1 b2
                 body1Current body1Future body2Current body2Future).

(** The body of the first loop for the first bodyPair whose first body is the
    current body of the cycle; every path through it returns. *)
Definition asBodyA (s : RigidBodyContactEffector) (g : Rng) (bodyPair : nat * nat)
  (currentTime timeStep : Q) : exit * RigidBodyContactEffector * Rng :=
  if responseFound s then
    if Qleb currentTime (timeFound s)
       && Qltb (Qabs (timeStep - integrateTimeStep s)) 1e-15
    then (ReplayA,
          set_outputs s (last (Body.forceExternal_N (body s (fst bodyPair))) vzero)
                      (forceExternal_B s)
                      (last (Body.torqueExternalPntB_B (body s (fst bodyPair))) vzero),
          g)
    else (StaleA, set_responseFound s false, g)
  else
    match manifold s bodyPair currentTime timeStep with
    | (body1Current, body2Current, found) =>
        let s := set_currentMinError s (minError found) in
        if (length (impacts found) =? 0)%nat then
          (NoContact, set_found (set_lockedToRand s true) currentTime timeStep, g)
        else if lockedToRand s
                && Qltb (Qabs (timeStep - integrateTimeStep s)) 1e-15 then
          let (s, g) := drawRejection s g timeStep in (RejectReplayA, s, g)
        else
          let s := if lockedToRand s then set_lockedToRand s false else s in
          if Qltb (maxPosError s) (currentMaxError found) then
            let (s, g) := drawRejection s g timeStep in
            (OverPenetration,
             set_found (set_lockedToRand s true) currentTime timeStep, g)
          else
            (Solved,
             solveImpacts s bodyPair body1Current body2Current found currentTime timeStep,
             g)
    end.

(** [v.erase(v.begin())]. *)
Definition eraseFirst {A : Type} (l : list A) : list A := tl l.

(** The second loop: the bodyPairs whose second body is the current body of
    the cycle. *)
Fixpoint asBodyB (s : RigidBodyContactEffector) (g : Rng) (bodyPairs : list (nat * nat))
  (currentTime timeStep : Q) : exit * RigidBodyContactEffector * Rng :=
  match bodyPairs with
  | [] => (Fallthrough, s, g)
  | bodyPair :: rest =>
      if negb (Z.of_nat (snd bodyPair) =? currentBodyInCycle s)%Z then
        asBodyB s g rest currentTime timeStep
      else
        let b := body s (snd bodyPair) in
        if (length (Body.forceExternal_N b) =? 0)%nat then (EmptyQueueB, s, g)
        else if responseFound s then
          if Qleb currentTime (timeFound s)
             && Qltb (Qabs (timeStep - integrateTimeStep s)) 1e-15
          then (ReplayB,
                set_outputs s
                  (vdiv (nth 0 (Body.forceExternal_N b) vzero) (integrateTimeStep s))
                  (forceExternal_B s)
                  (vdiv (nth 0 (Body.torqueExternalPntB_B b) vzero)
                        (integrateTimeStep s)),
                g)
          else
            (StaleB,
             set_Bodies (set_responseFound s false)
               (update (Bodies s) (snd bodyPair)
                       (fun b => Body.set_queues b
                                   (eraseFirst (Body.forceExternal_N b))
                                   (eraseFirst (Body.torqueExternalPntB_B b))
                                   (eraseFirst (Body.impactTimes b))
                                   (eraseFirst (Body.impactTimeSteps b)))),
             g)
        else if lockedToRand s
                && (Qleb currentTime (timeFound s)
                    && Qltb (Qabs (timeStep - integrateTimeStep s)) 1e-15) then
          let (s, g) := drawRejection s g timeStep in (RejectReplayB, s, g)
        else
          let s := if lockedToRand s then set_lockedToRand s false else s in
          if Qltb (Qabs (currentTime - nth 0 (Body.impactTimes b) 0)) (timeSynchTol s)
             && Qltb (Qabs (timeStep - nth 0 (Body.impactTimeSteps b) 0)) (timeSynchTol s)
          then
            let s := set_found (set_responseFound s true) currentTime timeStep in
            (SynchB,
             set_outputs s
               (vdiv (nth 0 (Body.forceExternal_N b) vzero) (integrateTimeStep s))
               (forceExternal_B s)
               (vdiv (nth 0 (Body.torqueExternalPntB_B b) vzero) (integrateTimeStep s)),
             g)
          else if Qltb (nth 0 (Body.impactTimes b) 0) (currentTime + timeStep) then
            let s := set_found (set_lockedToRand s true) currentTime timeStep in
            let (s, g) := drawRejection s g timeStep in (LateB, s, g)
          else asBodyB s g rest currentTime timeStep
  end.

(** [computeForceTorque(currentTime, timeStep)]: the path taken, the effector
    and the random generator after the call. *)
Definition computeForceTorque (s : RigidBodyContactEffector) (g : Rng)
  (currentTime timeStep : Q) : exit * RigidBodyContactEffector * Rng :=
  let s := prologue s currentTime timeStep in
  match find (fun bodyPair => (Z.of_nat (fst bodyPair) =? currentBodyInCycle s)%Z)
             (closeBodies s) with
  | Some bodyPair => asBodyA s g bodyPair currentTime timeStep
  | None => asBodyB s g (closeBodies s) currentTime timeStep
  end.

End ForceTorque.

(** ** The mesh preprocessor: [ComputeHalfEdge] *)

(** [tinyobj::shape_t]: of its mesh, the number of vertices of each face
    and the vertex index of each corner. *)
Record shape_t : Type := mkShape {
  num_face_vertices : list nat;
  indices : list nat
}.

(** [std::sort(first, last, comp)] for a list: an insertion sort that keeps
    the order of elements that [comp] does not separate (the standard
    leaves that order open). *)
Fixpoint insertSorted {A : Type} (comp : A -> A -> bool) (x : A) (l : list A) : list A :=
  match l with
  | [] => [x]
  | y :: r => if comp y x then y :: insertSorted comp x r else x :: l
  end.

Definition sortBy {A : Type} (comp : A -> A -> bool) (l : list A) : list A :=
  fold_right (insertSorted comp) [] l.

(** [std::distance(v.begin(), std::min_element(v.begin(), v.end()))]. *)
Fixpoint minIndexFrom (best : Q) (bestAt next : nat) (l : list Q) : nat :=
  match l with
  | [] => bestAt
  | x :: r => if Qltb x best then minIndexFrom x next (S next) r
              else minIndexFrom best bestAt (S next) r
  end.

Definition minIndex (l : list Q) : nat :=
  match l with [] => O | x :: r => minIndexFrom x O 1 r end.

(** [std::remove] followed by [erase]: every occurrence is dropped. *)
Definition removeAll (x : nat) (l : list nat) : list nat :=
  filter (fun y => negb (y =? x)%nat) l.

Definition memNat (x : nat) (l : list nat) : bool := existsb (Nat.eqb x) l.

(** [std::set<int>]: its elements in increasing order. *)
Fixpoint setInsert (x : nat) (s : list nat) : list nat :=
  match s with
  | [] => [x]
  | y :: r => if (x <? y)%nat then x :: s
              else if (x =? y)%nat then s
              else y :: setInsert x r
  end.

Definition setOfList (l : list nat) : list nat := fold_left (fun s x => setInsert x s) l [].
Definition setDifference (a b : list nat) : list nat :=
  filter (fun x => negb (memNat x b)) a.
Definition setUnion (a b : list nat) : list nat := fold_left (fun s x => setInsert x s) b a.

(** [double] to [int]: truncation towards zero. *)
Definition truncate (x : Q) : Z := Z.quot (Qnum x) (Zpos (Qden x)).

(** The turn test of [ComparePoints] and [findConvexHull]: 0 collinear,
    2 anti-clockwise, 1 clockwise. *)
Definition turn (val : Q) : nat :=
  if Qltb (Qabs val) (1#100) then 0%nat
  else if Qltb val 0 then 2%nat else 1%nat.

Definition sqNorm (v : Vec3) : Q := vdot v v.

(** [ComparePoints]: [point1] = (p1, p0), [point2] = (p2, _). *)
Definition ComparePoints (point1 point2 : list Vec3) : bool :=
  let p1 := nth 0 point1 vzero in
  let p2 := nth 0 point2 vzero in
  let p0 := nth 1 point1 vzero in
  let val := (vy p1 - vy p0) * (vx p2 - vx p1) - (vx p1 - vx p0) * (vy p2 - vy p1) in
  let dir := turn val in
  if (dir =? 0)%nat then Qltb (sqNorm (vsub p0 p1)) (sqNorm (vsub p0 p2))
  else (dir =? 2)%nat.

(** The first loop of [findConvexHull]: the index of the seed point. *)
Definition seedIndex (points : list Vec3) : nat :=
  snd (fold_left
         (fun (acc : Z * nat) i =>
            let (minY, min) := acc in
            let y := truncate (vy (nth i points vzero)) in
            if ((y <? minY)%Z || (minY =? y)%Z)
               && Qltb (vx (nth i points vzero)) (vx (nth min points vzero))
            then (truncate (vy (nth i points vzero)), i)
            else acc)
         (seq 1 (length points - 1))
         (truncate (vy (nth 0 points vzero)), O)).

(** [std::swap(points[0], points[min])]. *)
Definition swapFirst (points : list Vec3) (min : nat) : list Vec3 :=
  update (update points 0 (fun _ => nth min points vzero)) min
         (fun _ => nth 0 points vzero).

(** [dir] of the angle loop for the sorted points [j] and [j + 1]. *)
Definition angleDir (p0 : Vec3) (sorted : list Vec3) (j : nat) : Q :=
  let a := nth j sorted vzero in
  let b := nth (j + 1) sorted vzero in
  (vy a - vy p0) * (vx b - vx a) - (vx a - vx p0) * (vy b - vy a).

(** [while ((i < n-3) && (abs(dir) < 0.01)) i++]: the value of [i] after it. *)
Fixpoint skipSameAngle (fuel : nat) (n : nat) (p0 : Vec3) (sorted : list Vec3)
  (i : nat) : nat :=
  match fuel with
  | O => i
  | S fuel' =>
      if (i + 3 <? n)%nat && Qltb (Qabs (angleDir p0 sorted i)) (1#100)
      then skipSameAngle fuel' n p0 sorted (S i) else i
  end.

(** [for (i = 0; i < n-2; i++)]: the points kept after [p0]. *)
Fixpoint keepAngles (fuel : nat) (n : nat) (p0 : Vec3) (sorted : list Vec3) (i : nat)
  (kept : list Vec3) : list Vec3 :=
  match fuel with
  | O => kept
  | S fuel' =>
      if (i + 2 <? n)%nat then
        let i := skipSameAngle n n p0 sorted i in
        keepAngles fuel' n p0 sorted (S i) (kept ++ [nth i sorted vzero])
      else kept
  end.

(** The Graham scan over [points[3 ..]]: the stack, top first. *)
Definition scanStep (stk : list Vec3) (p : Vec3) : list Vec3 :=
  let top := nth 0 stk vzero in
  let second := nth 1 stk vzero in
  let val := (vy top - vy second) * (vx p - vx top)
             - (vx top - vx second) * (vy p - vy top) in
  if (turn val =? 2)%nat then p :: stk else p :: tl stk.

(** [findConvexHull].  The points kept by the angle loop are written past
    the size of the cleared vector, into its capacity, and read back from
    there; here they are appended. *)
Definition findConvexHull (points : list Vec3) : list Vec3 :=
  let n := length points in
  let points := swapFirst points (seedIndex points) in
  let p0 := nth 0 points vzero in
  let pointsWithMin := map (fun p => [p; p0]) (tl points) in
  let sorted := map (fun pm => nth 0 pm vzero) (sortBy ComparePoints pointsWithMin) in
  let points := p0 :: keepAngles n n p0 sorted 0 [] in
  let arrSize := length points in
  if (arrSize <? 3)%nat then []
  else
    fold_left scanStep (skipn 3 points)
              [nth 2 points vzero; nth 1 points vzero; nth 0 points vzero].

(** Two faces share an edge: the six-deep comparison of the adjacency loop. *)
Definition sharesEdge (f g : list nat) : bool :=
  existsb (fun kk =>
    existsb (fun gg =>
      existsb (fun ww =>
        existsb (fun pp =>
                   negb (ww =? kk)%nat && negb (gg =? pp)%nat
                   && (nth kk f O =? nth gg g O)%nat
                   && (nth ww f O =? nth pp g O)%nat)
                [2; 1; 0]%nat)
              [2; 1; 0]%nat)
            [0; 1; 2]%nat)
          [0; 1; 2]%nat.

(** A face's three connections; -1 marks a free slot. *)
Definition hasFree (c : list Z) : bool := existsb (Z.eqb (-1)) c.

(** [*std::find(c.begin(), c.end(), -1) = v]; undefined without a free slot. *)
Fixpoint fillFree (c : list Z) (v : Z) : option (list Z) :=
  match c with
  | [] => None
  | x :: r => if (x =? -1)%Z then Some (v :: r)
              else match fillFree r v with Some r' => Some (x :: r') | None => None end
  end.

Definition connectionsOf (allConnections : list (list Z)) (i : nat) : list Z :=
  nth i allConnections [].

(** The loop over [unconnectedFaces] for face [ii]. *)
Fixpoint linkFace (allFaces : list (list nat)) (ii : nat) (candidates : list nat)
  (allConnections : list (list Z)) : option (list (list Z)) :=
  match candidates with
  | [] => Some allConnections
  | other :: rest =>
      if (other =? ii)%nat then linkFace allFaces ii rest allConnections
      else
        let linked :=
          if sharesEdge (nth ii allFaces []) (nth other allFaces []) then
            match fillFree (connectionsOf allConnections ii) (Z.of_nat other) with
            | Some c =>
                let conns := update allConnections ii (fun _ => c) in
                match fillFree (connectionsOf conns other) (Z.of_nat ii) with
                | Some c' => Some (update conns other (fun _ => c'))
                | None => None
                end
            | None => None
            end
          else Some allConnections in
        match linked with
        | Some conns =>
            if negb (hasFree (connectionsOf conns ii)) then Some conns
            else linkFace allFaces ii rest conns
        | None => None
        end
  end.

(** [allConnections.at(i)]: throws outside the vector. *)
Definition connectionsAt (allConnections : list (list Z)) (i : Z)
  : option (list Z) :=
  if (i <? 0)%Z then None else nth_error allConnections (Z.to_nat i).

(** One pass of the adjacency loop, for face [ii]. *)
Definition connectStep (allFaces : list (list nat))
  (acc : option (list (list Z) * list nat)) (ii : nat)
  : option (list (list Z) * list nat) :=
  match acc with
  | None => None
  | Some (allConnections, unconnectedFaces) =>
      if hasFree (connectionsOf allConnections ii) then
        match linkFace allFaces ii unconnectedFaces allConnections with
        | None => None
        | Some conns =>
            let drop :=
              fold_left
                (fun (u : option (list nat)) jj =>
                   match u with
                   | None => None
                   | Some u =>
                       let c := nth jj (connectionsOf conns ii) (-1)%Z in
                       match connectionsAt conns c with
                       | None => None
                       | Some cc => if hasFree cc then Some u
                                    else Some (removeAll (Z.to_nat c) u)
                       end
                   end)
                [0; 1; 2]%nat (Some unconnectedFaces) in
            match drop with
            | None => None
            | Some u => Some (conns, removeAll ii u)
            end
        end
      else acc
  end.

Section Mesh.
Context {E : Extern}.

(** The face table built by the first loop. *)
Record faceTable : Type := mkFaceTable {
  allFaces : list (list nat);
  allNormals : list Vec3;
  allBoundingBoxes : list Vec3;
  allCentroids : list Vec3;
  faceMaxDist : list Q
}.

Definition largestAbs (get : Vec3 -> Q) (centroid : Vec3) (corners : list Vec3) : Q :=
  fold_left (fun m p => let a := Qabs (get (vsub p centroid)) in
                        if Qltb m a then a else m)
            corners 0.

(** The body of the loop over the faces of one shape. *)
Definition addFace (vertices : list Vec3) (sh : shape_t)
  (acc : faceTable * nat) (faceIt : nat) : faceTable * nat :=
  let (tab, indexOffset) := acc in
  let i0 := nth (indexOffset + 0) (indices sh) O in
  let i1 := nth (indexOffset + 1) (indices sh) O in
  let i2 := nth (indexOffset + 2) (indices sh) O in
  let p0 := nth i0 vertices vzero in
  let p1 := nth i1 vertices vzero in
  let p2 := nth i2 vertices vzero in
  let faceNormal := vnormalized (vcross (vsub p1 p0) (vsub p2 p1)) in
  let centroid := vdiv (vadd (vadd p0 p1) p2) 3 in
  let box := mkVec3 (largestAbs vx centroid [p0; p1; p2])
                    (largestAbs vy centroid [p0; p1; p2])
                    (largestAbs vz centroid [p0; p1; p2]) in
  (mkFaceTable (allFaces tab ++ [[i0; i1; i2]])
               (allNormals tab ++ [faceNormal])
               (allBoundingBoxes tab ++ [box])
               (allCentroids tab ++ [centroid])
               (faceMaxDist tab ++ [max_element [vnorm p0; vnorm p1; vnorm p2]]),
   (indexOffset + nth faceIt (num_face_vertices sh) O)%nat).

Definition buildFaceTable (vertices : list Vec3) (shapes : list shape_t) : faceTable :=
  fold_left
    (fun tab sh =>
       fst (fold_left (addFace vertices sh)
                      (seq 0 (length (num_face_vertices sh))) (tab, O)))
    shapes (mkFaceTable [] [] [] [] []).

(** The group under construction: [boundingGroup], [facesInGroup] and
    [verticesInGroup]. *)
Record grouping : Type := mkGrouping {
  boundingGroup : halfEdge;
  facesInGroup : list nat;
  verticesInGroup : list Vec3
}.

Definition addToGroup (vertices : list Vec3) (tab : faceTable) (g : grouping)
  (face : nat) : grouping :=
  let h := boundingGroup g in
  let tri := nth face (allFaces tab) [] in
  mkGrouping
    (mkHalfEdge (faceNormals h ++ [nth face (allNormals tab) vzero])
                (faceTriangles h ++ [tri])
                (faceCentroids h ++ [nth face (allCentroids tab) vzero])
                (faceBoundingBoxes h ++ [nth face (allBoundingBoxes tab) vzero])
                (faceBoundingRadius h) (edgeIndices h) (faceIndices h)
                (centroid h) (uniqueVertIndices h) (boundingBox h))
    (facesInGroup g ++ [face])
    (verticesInGroup g
     ++ map (fun ii => nth (nth ii tri O) vertices vzero) [0; 1; 2]%nat).

(** "Find all the faces currently adjacent to this group". *)
Definition adjacentFaces (allConnections : list (list Z)) (inGroup : list nat)
  : list nat :=
  fold_left
    (fun adj face =>
       fold_left
         (fun adj jj =>
            let c := Z.to_nat (nth jj (connectionsOf allConnections face) 0%Z) in
            if negb (memNat c inGroup) && negb (memNat c adj) then adj ++ [c] else adj)
         [0; 1; 2]%nat adj)
    inGroup [].

(** The largest distance between a vertex of the group and a corner of the
    adjacent face: [adjacentDistsToGroup[ii]]. *)
Definition distToGroup (vertices : list Vec3) (tab : faceTable)
  (inGroupVertices : list Vec3) (face : nat) : Q :=
  let tri := nth face (allFaces tab) [] in
  let indivMaxDists :=
    flat_map (fun jj =>
                map (fun v => vnorm (vsub v (nth (nth jj tri O) vertices vzero)))
                    inGroupVertices)
             [0; 1; 2]%nat in
  if Qltb 0 (max_element indivMaxDists) then max_element indivMaxDists else 0.

(** The [while (searchingForCloseFace)] loop.  [None]: the minimum of an
    empty list of distances is taken, which is undefined. *)
Fixpoint growGroup (fuel : nat) (maxBoundingBoxDim : Q) (vertices : list Vec3)
  (tab : faceTable) (allConnections : list (list Z))
  (g : grouping) (ungroupedFaces : list nat) : option (grouping * list nat) :=
  match fuel with
  | O => None
  | S fuel' =>
      let adjacentFacesToGroup := adjacentFaces allConnections (facesInGroup g) in
      let adjacentDistsToGroup :=
        map (distToGroup vertices tab (verticesInGroup g)) adjacentFacesToGroup in
      match adjacentDistsToGroup with
      | [] => None
      | _ =>
          if Qleb maxBoundingBoxDim (min_element adjacentDistsToGroup)
          then Some (g, ungroupedFaces)
          else
            let faceCounter := minIndex adjacentDistsToGroup in
            let face := nth faceCounter adjacentFacesToGroup O in
            let g := addToGroup vertices tab g face in
            let ungroupedFaces := removeAll face ungroupedFaces in
            match ungroupedFaces with
            | [] => Some (g, ungroupedFaces)
            | _ => growGroup fuel' maxBoundingBoxDim vertices tab allConnections
                             g ungroupedFaces
            end
      end
  end.

(** The [while (!ungroupedFaces.empty())] loop. *)
Fixpoint groupFaces (fuel : nat) (maxBoundingBoxDim : Q) (vertices : list Vec3)
  (tab : faceTable) (allConnections : list (list Z))
  (ungroupedFaces : list nat) (polyhedron : list halfEdge)
  : option (list halfEdge) :=
  match ungroupedFaces with
  | [] => Some polyhedron
  | seed :: rest =>
      match fuel with
      | O => None
      | S fuel' =>
          let g := addToGroup vertices tab (mkGrouping noHalfEdge [] []) seed in
          match growGroup (S (length (allFaces tab))) maxBoundingBoxDim vertices tab
                          allConnections g rest with
          | None => None
          | Some (g, ungroupedFaces) =>
              groupFaces fuel' maxBoundingBoxDim vertices tab allConnections
                         ungroupedFaces (polyhedron ++ [boundingGroup g])
          end
      end
  end.

(** The three directed edges of every face of a cluster, with the face and
    the cluster they come from: what one pass of the third loop appends to
    [edgeIndices], [faceIndices] and [shapeIndices]. *)
Definition clusterEdges (shapeIt : nat) (cluster : halfEdge)
  : list (list nat * nat * nat) :=
  flat_map
    (fun faceIt =>
       let tri := nth faceIt (faceTriangles cluster) [] in
       [ ([nth 0 tri O; nth 1 tri O], faceIt, shapeIt);
         ([nth 1 tri O; nth 2 tri O], faceIt, shapeIt);
         ([nth 2 tri O; nth 0 tri O], faceIt, shapeIt) ])
    (seq 0 (length (faceTriangles cluster))).

(** The extreme coordinate of the hull points: the loop that starts from
    [start] and takes a point's coordinate when [better] says so. *)
Definition extreme (better : Q -> Q -> bool) (start : Q) (get : Vec3 -> Q)
  (pts : list Vec3) : Q :=
  fold_left (fun m p => if better (get p) m then get p else m) pts start.

(** The centroid and the half-extents of a cluster from its hull points. *)
Definition boxCentre (pts : list Vec3) : Vec3 :=
  let hi get := extreme (fun a m => Qltb m a) (- 1e15) get pts in
  let lo get := extreme (fun a m => Qltb a m) 1e15 get pts in
  mkVec3 ((hi vx + lo vx) / 2) ((hi vy + lo vy) / 2) ((hi vz + lo vz) / 2).

Definition halfExtent (minBoundingBoxDim : Q) (get : Vec3 -> Q) (centre : Vec3)
  (pts : list Vec3) : Q :=
  fold_left (fun m p => let a := Qabs (get (vsub p centre)) in
                        if Qltb m a then a else m)
            pts minBoundingBoxDim.

(** One pass of the third loop: the cluster with its centroid, half-extents
    and unique vertex indices, and the new [totalSet]. *)
Definition finishCluster (minBoundingBoxDim : Q) (vertices : list Vec3)
  (cluster : halfEdge) (totalSet : list nat) : halfEdge * list nat :=
  let corners := concat (faceTriangles cluster) in
  let distinct :=
    fold_left (fun seen i => if memNat i seen then seen else seen ++ [i]) corners [] in
  let inGroupVertices := map (fun i => nth i vertices vzero) distinct in
  let hull := findConvexHull inGroupVertices in
  let convHullPoints := match hull with [] => inGroupVertices | _ => hull end in
  let centre := boxCentre convHullPoints in
  let box := mkVec3 (halfExtent minBoundingBoxDim vx centre convHullPoints)
                    (halfExtent minBoundingBoxDim vy centre convHullPoints)
                    (halfExtent minBoundingBoxDim vz centre convHullPoints) in
  let uniqueSet := setOfList (uniqueVertIndices cluster ++ corners) in
  let newSet := setDifference uniqueSet totalSet in
  (mkHalfEdge (faceNormals cluster) (faceTriangles cluster) (faceCentroids cluster)
              (faceBoundingBoxes cluster) (faceBoundingRadius cluster)
              (edgeIndices cluster) (faceIndices cluster)
              centre newSet box,
   setUnion totalSet uniqueSet).

End Mesh.

(** Moving the element at [from] to position [to] ([to] <= [from]):
    [v.emplace(v.begin() + to, v[from]); v.erase(v.begin() + from + 1)]. *)
Definition moveTo {A : Type} (d : A) (l : list A) (from to : nat) : list A :=
  let x := nth from l d in
  erase (firstn to l ++ x :: skipn to l) (S from).

(** The inner loop of the pairing of duplicate edges: [searchIt] runs to
    the end of the list while [edgeIt] moves on at each match. *)
Fixpoint pairSearch (fuel : nat) (searchEdge : list nat)
  (edges : list (list nat * nat * nat)) (edgeIt searchIt : nat)
  : list (list nat * nat * nat) * nat :=
  match fuel with
  | O => (edges, edgeIt)
  | S fuel' =>
      if (searchIt <? length edges)%nat then
        if list_eq_dec Nat.eq_dec (fst (fst (nth searchIt edges ([], O, O)))) searchEdge
        then pairSearch fuel' searchEdge
                        (moveTo ([], O, O) edges searchIt (S edgeIt))
                        (S edgeIt) (S searchIt)
        else pairSearch fuel' searchEdge edges edgeIt (S searchIt)
      else (edges, edgeIt)
  end.

(** The outer loop of the pairing. *)
Fixpoint pairEdges (fuel : nat) (edges : list (list nat * nat * nat)) (edgeIt : nat)
  : list (list nat * nat * nat) :=
  match fuel with
  | O => edges
  | S fuel' =>
      if (edgeIt <? length edges)%nat then
        let e := fst (fst (nth edgeIt edges ([], O, O))) in
        let searchEdge := [nth 1 e O; nth 0 e O] in
        let (edges, edgeIt) :=
          pairSearch (length edges) searchEdge edges edgeIt (S edgeIt) in
        pairEdges fuel' edges (S edgeIt)
      else edges
  end.

(** "Save the non-duplicate edges": every second entry of the paired list
    goes to the cluster it came from, with the two faces of the entry and
    of its successor.  Reading the successor of the last entry of a list of
    odd length is outside the vector; the value read is taken to be 0. *)
Definition saveEdges (edges : list (list nat * nat * nat)) (polyhedron : list halfEdge)
  : list halfEdge :=
  fold_left
    (fun poly k =>
       let edgeIt := (2 * k)%nat in
       match nth edgeIt edges ([], O, O), nth (S edgeIt) edges ([], O, O) with
       | (edge, face, shp), (_, face', shp') =>
           update poly shp
                  (fun h =>
                     mkHalfEdge (faceNormals h) (faceTriangles h) (faceCentroids h)
                                (faceBoundingBoxes h) (faceBoundingRadius h)
                                (edgeIndices h ++ [edge])
                                (faceIndices h ++ [(face, shp', face')])
                                (centroid h) (uniqueVertIndices h) (boundingBox h))
       end)
    (seq 0 (Nat.div2 (S (length edges)))) polyhedron.

(** [ComputeHalfEdge].  [None] stands for the calls that do not return a
    cluster list: [allConnections.at(-1)] throws when a face is left with a
    free connection, and the minimum of no distance is undefined. *)
Definition ComputeHalfEdge {E : Extern} (maxBoundingBoxDim minBoundingBoxDim : Q)
  (vertices : list Vec3) (shapes : list shape_t) : option (list halfEdge) :=
  let tab := buildFaceTable vertices shapes in
  let faceCount := length (allFaces tab) in
  match fold_left (connectStep (allFaces tab)) (seq 0 faceCount)
                  (Some (repeat [-1; -1; -1]%Z faceCount, seq 0 faceCount)) with
  | None => None
  | Some (allConnections, _) =>
      let ungroupedFaces :=
        sortBy (fun f1 f2 => Qltb (nth f2 (faceMaxDist tab) 0) (nth f1 (faceMaxDist tab) 0))
               (seq 0 faceCount) in
      match groupFaces (S faceCount) maxBoundingBoxDim vertices tab allConnections
                       ungroupedFaces [] with
      | None => None
      | Some polyhedron =>
          let '(polyhedron, _, edges) :=
            fold_left
              (fun (acc : list halfEdge * list nat * list (list nat * nat * nat)) shapeIt =>
                 let '(done, totalSet, edges) := acc in
                 let (cluster, totalSet) :=
                   finishCluster minBoundingBoxDim vertices
                                 (nth shapeIt polyhedron noHalfEdge) totalSet in
                 (done ++ [cluster], totalSet, edges ++ clusterEdges shapeIt cluster))
              (seq 0 (length polyhedron)) ([], [], []) in
          Some (saveEdges (pairEdges (length edges) edges 0) polyhedron)
      end
  end.

(** ** Example inputs for [ComputeHalfEdge] and [computeForceTorque] *)

(** The unit cube, two triangles a side, wound counter-clockwise seen from
    outside. *)
Definition cubeVertices : list Vec3 :=
  [mkVec3 0 0 0; mkVec3 1 0 0; mkVec3 1 1 0; mkVec3 0 1 0;
   mkVec3 0 0 1; mkVec3 1 0 1; mkVec3 1 1 1; mkVec3 0 1 1].

Definition cubeShape : shape_t :=
  mkShape (repeat 3%nat 12)
          [0; 2; 1;  0; 3; 2;  4; 5; 6;  4; 6; 7;  0; 1; 5;  0; 5; 4;
           3; 7; 6;  3; 6; 2;  0; 4; 7;  0; 7; 3;  1; 2; 6;  1; 6; 5]%nat.

(** The clusters of the cube for [maxBoundingBoxDim] = 1.5 and
    [minBoundingBoxDim] = 0.005. *)
Definition cubeClusters : option (list halfEdge) :=
  Eval vm_compute in
    @ComputeHalfEdge exampleExtern (15#10) (5#1000) cubeVertices [cubeShape].

(** The number of times the edge between the vertices [a] and [b] is
    stored in the edge lists of the clusters, in either direction. *)
Definition sameEdge (e f : list nat) : bool :=
  if list_eq_dec Nat.eq_dec e f then true else false.

Definition timesStored (a b : nat) (clusters : list halfEdge) : nat :=
  length (filter (fun e => sameEdge e [a; b] || sameEdge e [b; a])
                 (flat_map edgeIndices clusters)).

(** A tetrahedron with its tip at the body origin. *)
Definition dartVertices : list Vec3 :=
  [mkVec3 0 0 0; mkVec3 2 0 1; mkVec3 2 2 1; mkVec3 0 2 1].
Definition dartShape : shape_t :=
  mkShape [3; 3; 3; 3]%nat [1; 2; 3;  0; 2; 1;  0; 3; 2;  0; 1; 3]%nat.

(** A tetrahedron with its top face in the plane z = 0. *)
Definition floorVertices : list Vec3 :=
  [mkVec3 (-2) (-2) 0; mkVec3 2 (-2) 0; mkVec3 0 2 0; mkVec3 0 0 (-1)].
Definition floorShape : shape_t :=
  mkShape [3; 3; 3; 3]%nat [0; 1; 2;  0; 3; 1;  1; 3; 2;  2; 3; 0]%nat.

Definition meshOf (vs : list Vec3) (sh : shape_t) : list halfEdge :=
  match @ComputeHalfEdge exampleExtern 10 (5#1000) vs [sh] with
  | Some p => p
  | None => []
  end.

Definition dartMesh : list halfEdge := Eval vm_compute in meshOf dartVertices dartShape.
Definition floorMesh : list halfEdge := Eval vm_compute in meshOf floorVertices floorShape.

(** A body at [r] with velocity [v], axes aligned with the inertial frame. *)
Definition bodyData (r v : Vec3) : dynamicData :=
  mkDynamicData r v vzero 1 midentity midentity vzero vzero vzero mzero
                vzero vzero midentity midentity midentity.

(** The dart, a spacecraft body at [r] that moves with velocity [v]; its
    future state is the one after 0.01 s. *)
Definition dartBody (r v : Vec3) : geometry :=
  Body.mk 3 (1#2) (1#10) dartVertices dartMesh (mkDetail (O, O) [])
          (bodyData r v) (bodyData (vadd r (vscale v (1#100))) v)
          false [] [] [] [].

(** The floor, a spacecraft body at rest at the origin, with the queue of
    impulses waiting for it. *)
Definition floorBody (forces torques : list Vec3) (times steps : list Q) : geometry :=
  Body.mk 3 (1#2) (1#10) floorVertices floorMesh (mkDetail (O, O) [])
          (bodyData vzero vzero) (bodyData vzero vzero)
          false forces torques times steps.

(** The dart 1 m above the floor at the start of a macro step at t = 0,
    after [CheckBoundingSphere] and [CheckBoundingBox]: the two bodies are
    close, no cluster pair is retained. *)
Definition apartScene : RigidBodyContactEffector :=
  Eval vm_compute in
    CheckBoundingBox
      (@CheckBoundingSphere exampleExtern
         (mkEffector 0 [] (-1) 1 false false 0 0 true 0 0 false
                     [dartBody (mkVec3 0 0 1) (mkVec3 0 0 (-1)); floorBody [] [] [] []]
                     2 0 (1#1000) 0 (1#100) (1#1000) 10 (5#1000) 1
                     (1#1000) (1#1000000000) vzero vzero vzero)).

(** Later in a macro step that began at t = 0.49: it is the turn of the
    floor (body 1), whose queue holds the impulse that the dart's solve
    produced for the impact at t = 0.5 with step 0.01. *)
Definition lateScene : RigidBodyContactEffector :=
  mkEffector (49#100) [(0, 1)%nat] 1 100 false false 0 0 false (49#100) (1#100) false
             [dartBody (mkVec3 0 0 (1#100)) (mkVec3 0 0 (-1));
              floorBody [mkVec3 0 0 (-(3#2))] [vzero] [1#2] [1#100]]
             2 0 (1#1000) 0 (1#100) (1#1000) 10 (5#1000) 1
             (1#1000) (1#1000000000) vzero vzero vzero.

(** A tape for [std::rand()]: the first eighteen values of the generator
    of the GNU C library in its initial state, then zeros. *)
Definition exampleTape : Rng :=
  mkRng (fun n => nth n [1804289383; 846930886; 1681692777; 1714636915;
                         1957747793; 424238335; 719885386; 1649760492;
                         596516649; 1189641421; 1025202362; 1350490027;
                         783368690; 1102520059; 2044897763; 1967513926;
                         1365180540; 1540383426]%Z 0%Z)
        0.

(** ** Notions used by the properties *)



(** What a call does not write unless it queues or dequeues an impulse:
    the bodies, the list of close pairs and the configuration. *)
Definition givenData (s : RigidBodyContactEffector) :=
  (Bodies s, closeBodies s, currentSimSeconds s, numBodies s, currentBody s,
   (maxPosError s, slipTolerance s, simTimeStep s, collisionIntegrationStep s),
   (maxBoundingBoxDim s, minBoundingBoxDim s, boundingBoxFF s, maxTimeStep s,
    timeSynchTol s)).

(** The exits that answer with the step-rejection signal. *)
Definition rejects (e : exit) : bool :=
  match e with
  | RejectReplayA | OverPenetration | RejectReplayB | LateB => true
  | _ => false
  end.

(** The exits of the no-contact and of the step-rejection paths. *)
Definition errorExit (e : exit) : bool :=
  match e with
  | NoContact => true
  | _ => rejects e
  end.

(** The step-rejection values made of the next six draws of a generator. *)
Definition rejectionForce (g : Rng) (timeStep : Q) : Vec3 :=
  mkVec3 (rejectionValue (tape g (drawn g)) timeStep)
         (rejectionValue (tape g (1 + drawn g)) timeStep)
         (rejectionValue (tape g (2 + drawn g)) timeStep).

Definition rejectionTorque (g : Rng) (timeStep : Q) : Vec3 :=
  mkVec3 (rejectionValue (tape g (3 + drawn g)) timeStep)
         (rejectionValue (tape g (4 + drawn g)) timeStep)
         (rejectionValue (tape g (5 + drawn g)) timeStep).

Definition advance (g : Rng) (n : nat) : Rng := mkRng (tape g) (n + drawn g).

(** The two calls of [lateScene] at t = 0.497 with step 0.01: the first
    finds the impulse queued for t = 0.5 out of reach of the step and
    rejects it, the second is its replay. *)
Definition firstCall : exit * RigidBodyContactEffector * Rng :=
  Eval vm_compute in
    @computeForceTorque exampleExtern lateScene exampleTape (497#1000) (1#100).

Definition secondCall : exit * RigidBodyContactEffector * Rng :=
  Eval vm_compute in
    @computeForceTorque exampleExtern (snd (fst firstCall)) (snd firstCall)
                        (497#1000) (1#100).

(** The half-extents of a cluster are at least [m] on the three axes. *)
Definition boxAtLeast (m : Q) (h : halfEdge) : Prop :=
  m <= vx (boundingBox h) /\ m <= vy (boundingBox h) /\ m <= vz (boundingBox h).


(** ** The constructor, [Reset] and the two loaders *)

(** The constructor sets seven members and leaves the two vectors empty;
    the other members keep what the memory holds, here the members of
    [raw]. *)
Definition construct (raw : RigidBodyContactEffector) : RigidBodyContactEffector :=
  mkEffector (currentSimSeconds raw) [] (-1) (currentMinError raw)
    (responseFound raw) (lockedToRand raw) (timeFound raw) (integrateTimeStep raw)
    true (topTime raw) (topTimeStep raw) (secondInter raw) [] 0 (currentBody raw)
    (maxPosError raw) (slipTolerance raw) (simTimeStep raw)
    (collisionIntegrationStep raw) (maxBoundingBoxDim raw) (5#1000) 1 (1#1000)
    (1#1000000000) (forceExternal_N raw) (forceExternal_B raw)
    (torqueExternalPntB_B raw).

(** [Reset()]. *)
Definition Reset (s : RigidBodyContactEffector) : RigidBodyContactEffector :=
  set_cycle (set_outputs s vzero vzero vzero) (-1) (newMacroTimeStep s)
            (topTime s) (topTimeStep s) (secondInter s).

(** "Organize the vertices into a useful format": [attrib.vertices] holds
    three numbers a vertex; [vertIt] runs below [size / 3]. *)
Definition organizeVertices (attribVertices : list Q) : list Vec3 :=
  map (fun vertIt => mkVec3 (nth (3 * vertIt + 0) attribVertices 0)
                            (nth (3 * vertIt + 1) attribVertices 0)
                            (nth (3 * vertIt + 2) attribVertices 0))
      (seq 0 (length attribVertices / 3)).

(** [Bodies.push_back(body); numBodies++]. *)
Definition pushBody (s : RigidBodyContactEffector) (b : geometry)
  : RigidBodyContactEffector :=
  mkEffector (currentSimSeconds s) (closeBodies s) (currentBodyInCycle s)
    (currentMinError s) (responseFound s) (lockedToRand s) (timeFound s)
    (integrateTimeStep s) (newMacroTimeStep s) (topTime s) (topTimeStep s)
    (secondInter s) (Bodies s ++ [b]) (numBodies s + 1) (currentBody s)
    (maxPosError s) (slipTolerance s) (simTimeStep s)
    (collisionIntegrationStep s) (maxBoundingBoxDim s) (minBoundingBoxDim s)
    (boundingBoxFF s) (maxTimeStep s) (timeSynchTol s)
    (forceExternal_N s) (forceExternal_B s) (torqueExternalPntB_B s).

(** The common text of the two loaders.  [attribVertices] and [shapes] are
    what [tinyobj::LoadObj] read from the file.  The loader leaves [states]
    and [futureStates] of the new body unset; they are zero here.  [None]:
    [ComputeHalfEdge] does not return, and no body is appended. *)
Definition loadBody {E : Extern} (s : RigidBodyContactEffector) (spice : bool)
  (attribVertices : list Q) (shapes : list shape_t)
  (boundingRadius coefRestitution coefFriction : Q)
  : option RigidBodyContactEffector :=
  let vertices := organizeVertices attribVertices in
  match ComputeHalfEdge (maxBoundingBoxDim s) (minBoundingBoxDim s) vertices shapes with
  | None => None
  | Some polyhedron =>
      Some (pushBody s
              (Body.mk boundingRadius coefRestitution coefFriction vertices polyhedron
                       (mkDetail (O, O) []) zeroData zeroData spice [] [] [] []))
  end.

(** [LoadSpacecraftBody] and [AddSpiceBody]. *)
Definition LoadSpacecraftBody {E : Extern} (s : RigidBodyContactEffector)
  (attribVertices : list Q) (shapes : list shape_t)
  (boundingRadius coefRestitution coefFriction : Q) : option RigidBodyContactEffector :=
  loadBody s false attribVertices shapes boundingRadius coefRestitution coefFriction.

Definition AddSpiceBody {E : Extern} (s : RigidBodyContactEffector)
  (attribVertices : list Q) (shapes : list shape_t)
  (boundingRadius coefRestitution coefFriction : Q) : option RigidBodyContactEffector :=
  loadBody s true attribVertices shapes boundingRadius coefRestitution coefFriction.

(** One call of a loader: its arguments. *)
Record loadCall : Type := mkLoadCall {
  asSpice : bool;
  attribVertices : list Q;
  shapes : list shape_t;
  boundingRadiusArg : Q;
  coefRestitutionArg : Q;
  coefFrictionArg : Q
}.

Definition runLoad {E : Extern} (s : RigidBodyContactEffector) (c : loadCall)
  : option RigidBodyContactEffector :=
  if asSpice c
  then AddSpiceBody s (attribVertices c) (shapes c) (boundingRadiusArg c)
                    (coefRestitutionArg c) (coefFrictionArg c)
  else LoadSpacecraftBody s (attribVertices c) (shapes c) (boundingRadiusArg c)
                          (coefRestitutionArg c) (coefFrictionArg c).

(** A sequence of loader calls, until one does not return. *)
Fixpoint runLoads {E : Extern} (s : RigidBodyContactEffector) (calls : list loadCall)
  : option RigidBodyContactEffector :=
  match calls with
  | [] => Some s
  | c :: rest =>
      match runLoad s c with
      | Some s' => runLoads s' rest
      | None => None
      end
  end.

(** ** [UpdateState], [ReadInputs] and [ExtractFromBuffer] *)

(** The fields that [ExtractFromBuffer] reads of the three message
    payloads. *)
Module SCStates.
Record payload : Type := mk {
  r_BN_N : Vec3;
  v_BN_N : Vec3;
  sigma_BN : Vec3;
  omega_BN_B : Vec3;
  omegaDot_BN_B : Vec3;
  nonConservativeAccelpntB_B : Vec3
}.
End SCStates.

Module SCMassProps.
Record payload : Type := mk {
  massSC : Q;
  c_B : Vec3;
  ISC_PntB_B : Mat3
}.
End SCMassProps.

Module SpicePlanetState.
Record payload : Type := mk {
  PositionVector : Vec3;
  VelocityVector : Vec3;
  J20002Pfix : Mat3;
  J20002Pfix_dot : Mat3
}.
End SpicePlanetState.

(** The three message buffers of a body ([plMsg], [stateInBuffer],
    [massStateInBuffer]); they are kept in a list beside the effector, one
    entry a body. *)
Record bodyBuffers : Type := mkBuffers {
  plMsg : SpicePlanetState.payload;
  stateInBuffer : SCStates.payload;
  massStateInBuffer : SCMassProps.payload
}.

Definition noBuffers : bodyBuffers :=
  mkBuffers (SpicePlanetState.mk vzero vzero mzero mzero)
            (SCStates.mk vzero vzero vzero vzero vzero vzero)
            (SCMassProps.mk 0 vzero mzero).

(** What [ExtractFromBuffer] calls beside the operations of [Extern]:
    [eigenC2MRP] of [avsEigenSupport.h] and [inverse()] of Eigen. *)
Class ExternInputs : Type := {
  eigenC2MRP : Mat3 -> Vec3;
  inverse : Mat3 -> Mat3
}.

Definition set_states (b : geometry) (st : dynamicData) : geometry :=
  Body.mk (Body.boundingRadius b) (Body.coefRestitution b) (Body.coefFriction b)
          (Body.vertices b) (Body.polyhedron b) (Body.coarseSearchList b)
          st (Body.futureStates b) (Body.isSpice b)
          (Body.forceExternal_N b) (Body.torqueExternalPntB_B b)
          (Body.impactTimes b) (Body.impactTimeSteps b).

Definition set_futureStates (b : geometry) (st : dynamicData) : geometry :=
  Body.mk (Body.boundingRadius b) (Body.coefRestitution b) (Body.coefFriction b)
          (Body.vertices b) (Body.polyhedron b) (Body.coarseSearchList b)
          (Body.states b) st (Body.isSpice b)
          (Body.forceExternal_N b) (Body.torqueExternalPntB_B b)
          (Body.impactTimes b) (Body.impactTimeSteps b).

(** [ReadInputs]: [inbox] holds, for each body, what its message readers
    return at this call; [bodyIt] runs below [numBodies]. *)
Definition ReadInputs (s : RigidBodyContactEffector) (buffers inbox : list bodyBuffers)
  : list bodyBuffers :=
  fold_left
    (fun buffers bodyIt =>
       let msg := nth bodyIt inbox noBuffers in
       if Body.isSpice (body s bodyIt)
       then update buffers bodyIt
                   (fun b => mkBuffers (plMsg msg) (stateInBuffer b) (massStateInBuffer b))
       else update buffers bodyIt
                   (fun b => mkBuffers (plMsg b) (stateInBuffer msg)
                                       (massStateInBuffer msg)))
    (seq 0 (Z.to_nat (numBodies s))) buffers.

(** The two branches of [ExtractFromBuffer]: the new [states] of a body. *)
Definition extractSpice {I : ExternInputs} (st : dynamicData)
  (msg : SpicePlanetState.payload) : dynamicData :=
  let dcm := SpicePlanetState.J20002Pfix msg in
  let dcm_BN_dot := SpicePlanetState.J20002Pfix_dot msg in
  mkDynamicData (SpicePlanetState.PositionVector msg)
                (SpicePlanetState.VelocityVector msg)
                (nonConservativeAccelpntB_B st) (m_SC st) (ISCPntB_B st)
                (ISCPntB_B_inv st) (c_B st) (omega_BN_B st) (omegaDot_BN_B st)
                (mmul (mneg dcm_BN_dot) (mtranspose dcm))
                (eigenC2MRP dcm) (sigma_BprimeB st) (dcm_BprimeB st)
                dcm (mtranspose dcm).

Definition extractSpacecraft {E : Extern} {I : ExternInputs} (st : dynamicData)
  (state : SCStates.payload) (mass : SCMassProps.payload) : dynamicData :=
  let dcmNB := toRotationMatrix (SCStates.sigma_BN state) in
  mkDynamicData (SCStates.r_BN_N state) (SCStates.v_BN_N state)
                (SCStates.nonConservativeAccelpntB_B state)
                (SCMassProps.massSC mass)
                (SCMassProps.ISC_PntB_B mass) (inverse (SCMassProps.ISC_PntB_B mass))
                (SCMassProps.c_B mass)
                (SCStates.omega_BN_B state) (SCStates.omegaDot_BN_B state)
                (eigenTilde (SCStates.omega_BN_B state))
                (SCStates.sigma_BN state) (sigma_BprimeB st) (dcm_BprimeB st)
                (mtranspose dcmNB) dcmNB.

(** [ExtractFromBuffer]: [bodyIt] runs below [Bodies.size()]. *)
Definition ExtractFromBuffer {E : Extern} {I : ExternInputs}
  (s : RigidBodyContactEffector) (buffers : list bodyBuffers)
  : RigidBodyContactEffector :=
  set_Bodies s
    (fold_left
       (fun bodies bodyIt =>
          let buf := nth bodyIt buffers noBuffers in
          update bodies bodyIt
                 (fun b =>
                    if Body.isSpice b
                    then set_states b (extractSpice (Body.states b) (plMsg buf))
                    else set_states b (extractSpacecraft (Body.states b)
                                                         (stateInBuffer buf)
                                                         (massStateInBuffer buf))))
       (seq 0 (length (Bodies s))) (Bodies s)).

(** The body of the loop of [UpdateState]: the four queues are cleared and
    the state at the end of the step is predicted. *)
Definition futureOf {E : Extern} (simTimeStep : Q) (b : geometry) : dynamicData :=
  let st := Body.states b in
  let fs := Body.futureStates b in
  if Body.isSpice b then
    let dcm := madd (mscale (mmul (mneg (omegaTilde_BN_B st)) (dcm_BN st)) simTimeStep)
                    (dcm_BN st) in
    mkDynamicData (vadd (r_BN_N st) (vscale (v_BN_N st) simTimeStep))
                  (v_BN_N fs) (nonConservativeAccelpntB_B fs) (m_SC fs)
                  (ISCPntB_B fs) (ISCPntB_B_inv fs) (c_B fs) (omega_BN_B fs)
                  (omegaDot_BN_B fs) (omegaTilde_BN_B fs) (sigma_BN fs)
                  (sigma_BprimeB fs) (dcm_BprimeB fs) dcm (mtranspose dcm)
  else
    let r := vadd (vadd (r_BN_N st) (vscale (v_BN_N st) simTimeStep))
                  (mmulv (dcm_NB st)
                         (vscale (vscale (nonConservativeAccelpntB_B st) simTimeStep)
                                 simTimeStep)) in
    let sigma :=
      vadd (vscale (mmulv (mscale (Bmat (sigma_BN st)) (25#100))
                          (vadd (omega_BN_B st)
                                (vscale (omegaDot_BN_B st) simTimeStep)))
                   simTimeStep)
           (sigma_BN st) in
    let dcmNB := toRotationMatrix sigma in
    mkDynamicData r (v_BN_N fs) (nonConservativeAccelpntB_B fs) (m_SC fs)
                  (ISCPntB_B fs) (ISCPntB_B_inv fs) (c_B fs) (omega_BN_B fs)
                  (omegaDot_BN_B fs) (omegaTilde_BN_B fs) sigma
                  (sigma_BprimeB fs) (dcm_BprimeB fs) (mtranspose dcmNB) dcmNB.

Definition startStep {E : Extern} (simTimeStep : Q) (b : geometry) : geometry :=
  set_futureStates (Body.set_queues b [] [] [] []) (futureOf simTimeStep b).

(** [NANO2SEC] of [macroDefinitions.h]. *)
Definition NANO2SEC : Q := 1e-9.

(** The six assignments at the head of [UpdateState]. *)
Definition set_macroStep (s : RigidBodyContactEffector) (seconds : Q)
  : RigidBodyContactEffector :=
  mkEffector seconds (closeBodies s) (-1) 1 false false (timeFound s)
    (integrateTimeStep s) true (topTime s) (topTimeStep s) (secondInter s)
    (Bodies s) (numBodies s) (currentBody s) (maxPosError s) (slipTolerance s)
    (simTimeStep s) (collisionIntegrationStep s) (maxBoundingBoxDim s)
    (minBoundingBoxDim s) (boundingBoxFF s) (maxTimeStep s) (timeSynchTol s)
    (forceExternal_N s) (forceExternal_B s) (torqueExternalPntB_B s).

(** [UpdateState(CurrentSimNanos)]: the effector and the message buffers
    after the call. *)
Definition UpdateState {E : Extern} {I : ExternInputs}
  (s : RigidBodyContactEffector) (buffers inbox : list bodyBuffers)
  (CurrentSimNanos : N) : RigidBodyContactEffector * list bodyBuffers :=
  let s := set_macroStep s (inject_Z (Z.of_N CurrentSimNanos) * NANO2SEC) in
  let buffers := ReadInputs s buffers inbox in
  let s := ExtractFromBuffer s buffers in
  let s :=
    set_Bodies s
      (fold_left (fun bodies bodyIt => update bodies bodyIt (startStep (simTimeStep s)))
                 (seq 0 (Z.to_nat (numBodies s))) (Bodies s)) in
  let s := set_closeBodies s [] in
  (CheckBoundingBox (CheckBoundingSphere s), buffers).

(** ** Notions and example inputs used by the further properties *)

(** The buffers of a body after [ReadInputs] took the message [msg]. *)
Definition readInto (spice : bool) (old msg : bodyBuffers) : bodyBuffers :=
  if spice then mkBuffers (plMsg msg) (stateInBuffer old) (massStateInBuffer old)
  else mkBuffers (plMsg old) (stateInBuffer msg) (massStateInBuffer msg).

(** A body after [ExtractFromBuffer] read the buffers [buf]. *)
Definition extracted {E : Extern} {I : ExternInputs} (b : geometry) (buf : bodyBuffers)
  : geometry :=
  if Body.isSpice b
  then set_states b (extractSpice (Body.states b) (plMsg buf))
  else set_states b (extractSpacecraft (Body.states b) (stateInBuffer buf)
                                       (massStateInBuffer buf)).

(** The buffers from which [UpdateState] extracts the states of body [i]:
    the message of this call for a body below [numBodies], the buffers of
    an earlier call for the others. *)
Definition buffersUsed (s : RigidBodyContactEffector) (buffers inbox : list bodyBuffers)
  (i : nat) : bodyBuffers :=
  if (Z.of_nat i <? numBodies s)%Z && (i <? length buffers)%nat
  then readInto (Body.isSpice (body s i)) (nth i buffers noBuffers)
                (nth i inbox noBuffers)
  else nth i buffers noBuffers.

(** Body [i] after [UpdateState], but for its [coarseSearchList]. *)
Definition bodyAfterUpdate {E : Extern} {I : ExternInputs}
  (s : RigidBodyContactEffector) (buffers inbox : list bodyBuffers) (i : nat)
  : geometry :=
  let b := if (i <? length (Bodies s))%nat
           then extracted (body s i) (buffersUsed s buffers inbox i)
           else body s i in
  if (Z.of_nat i <? numBodies s)%Z && (i <? length (Bodies s))%nat
  then startStep (simTimeStep s) b else b.

(** The inverse of a 3 x 3 matrix by its cofactors, and the MRP of a
    rotation by less than half a turn; used by the closed examples only. *)
Definition det3 (m : Mat3) : Q := vdot (row0 m) (vcross (row1 m) (row2 m)).

Definition exampleInverse (m : Mat3) : Mat3 :=
  mscale (mtranspose (mkMat3 (vcross (row1 m) (row2 m))
                             (vcross (row2 m) (row0 m))
                             (vcross (row0 m) (row1 m))))
         (1 / det3 m).

Definition exampleC2MRP (m : Mat3) : Vec3 :=
  let b0 := exampleSqrt (1 + vx (row0 m) + vy (row1 m) + vz (row2 m)) / 2 in
  vdiv (mkVec3 (vz (row1 m) - vy (row2 m))
               (vx (row2 m) - vz (row0 m))
               (vy (row0 m) - vx (row1 m)))
       (4 * b0 * (1 + b0)).

Definition exampleInputs : ExternInputs := Build_ExternInputs exampleC2MRP exampleInverse.

(** The arguments of the two loader calls that build the scene of the
    dart and the floor, and the messages of the two bodies. *)
Definition exampleCalls : list loadCall :=
  [mkLoadCall false (flat_map vecOf dartVertices) [dartShape] 3 (1#2) (1#10);
   mkLoadCall false (flat_map vecOf floorVertices) [floorShape] 3 (1#2) (1#10)].

Definition loadedScene : RigidBodyContactEffector :=
  Eval vm_compute in
    match @runLoads exampleExtern (construct apartScene) exampleCalls with
    | Some s => s
    | None => construct apartScene
    end.

Definition messageOf (r v : Vec3) : bodyBuffers :=
  mkBuffers (SpicePlanetState.mk vzero vzero midentity mzero)
            (SCStates.mk r v vzero vzero vzero vzero)
            (SCMassProps.mk 1 vzero midentity).

Definition exampleInbox : list bodyBuffers :=
  [messageOf (mkVec3 0 0 1) (mkVec3 0 0 (-1)); messageOf vzero vzero].

(** A body with its [coarseSearchList] blanked: what [CheckBoundingBox]
    does not write. *)
Definition withoutList (b : geometry) : geometry :=
  Body.set_coarseSearchList b (mkDetail (O, O) []).

(** The interval of a vector that does not change over the step. *)
Definition pointInterval (a : Vec3) : vectorInterval := mkInterval a a.

(** The members that steer the cycle over the bodies, with the list of
    close pairs. *)
Definition cycleData (s : RigidBodyContactEffector) :=
  (closeBodies s, currentBodyInCycle s, newMacroTimeStep s,
   topTime s, topTimeStep s, secondInter s).

(** Every component of the vector lies between [lo] and [hi]. *)
Definition componentsWithin (lo hi : Q) (v : Vec3) : Prop :=
  (lo <= vx v <= hi) /\ (lo <= vy v <= hi) /\ (lo <= vz v <= hi).

(** The dart with its tip half a millimetre above the floor, moving down
    at 1 m/s, at the start of a macro step at t = 0; the cluster pair (0, 0)
    is listed for the close pair (0, 1). *)
Definition hitScene : RigidBodyContactEffector :=
  mkEffector 0 [(0, 1)%nat] (-1) 1 false false 0 0 true 0 0 false
             [Body.mk 3 (1#2) (1#10) dartVertices dartMesh
                      (mkDetail (0, 1)%nat [(0, 0)%nat])
                      (bodyData (mkVec3 0 0 (5#10000)) (mkVec3 0 0 (-1)))
                      (bodyData (mkVec3 0 0 (-(95#10000))) (mkVec3 0 0 (-1)))
                      false [] [] [] [];
              floorBody [] [] [] []]
             2 0 (1#1000) 0 (1#100) (1#1000) 10 (5#1000) 1
             (1#1000) (1#1000000000) vzero vzero vzero.

(** Two vectors with equal components. *)
Definition veq (a b : Vec3) : Prop := vx a == vx b /\ vy a == vy b /\ vz a == vz b.

(** The test of the cycle coordinator: the call is made at the time and
    with the step of the first call of the macro step. *)
Definition atTop (s : RigidBodyContactEffector) (currentTime timeStep : Q) : bool :=
  Qltb (Qabs (topTime s - currentTime)) 1e-15
  && Qltb (Qabs (topTimeStep s - timeStep)) 1e-15.

(** The list of the clusters of the cube. *)
Definition cubeClusterList : list halfEdge :=
  Eval vm_compute in match cubeClusters with Some p => p | None => [] end.

(** The call for the floor at the time and with the step of the queued
    impulse. *)
Definition synchCall : exit * RigidBodyContactEffector * Rng :=
  Eval vm_compute in
    @computeForceTorque exampleExtern lateScene exampleTape (1#2) (1#100).

(** The turn of the floor with nothing queued for it. *)
Definition waitingScene : RigidBodyContactEffector :=
  set_Bodies lateScene
             [dartBody (mkVec3 0 0 (1#100)) (mkVec3 0 0 (-1)); floorBody [] [] [] []].

(** [n] calls of [computeForceTorque] in a row at the same time and with
    the same step: the effector and the generator after them. *)
Fixpoint repeatedCalls {E : Extern} (n : nat) (s : RigidBodyContactEffector) (g : Rng)
  (currentTime timeStep : Q) : RigidBodyContactEffector * Rng :=
  match n with
  | O => (s, g)
  | S m =>
      match computeForceTorque s g currentTime timeStep with
      | (_, s', g') => repeatedCalls m s' g' currentTime timeStep
      end
  end.

(* ================================================================== *)
(** * Part II. Properties *)

(** ** Comparisons *)

Lemma Qltb_lt (x y : Q) : Qltb x y = true <-> x < y.
Proof.
  unfold Qltb. rewrite negb_true_iff.
  split; intro H.
  - apply Qnot_le_lt. intro L. apply Qle_bool_iff in L. congruence.
  - destruct (Qle_bool y x) eqn:E; [|reflexivity].
    apply Qle_bool_iff in E. exfalso. apply (Qlt_not_le _ _ H E).
Qed.

Lemma Qltb_ge (x y : Q) : Qltb x y = false <-> y <= x.
Proof.
  unfold Qltb. rewrite negb_false_iff. apply Qle_bool_iff.
Qed.

Lemma Qleb_le (x y : Q) : Qleb x y = true <-> x <= y.
Proof. apply Qle_bool_iff. Qed.

(** ** The interval kernel *)


Lemma min_from_le (l : list Q) : forall m, min_from m l <= m.
Proof.
  induction l as [|x r IH]; intro m; simpl.
  - apply Qle_refl.
  - destruct (Qltb x m) eqn:E.
    + apply Qltb_lt in E. eapply Qle_trans; [apply IH|]. apply Qlt_le_weak, E.
    + apply IH.
Qed.

Lemma min_from_In (l : list Q) : forall m x, In x l -> min_from m l <= x.
Proof.
  induction l as [|y r IH]; intros m x Hin; [destruct Hin|].
  destruct Hin as [->|Hin]; simpl.
  - destruct (Qltb x m) eqn:E.
    + apply min_from_le.
    + apply Qltb_ge in E. eapply Qle_trans; [apply min_from_le|exact E].
  - apply IH, Hin.
Qed.

Lemma min_element_le (l : list Q) (x : Q) : In x l -> min_element l <= x.
Proof.
  destruct l as [|y r]; [intros []|]. intros [->|Hin]; simpl.
  - apply min_from_le.
  - apply min_from_In, Hin.
Qed.

Lemma max_from_ge (l : list Q) : forall m, m <= max_from m l.
Proof.
  induction l as [|x r IH]; intro m; simpl.
  - apply Qle_refl.
  - destruct (Qltb m x) eqn:E.
    + apply Qltb_lt in E. eapply Qle_trans; [|apply IH]. apply Qlt_le_weak, E.
    + apply IH.
Qed.

Lemma max_from_In (l : list Q) : forall m x, In x l -> x <= max_from m l.
Proof.
  induction l as [|y r IH]; intros m x Hin; [destruct Hin|].
  destruct Hin as [->|Hin]; simpl.
  - destruct (Qltb m x) eqn:E.
    + apply max_from_ge.
    + apply Qltb_ge in E. eapply Qle_trans; [exact E|apply max_from_ge].
  - apply IH, Hin.
Qed.

Lemma max_element_ge (l : list Q) (x : Q) : In x l -> x <= max_element l.
Proof.
  destruct l as [|y r]; [intros []|]. intros [->|Hin]; simpl.
  - apply max_from_ge.
  - apply max_from_In, Hin.
Qed.

(** Scaling keeps a sample between the scaled end values. *)
Lemma between_scale (l u a k : Q) :
  between l u a -> between (l * k) (u * k) (a * k).
Proof.
  unfold between. intros [[H1 H2]|[H1 H2]];
    destruct (Qlt_le_dec k 0) as [Hk|Hk]; [right|left|left|right]; split; nra.
Qed.

(** A product of two samples is bounded by the end-point products. *)
Lemma products_bound (al au bl bu a b : Q) :
  between al au a -> between bl bu b ->
  min_element (products al au bl bu) <= a * b <= max_element (products al au bl bu).
Proof.
  intros Ha Hb.
  assert (L1 := min_element_le (products al au bl bu) (al * bl)).
  assert (L2 := min_element_le (products al au bl bu) (al * bu)).
  assert (L3 := min_element_le (products al au bl bu) (au * bl)).
  assert (L4 := min_element_le (products al au bl bu) (au * bu)).
  assert (U1 := max_element_ge (products al au bl bu) (al * bl)).
  assert (U2 := max_element_ge (products al au bl bu) (al * bu)).
  assert (U3 := max_element_ge (products al au bl bu) (au * bl)).
  assert (U4 := max_element_ge (products al au bl bu) (au * bu)).
  unfold products in *.
  specialize (L1 ltac:(simpl; tauto)). specialize (L2 ltac:(simpl; tauto)).
  specialize (L3 ltac:(simpl; tauto)). specialize (L4 ltac:(simpl; tauto)).
  specialize (U1 ltac:(simpl; tauto)). specialize (U2 ltac:(simpl; tauto)).
  specialize (U3 ltac:(simpl; tauto)). specialize (U4 ltac:(simpl; tauto)).
  set (m := min_element _) in *. set (M := max_element _) in *.
  clearbody m M.
  assert (Hab := between_scale _ _ _ b Ha).
  assert (Hl := between_scale _ _ _ al Hb).
  assert (Hu := between_scale _ _ _ au Hb).
  unfold between in Hab, Hl, Hu.
  assert (El1 : bl * al == al * bl) by ring.
  assert (El2 : bu * al == al * bu) by ring.
  assert (El3 : bl * au == au * bl) by ring.
  assert (El4 : bu * au == au * bu) by ring.
  assert (El5 : b * al == al * b) by ring.
  assert (El6 : b * au == au * b) by ring.
  rewrite El1, El2, El5 in Hl. rewrite El3, El4, El6 in Hu.
  set (p1 := al * bl) in *. set (p2 := al * bu) in *.
  set (p3 := au * bl) in *. set (p4 := au * bu) in *.
  set (q1 := al * b) in *. set (q2 := au * b) in *. set (ab := a * b) in *.
  clearbody p1 p2 p3 p4 q1 q2 ab.
  destruct Hab as [[? ?]|[? ?]]; destruct Hl as [[? ?]|[? ?]];
    destruct Hu as [[? ?]|[? ?]]; split; lra.
Qed.

(** X1.  The dot-product half of the kernel is sound: the scalar product of two
    samples lies in the interval returned by [IntervalDotProduct]. *)
Lemma IntervalDotProduct_sound (A B : vectorInterval) (a b : Vec3) :
  inInterval a A -> inInterval b B ->
  fst (IntervalDotProduct A B) <= vdot a b <= snd (IntervalDotProduct A B).
Proof.
  intros (Ax & Ay & Az) (Bx & By & Bz).
  cbv beta zeta iota delta [IntervalDotProduct vdot fst snd].
  destruct (products_bound _ _ _ _ _ _ Ax Bx).
  destruct (products_bound _ _ _ _ _ _ Ay By).
  destruct (products_bound _ _ _ _ _ _ Az Bz).
  split; lra.
Qed.

Lemma IntervalDotProduct_sound_witness :
  let A := mkInterval (mkVec3 0 1 (-2)) (mkVec3 1 0 3) in
  let B := mkInterval (mkVec3 (-1) 2 0) (mkVec3 4 (-1) 1) in
  let a := mkVec3 (1#2) (1#2) 0 in
  let b := mkVec3 3 0 (1#3) in
  inInterval a A /\ inInterval b B /\
  (fst (IntervalDotProduct A B) <= vdot a b <= snd (IntervalDotProduct A B)).
Proof.
  assert (HA : inInterval (mkVec3 (1#2) (1#2) 0)
                 (mkInterval (mkVec3 0 1 (-2)) (mkVec3 1 0 3))).
  { unfold inInterval, between; simpl. repeat split; try (left; split; lra);
      right; split; lra. }
  assert (HB : inInterval (mkVec3 3 0 (1#3))
                 (mkInterval (mkVec3 (-1) 2 0) (mkVec3 4 (-1) 1))).
  { unfold inInterval, between; simpl. repeat split; try (left; split; lra);
      right; split; lra. }
  split; [exact HA|]. split; [exact HB|].
  exact (IntervalDotProduct_sound _ _ _ _ HA HB).
Defined.

(** ** Claim C1 *)

(** C1 (the code departs from the claim).  The claim asks that every
    component of the cross product of two samples lie within the bounds
    returned by [IntervalCrossProduct].  At the intervals [A] = [B] =
    ((0,0,0), (0,1,1)) and the samples a = (0,1,0), b = (0,0,1) the function
    returns the first component bounds [0, 0], while the first component
    of a x b is 1: the two minima (and the two maxima) of the end-point
    products are subtracted from each other. *)
Theorem IntervalCrossProduct_excludes_sample :
  let A := mkInterval (mkVec3 0 0 0) (mkVec3 0 1 1) in
  let B := mkInterval (mkVec3 0 0 0) (mkVec3 0 1 1) in
  let a := mkVec3 0 1 0 in
  let b := mkVec3 0 0 1 in
  inInterval a A /\ inInterval b B /\
  vx (lower (IntervalCrossProduct A B)) = 0 /\
  vx (upper (IntervalCrossProduct A B)) = 0 /\
  vx (vcross a b) == 1 /\
  ~ between (vx (lower (IntervalCrossProduct A B)))
            (vx (upper (IntervalCrossProduct A B))) (vx (vcross a b)).
Proof.
  cbv zeta.
  split; [|split; [|split; [|split; [|split]]]].
  - unfold inInterval, between; simpl; repeat split; left; split; lra.
  - unfold inInterval, between; simpl; repeat split; left; split; lra.
  - vm_compute. reflexivity.
  - vm_compute. reflexivity.
  - vm_compute. reflexivity.
  - intros [[_ H]|[_ H]]; vm_compute in H; apply H; reflexivity.
Qed.

(** ** Lists *)

Lemma NoDup_map_pair {A B : Type} (a : A) (l : list B) :
  NoDup l -> NoDup (map (fun b => (a, b)) l).
Proof.
  induction 1 as [|x l Hx Hl IH]; simpl; constructor; [|exact IH].
  rewrite in_map_iff. intros (y & Hy & Hin). inversion Hy; subst. contradiction.
Qed.

Lemma NoDup_flat_map_fst {B : Type} (f : nat -> list (nat * B)) (l : list nat) :
  (forall i p, In p (f i) -> fst p = i) ->
  (forall i, NoDup (f i)) ->
  NoDup l -> NoDup (flat_map f l).
Proof.
  intros Hfst Hnd. induction 1 as [|i l Hi Hl IH]; simpl; [constructor|].
  specialize (Hnd i). revert Hnd.
  assert (Hsub : forall p, In p (f i) -> fst p = i) by (intros; eauto).
  induction (f i) as [|p r IHr]; intro Hnd; simpl; [exact IH|].
  inversion Hnd; subst. constructor.
  - rewrite in_app_iff. intros [Hin|Hin]; [contradiction|].
    apply in_flat_map in Hin. destruct Hin as (j & Hj & Hin).
    apply Hfst in Hin. rewrite (Hsub p (or_introl eq_refl)) in Hin. subst j.
    contradiction.
  - apply IHr; [|assumption]. intros q Hq. apply Hsub. right. exact Hq.
Qed.

(** ** Broad phase: claim C3 *)

Section BroadPhase.
Context {E : Extern}.

Lemma spheresClose_spec (s : RigidBodyContactEffector) (i j : nat) :
  spheresClose s i j = true <->
  let d := IntervalDotProduct (bodyDifference s i j) (bodyDifference s i j) in
  let radii := Body.boundingRadius (body s i) + Body.boundingRadius (body s j) in
  sqrt (Qabs (fst d)) < radii \/ sqrt (Qabs (snd d)) < radii.
Proof.
  unfold spheresClose. cbv zeta.
  rewrite orb_true_iff, !Qltb_lt. reflexivity.
Qed.

Lemma sphereRow_In (s : RigidBodyContactEffector) (i a b : nat) :
  In (a, b) (sphereRow s i) <->
  a = i /\ (i < b)%nat /\ (Z.of_nat b < numBodies s)%Z /\ spheresClose s i b = true.
Proof.
  unfold sphereRow. rewrite in_map_iff. split.
  - intros (x & Hx & Hin). inversion Hx; subst.
    apply filter_In in Hin. destruct Hin as [Hs Hc].
    apply in_seq in Hs. repeat split; try assumption; lia.
  - intros (-> & Hlt & Hn & Hc). exists b. split; [reflexivity|].
    apply filter_In. split; [|assumption]. apply in_seq. lia.
Qed.

(** The interval the code builds is the position difference r_i - r_j at
    the start of the step (lower end) and at its end (upper end). *)
Lemma positionDifference_code (s : RigidBodyContactEffector) (i j : nat) :
  bodyDifference s i j =
  mkInterval
    (mkVec3 (vx (r_BN_N (Body.states (body s i))) - vx (r_BN_N (Body.states (body s j))))
            (vy (r_BN_N (Body.states (body s i))) - vy (r_BN_N (Body.states (body s j))))
            (vz (r_BN_N (Body.states (body s i))) - vz (r_BN_N (Body.states (body s j)))))
    (mkVec3 (vx (r_BN_N (Body.futureStates (body s i)))
             - vx (r_BN_N (Body.futureStates (body s j))))
            (vy (r_BN_N (Body.futureStates (body s i)))
             - vy (r_BN_N (Body.futureStates (body s j))))
            (vz (r_BN_N (Body.futureStates (body s i)))
             - vz (r_BN_N (Body.futureStates (body s j))))).
Proof. unfold bodyDifference, vsub. reflexivity. Qed.

(** C3.  The pair (i, j), in this order, is in [closeBodies] after
    [CheckBoundingSphere] exactly when i < j are two bodies and the lower
    or the upper bound on the distance, the square root of the absolute
    value of an end of the interval dot product of the position difference
    with itself, is strictly below the sum of the two bounding radii.  The
    position difference is the interval from r_i - r_j at the start of the
    step ([states]) to r_i - r_j at its end ([futureStates]). *)
Theorem CheckBoundingSphere_accepts (s : RigidBodyContactEffector) (i j : nat) :
  In (i, j) (closeBodies (CheckBoundingSphere s)) <->
  (i < j)%nat /\ (Z.of_nat j < numBodies s)%Z /\
  let r_i := r_BN_N (Body.states (body s i)) in
  let r_j := r_BN_N (Body.states (body s j)) in
  let r_i' := r_BN_N (Body.futureStates (body s i)) in
  let r_j' := r_BN_N (Body.futureStates (body s j)) in
  let difference :=
    mkInterval (mkVec3 (vx r_i - vx r_j) (vy r_i - vy r_j) (vz r_i - vz r_j))
               (mkVec3 (vx r_i' - vx r_j') (vy r_i' - vy r_j') (vz r_i' - vz r_j')) in
  let d := IntervalDotProduct difference difference in
  let radii := Body.boundingRadius (body s i) + Body.boundingRadius (body s j) in
  (sqrt (Qabs (fst d)) < radii \/ sqrt (Qabs (snd d)) < radii).
Proof.
  cbv zeta. rewrite <- positionDifference_code, <- spheresClose_spec.
  unfold CheckBoundingSphere; simpl closeBodies.
  rewrite in_flat_map. split.
  - intros (x & _ & Hrow). apply sphereRow_In in Hrow.
    destruct Hrow as (Hx & H1 & H2 & H3). subst x. tauto.
  - intros (Hlt & Hn & Hc). exists i. split.
    + apply in_seq. lia.
    + apply sphereRow_In. tauto.
Qed.

(** Every accepted pair is appended once. *)
Lemma CheckBoundingSphere_NoDup (s : RigidBodyContactEffector) :
  NoDup (closeBodies (CheckBoundingSphere s)).
Proof.
  unfold CheckBoundingSphere; simpl closeBodies.
  apply NoDup_flat_map_fst.
  - intros i [a b] Hin. apply sphereRow_In in Hin. simpl. tauto.
  - intro i. unfold sphereRow. apply NoDup_map_pair, NoDup_filter, seq_NoDup.
  - apply seq_NoDup.
Qed.
End BroadPhase.

(** ** Mid phase: claim C2 *)




Lemma fifteenAxes_length (b1 b2 : geometry) : length (fifteenAxes b1 b2) = 15%nat.
Proof. reflexivity. Qed.






(** *** What the loop over [closeBodies] changes *)

Lemma update_length {A : Type} (f : A -> A) (l : list A) :
  forall i, length (update l i f) = length l.
Proof.
  induction l as [|x r IH]; intros [|i]; simpl; try reflexivity.
  now rewrite IH.
Qed.

Lemma nth_update_same {A : Type} (f : A -> A) (d : A) (l : list A) :
  forall i, (i < length l)%nat -> nth i (update l i f) d = f (nth i l d).
Proof.
  induction l as [|x r IH]; intros [|i] H; simpl in *; try lia; try reflexivity.
  apply IH. lia.
Qed.

Lemma nth_update_other {A : Type} (f : A -> A) (d : A) (l : list A) :
  forall i j, i <> j -> nth j (update l i f) d = nth j l d.
Proof.
  induction l as [|x r IH]; intros [|i] [|j] H; simpl; try reflexivity; try congruence.
  apply IH. congruence.
Qed.

















(** ** The impulse solver: claims C4, C5 and C6 *)

Lemma put_length (X : list Q) (i : nat) (v : Q) : length (put X i v) = length X.
Proof. apply update_length. Qed.

Lemma at_put_same (X : list Q) (i : nat) (v : Q) :
  (i < length X)%nat -> at_ (put X i v) i = v.
Proof. intro H. unfold at_, put. now rewrite nth_update_same. Qed.

Lemma at_put_other (X : list Q) (i j : nat) (v : Q) :
  i <> j -> at_ (put X i v) j = at_ X j.
Proof. intro H. unfold at_, put. now rewrite nth_update_other. Qed.

Lemma at_vecZero (n i : nat) : at_ (vecZero n) i = 0.
Proof.
  unfold at_, vecZero. revert i.
  induction n as [|n IH]; intros [|i]; simpl; try reflexivity. apply IH.
Qed.

Lemma vecZero_length (n : nat) : length (vecZero n) = n.
Proof. apply repeat_length. Qed.

Lemma at_putHead_beyond (X w : list Q) (n i : nat) :
  (n <= i)%nat -> at_ (putHead X n w) i = at_ X i.
Proof.
  intro H. unfold at_, putHead.
  rewrite app_nth2; rewrite length_map, length_seq; [|lia].
  rewrite nth_skipn. f_equal. lia.
Qed.

(** A fold of steps that leave entry [i] alone leaves entry [i] alone. *)
Lemma fold_left_at {A : Type} (step : list Q -> A -> list Q) (i : nat) (l : list A) :
  (forall X a, In a l -> at_ (step X a) i = at_ X i) ->
  forall X, at_ (fold_left step l X) i = at_ X i.
Proof.
  induction l as [|a l IH]; intros H X; simpl; [reflexivity|].
  rewrite IH.
  - apply H. left; reflexivity.
  - intros Y b Hb. apply H. right; exact Hb.
Qed.

Lemma fold_left_length {A : Type} (step : list Q -> A -> list Q) (l : list A) :
  (forall X a, length (step X a) = length X) ->
  forall X, length (fold_left step l X) = length X.
Proof.
  intro H. induction l as [|a l IH]; intro X; simpl; [reflexivity|].
  now rewrite IH, H.
Qed.

Lemma seq_split_at (n k : nat) :
  (k < n)%nat -> seq 0 n = seq 0 k ++ k :: seq (S k) (n - S k).
Proof.
  intro H. replace n with (k + (1 + (n - S k)))%nat at 1 by lia.
  rewrite seq_app, seq_app. simpl. now rewrite Nat.add_1_r.
Qed.

Section SolverFacts.
Context {E : Extern}.

Lemma derivativeStep_length (X_c : list Q) (K : nat) (e mu : Q) (Xdot : list Q) (j : nat) :
  length (derivativeStep X_c K e mu Xdot j) = length Xdot.
Proof.
  unfold derivativeStep.
  destruct (energyPending e X_c K j); destruct (Qltb (at_ X_c (j * 3 + 2)) 0);
    now rewrite ?put_length.
Qed.

(** Pass [j] of the loop writes nothing into the tangential entries of
    another contact. *)
Lemma derivativeStep_tangential_other (X_c : list Q) (K : nat) (e mu : Q)
  (Xdot : list Q) (j k c : nat) :
  j <> k -> (k < K)%nat -> (c < 3)%nat ->
  at_ (derivativeStep X_c K e mu Xdot j) (K * 3 + k * 3 + c)
  = at_ Xdot (K * 3 + k * 3 + c).
Proof.
  intros Hjk Hk Hc. unfold derivativeStep.
  destruct (energyPending e X_c K j); destruct (Qltb (at_ X_c (j * 3 + 2)) 0);
    rewrite ?at_put_other by lia; reflexivity.
Qed.

(** Pass [k] of the loop sets the two tangential entries of contact [k]
    when its energy condition is pending and leaves them otherwise. *)
Lemma derivativeStep_tangential (X_c : list Q) (K : nat) (e mu : Q)
  (Xdot : list Q) (k c : nat) :
  (k < K)%nat -> (K * 3 + k * 3 + 2 < length Xdot)%nat -> (c < 2)%nat ->
  at_ (derivativeStep X_c K e mu Xdot k) (K * 3 + k * 3 + c)
  = if energyPending e X_c K k
    then - mu * (if (c =? 0)%nat then cos else sin)
                  (atan2 (at_ X_c (k * 3 + 1)) (at_ X_c (k * 3)))
    else at_ Xdot (K * 3 + k * 3 + c).
Proof.
  intros Hk Hlen Hc. unfold derivativeStep.
  destruct c as [|[|c]]; [| |lia]; rewrite ?Nat.add_0_r; cbn [Nat.eqb];
    destruct (energyPending e X_c K k); destruct (Qltb (at_ X_c (k * 3 + 2)) 0);
    repeat (rewrite at_put_other by lia);
    try reflexivity;
    apply at_put_same; rewrite ?put_length; lia.
Qed.

Lemma CollisionStateDerivative_tangential (X_c : list Q) (impacts : list impact)
  (M_tot : list (list Q)) (e mu : Q) (k c : nat) :
  length X_c = (length impacts * 8)%nat -> (k < length impacts)%nat -> (c < 2)%nat ->
  at_ (CollisionStateDerivative X_c impacts M_tot e mu) (length impacts * 3 + k * 3 + c)
  = if energyPending e X_c (length impacts) k
    then - mu * (if (c =? 0)%nat then cos else sin)
                  (atan2 (at_ X_c (k * 3 + 1)) (at_ X_c (k * 3)))
    else 0.
Proof.
  intros Hlen Hk Hc. unfold CollisionStateDerivative. cbv zeta.
  set (K := length impacts) in *.
  rewrite at_putHead_beyond by lia.
  rewrite (seq_split_at K k Hk), fold_left_app. simpl fold_left.
  rewrite fold_left_at.
  2:{ intros X j Hj. apply in_seq in Hj.
      apply derivativeStep_tangential_other; lia. }
  rewrite derivativeStep_tangential; [| exact Hk |
    rewrite fold_left_length by (intros; apply derivativeStep_length);
    rewrite vecZero_length; lia | exact Hc].
  destruct (energyPending e X_c K k); [reflexivity|].
  rewrite fold_left_at.
  - apply at_vecZero.
  - intros X j Hj. apply in_seq in Hj.
    apply derivativeStep_tangential_other; lia.
Qed.

(** C4, as amended.  For every contact k the two tangential impulse
    rates are -mu cos(phi) and -mu sin(phi), phi = atan2(v_y, v_x), exactly
    while the energy condition of the contact is pending,
    W_r(k) < -e^2 W_c(k), whatever the sign of the normal velocity - so
    also while the contact is still closing - and they are zero once
    W_r(k) >= -e^2 W_c(k). *)
Theorem CollisionStateDerivative_friction (X_c : list Q) (impacts : list impact)
  (M_tot : list (list Q)) (coefRes coefFric : Q) (k : nat) :
  length X_c = (length impacts * 8)%nat -> (k < length impacts)%nat ->
  let K := length impacts in
  let W_c := at_ X_c (K * 6 + k * 2) in
  let W_r := at_ X_c (K * 6 + k * 2 + 1) in
  let phi := atan2 (at_ X_c (k * 3 + 1)) (at_ X_c (k * 3)) in
  let Xdot_c := CollisionStateDerivative X_c impacts M_tot coefRes coefFric in
  (W_r < - (coefRes ^ 2 * W_c) ->
   at_ Xdot_c (K * 3 + k * 3) = - coefFric * cos phi /\
   at_ Xdot_c (K * 3 + k * 3 + 1) = - coefFric * sin phi) /\
  (- (coefRes ^ 2 * W_c) <= W_r ->
   at_ Xdot_c (K * 3 + k * 3) = 0 /\ at_ Xdot_c (K * 3 + k * 3 + 1) = 0).
Proof.
  intros Hlen Hk K W_c W_r phi Xdot_c.
  assert (H0 := CollisionStateDerivative_tangential X_c impacts M_tot
                  coefRes coefFric k 0 Hlen Hk ltac:(lia)).
  assert (H1 := CollisionStateDerivative_tangential X_c impacts M_tot
                  coefRes coefFric k 1 Hlen Hk ltac:(lia)).
  rewrite Nat.add_0_r in H0. simpl Nat.eqb in H0, H1. cbv iota in H0, H1.
  fold K in H0, H1. fold Xdot_c in H0, H1. fold phi in H0, H1.
  unfold energyPending in H0, H1. fold W_c in H0, H1. fold W_r in H0, H1.
  split; intro Hw.
  - assert (Hp : Qltb W_r (- (1) * (coefRes ^ 2 * W_c)) = true)
      by (apply Qltb_lt; lra).
    rewrite Hp in H0, H1. split; assumption.
  - assert (Hp : Qltb W_r (- (1) * (coefRes ^ 2 * W_c)) = false)
      by (apply Qltb_ge; lra).
    rewrite Hp in H0, H1. split; assumption.
Qed.

End SolverFacts.

Lemma CollisionStateDerivative_friction_witness :
  let X_c := [4; 3; -(1); 0; 0; 0; -(1); -(1e-14)] in
  let Xdot_c :=
    @CollisionStateDerivative exampleExtern X_c slidingContact unitMass (1#2) (1#10) in
  at_ Xdot_c 3 = - (1#10) * exampleCos (exampleAtan2 3 4) /\
  at_ Xdot_c 4 = - (1#10) * exampleSin (exampleAtan2 3 4).
Proof.
  apply (proj1 (@CollisionStateDerivative_friction exampleExtern
                  [4; 3; -(1); 0; 0; 0; -(1); -(1e-14)] slidingContact unitMass
                  (1#2) (1#10) 0%nat eq_refl (Nat.lt_0_succ 0))).
  reflexivity.
Defined.

(** C4 as it is stated fails: in the state below the contact is closing
    (normal velocity -1 < 0) and compression work accumulates (its rate is
    the normal velocity), yet with mu = 1/10 and tangential velocity (4, 3)
    the tangential impulse rates are -mu 4/5 and -mu 3/5, not zero. *)
Lemma friction_acts_during_compression :
  let X_c := [4; 3; -(1); 0; 0; 0; -(1); -(1e-14)] in
  let Xdot_c :=
    @CollisionStateDerivative exampleExtern X_c slidingContact unitMass (1#2) (1#10) in
  at_ X_c 2 < 0 /\
  at_ Xdot_c 6 = at_ X_c 2 /\
  at_ Xdot_c 3 == - (8#100) /\
  at_ Xdot_c 4 == - (6#100) /\
  ~ at_ Xdot_c 3 == 0.
Proof.
  cbv zeta. split; [reflexivity|]. split; [vm_compute; reflexivity|].
  split; [vm_compute; reflexivity|]. split; [vm_compute; reflexivity|].
  vm_compute. discriminate.
Qed.

(** *** Seeding of the collision state *)

Lemma putSegment3_length (X : list Q) (i : nat) (v : Vec3) :
  length (putSegment3 X i v) = length X.
Proof. unfold putSegment3. now rewrite !put_length. Qed.

Lemma seedStep_length (dcm_CN : list Mat3) (impacts : list impact)
  (b1 b2 : dynamicData) (X : list Q) (j : nat) :
  length (seedStep dcm_CN impacts b1 b2 X j) = length X.
Proof.
  unfold seedStep. cbv zeta.
  destruct (Qltb _ 0); now rewrite put_length, putSegment3_length.
Qed.

Lemma at_putSegment3_other (X : list Q) (i j : nat) (v : Vec3) :
  (j < i \/ i + 2 < j)%nat -> at_ (putSegment3 X i v) j = at_ X j.
Proof.
  intro H. unfold putSegment3. now rewrite !at_put_other by lia.
Qed.

Lemma at_putSegment3_first (X : list Q) (i : nat) (v : Vec3) :
  (i < length X)%nat -> at_ (putSegment3 X i v) i = vx v.
Proof.
  intro H. unfold putSegment3. rewrite !at_put_other by lia.
  now apply at_put_same.
Qed.

(** Pass [j] of the seeding loop leaves the compression-work entries alone. *)
Lemma seedStep_compression (dcm_CN : list Mat3) (impacts : list impact)
  (b1 b2 : dynamicData) (X : list Q) (j k : nat) :
  (j < length impacts)%nat ->
  at_ (seedStep dcm_CN impacts b1 b2 X j) (length impacts * 6 + k * 2)
  = at_ X (length impacts * 6 + k * 2).
Proof.
  intro Hj. unfold seedStep. cbv zeta.
  destruct (Qltb _ 0); rewrite at_put_other by lia;
    apply at_putSegment3_other; lia.
Qed.

Lemma seedStep_restitution_other (dcm_CN : list Mat3) (impacts : list impact)
  (b1 b2 : dynamicData) (X : list Q) (j k : nat) :
  (j < length impacts)%nat -> j <> k ->
  at_ (seedStep dcm_CN impacts b1 b2 X j) (length impacts * 6 + k * 2 + 1)
  = at_ X (length impacts * 6 + k * 2 + 1).
Proof.
  intros Hj Hjk. unfold seedStep. cbv zeta.
  destruct (Qltb _ 0); rewrite at_put_other by lia;
    apply at_putSegment3_other; lia.
Qed.

Lemma seedStep_restitution (dcm_CN : list Mat3) (impacts : list impact)
  (b1 b2 : dynamicData) (X : list Q) (k : nat) :
  (k < length impacts)%nat -> length X = (length impacts * 8)%nat ->
  at_ (seedStep dcm_CN impacts b1 b2 X k) (length impacts * 6 + k * 2 + 1)
  = if Qltb (vx (contactFrameVelocity (nth k dcm_CN mzero) (nth k impacts noImpact)
                                      b1 b2)) 0
    then - 1e-14 else 1e-14.
Proof.
  intros Hk Hlen. unfold seedStep. cbv zeta.
  rewrite at_putSegment3_first by lia.
  destruct (Qltb _ 0); apply at_put_same; rewrite putSegment3_length; lia.
Qed.

(** What the seeding loop leaves in the two work entries of contact [k]:
    the sign of the perturbation is that of the first entry of the
    velocity block, [X_c(impNum * 3)]. *)
Lemma initialCollisionState_entries (dcm_CN : list Mat3) (impacts : list impact)
  (b1 b2 : dynamicData) (k : nat) :
  (k < length impacts)%nat ->
  let K := length impacts in
  let X_c := initialCollisionState dcm_CN impacts b1 b2 in
  at_ X_c (K * 6 + k * 2) = 0 /\
  at_ X_c (K * 6 + k * 2 + 1)
  = if Qltb (vx (contactFrameVelocity (nth k dcm_CN mzero) (nth k impacts noImpact)
                                      b1 b2)) 0
    then - 1e-14 else 1e-14.
Proof.
  intros Hk K X_c. unfold X_c, initialCollisionState. fold K. split.
  - rewrite fold_left_at; [apply at_vecZero|].
    intros X j Hj. apply in_seq in Hj. apply seedStep_compression. lia.
  - rewrite (seq_split_at K k Hk), fold_left_app. simpl fold_left.
    rewrite fold_left_at.
    + apply seedStep_restitution; [exact Hk|].
      rewrite fold_left_length by (intros; apply seedStep_length).
      apply vecZero_length.
    + intros X j Hj. apply in_seq in Hj.
      apply seedStep_restitution_other; lia.
Qed.

(** C5, as amended.  For every contact k only the restitution-work entry
    is seeded: X_c[6K+2k+1] is -1e-14 or +1e-14, and the compression-work
    entry X_c[6K+2k] is left at 0. *)
Theorem initialCollisionState_seeds (dcm_CN : list Mat3) (impacts : list impact)
  (body1Current body2Current : dynamicData) (k : nat) :
  (k < length impacts)%nat ->
  let K := length impacts in
  let X_c := initialCollisionState dcm_CN impacts body1Current body2Current in
  (at_ X_c (K * 6 + k * 2 + 1) = - 1e-14 \/ at_ X_c (K * 6 + k * 2 + 1) = 1e-14) /\
  at_ X_c (K * 6 + k * 2) = 0.
Proof.
  intros Hk K X_c.
  destruct (initialCollisionState_entries dcm_CN impacts body1Current body2Current
              k Hk) as [Hc Hr].
  fold K in Hc, Hr. fold X_c in Hc, Hr. split; [|exact Hc].
  rewrite Hr. destruct (Qltb _ 0); [left|right]; reflexivity.
Qed.

Lemma initialCollisionState_seeds_witness :
  (at_ slidingState 7 = - 1e-14 \/ at_ slidingState 7 = 1e-14) /\
  at_ slidingState 6 = 0.
Proof.
  exact (initialCollisionState_seeds [midentity] slidingContact
           (movingData (mkVec3 4 3 (-1))) (movingData vzero) 0 (Nat.lt_0_succ 0)).
Defined.

(** C5 as it is stated fails: the normal component of the initial relative
    velocity of the contact of [slidingState] is -1, negative, so both work
    entries should be -1e-14; the compression-work entry is 0 and the
    restitution-work entry is +1e-14. *)
Lemma seeding_not_by_normal_velocity :
  at_ slidingState 2 == - (1) /\
  at_ slidingState 6 = 0 /\
  at_ slidingState 7 = 1e-14 /\
  ~ at_ slidingState 6 == - 1e-14 /\
  ~ at_ slidingState 7 == - 1e-14.
Proof.
  split; [vm_compute; reflexivity|]. split; [vm_compute; reflexivity|].
  split; [vm_compute; reflexivity|]. split; vm_compute; discriminate.
Qed.

(** *** Termination of the integration loop *)

Section Integration.
Context {E : Extern}.
Variables (h : Q) (impacts : list impact) (M_tot : list (list Q)).
Variables (coefRes coefFric : Q).

Lemma energyMetAll_spec (X_c : list Q) :
  energyMetAll coefRes X_c (length impacts) = true <->
  forall k, (k < length impacts)%nat ->
    - (coefRes ^ 2 * at_ X_c (length impacts * 6 + k * 2))
    <= at_ X_c (length impacts * 6 + k * 2 + 1).
Proof.
  unfold energyMetAll. rewrite forallb_forall. split.
  - intros H k Hk. specialize (H k ltac:(apply in_seq; lia)).
    apply negb_true_iff in H. unfold energyPending in H.
    apply Qltb_ge in H. lra.
  - intros H k Hk. apply in_seq in Hk. apply negb_true_iff.
    unfold energyPending. apply Qltb_ge. specialize (H k ltac:(lia)). lra.
Qed.

(** With fuel for the passes that remain up to the cap, the loop returns;
    it has then made between one and [loopMax + 1 - currLoop] passes, the
    state it returns is the state after that many RK4 steps, and either
    the energy condition holds everywhere or the cap was exceeded. *)
Lemma integrateLoop_returns (fuel : nat) :
  forall (currLoop : Z) (X_c : list Q),
    (0 <= currLoop <= loopMax)%Z ->
    (Z.to_nat (loopMax + 1 - currLoop) <= fuel)%nat ->
    exists (n : Z) (X' : list Q),
      integrateLoop fuel h impacts M_tot coefRes coefFric currLoop X_c = Some (n, X') /\
      (currLoop < n <= loopMax + 1)%Z /\
      X' = Nat.iter (Z.to_nat (n - currLoop))
                    (rk4Step h impacts M_tot coefRes coefFric) X_c /\
      (energyMetAll coefRes X' (length impacts) = true \/ (loopMax < n)%Z).
Proof.
  induction fuel as [|fuel IH]; intros c X Hc Hfuel; [lia|].
  cbn [integrateLoop]. cbv zeta.
  set (X1 := rk4Step h impacts M_tot coefRes coefFric X).
  destruct (loopMax <? c + 1)%Z eqn:Hcap.
  - apply Z.ltb_lt in Hcap. exists (c + 1)%Z, X1.
    split; [reflexivity|]. split; [lia|]. split; [|right; exact Hcap].
    replace (Z.to_nat (c + 1 - c)) with 1%nat by lia. reflexivity.
  - apply Z.ltb_ge in Hcap.
    destruct (energyMetAll coefRes X1 (length impacts)) eqn:Hmet.
    + exists (c + 1)%Z, X1.
      split; [reflexivity|]. split; [lia|]. split; [|left; exact Hmet].
      replace (Z.to_nat (c + 1 - c)) with 1%nat by lia. reflexivity.
    + destruct (IH (c + 1)%Z X1 ltac:(lia) ltac:(lia)) as (n & X' & Hrun & Hn & HX & Hex).
      exists n, X'. split; [exact Hrun|]. split; [lia|]. split; [|exact Hex].
      rewrite HX. replace (Z.to_nat (n - c)) with (Z.to_nat (n - (c + 1)) + 1)%nat by lia.
      rewrite Nat.iter_add. reflexivity.
Qed.

(** C6.  The integration loop of [computeForceTorque] always terminates:
    it makes n passes with 1 <= n <= 10^9 + 1, returns the collision state
    reached by n RK4 steps, and at exit either every contact k satisfies
    W_r(k) >= -e^2 W_c(k) or the cap was reached (n = 10^9 + 1) and the
    current state is taken as it is. *)
Theorem integrateCollision_terminates (X_c : list Q) :
  exists (n : Z) (X' : list Q),
    integrateCollision h impacts M_tot coefRes coefFric X_c = Some (n, X') /\
    (1 <= n <= 1000000001)%Z /\
    X' = Nat.iter (Z.to_nat n) (rk4Step h impacts M_tot coefRes coefFric) X_c /\
    ((forall k, (k < length impacts)%nat ->
        - (coefRes ^ 2 * at_ X' (length impacts * 6 + k * 2))
        <= at_ X' (length impacts * 6 + k * 2 + 1))
     \/ n = 1000000001%Z).
Proof.
  unfold integrateCollision.
  destruct (integrateLoop_returns (Z.to_nat (loopMax + 1)) 0 X_c)
    as (n & X' & Hrun & Hn & HX & Hex).
  - unfold loopMax. lia.
  - rewrite Z.sub_0_r. apply Nat.le_refl.
  - exists n, X'. split; [exact Hrun|]. unfold loopMax in Hn.
    split; [lia|]. split; [now rewrite Z.sub_0_r in HX|].
    destruct Hex as [Hmet|Hcap].
    + left. apply energyMetAll_spec, Hmet.
    + right. unfold loopMax in Hcap. lia.
Qed.

End Integration.

(** ** [computeForceTorque]: claims C7, C8 and C10 *)

Lemma drawRejection_spec (s : RigidBodyContactEffector) (g : Rng) (timeStep : Q) :
  drawRejection s g timeStep
  = (set_outputs s (rejectionForce g timeStep) (forceExternal_B s)
                 (rejectionTorque g timeStep),
     advance g 6).
Proof. reflexivity. Qed.

Lemma prologue_outputs (s : RigidBodyContactEffector) (t dt : Q) :
  forceExternal_N (prologue s t dt) = vzero /\
  forceExternal_B (prologue s t dt) = vzero /\
  torqueExternalPntB_B (prologue s t dt) = vzero.
Proof.
  unfold prologue. cbv zeta.
  destruct (newMacroTimeStep _); cbn -[Qltb Qabs Qminus];
    destruct (_ && _); cbn; try (repeat split; reflexivity);
    destruct (secondInter s); cbn; repeat split; reflexivity.
Qed.

Lemma prologue_givenData (s : RigidBodyContactEffector) (t dt : Q) :
  givenData (prologue s t dt) = givenData s.
Proof.
  unfold prologue. cbv zeta.
  destruct (newMacroTimeStep _); cbn -[Qltb Qabs Qminus];
    destruct (_ && _); cbn; try reflexivity;
    destruct (secondInter s); cbn; reflexivity.
Qed.

Section ForceTorqueFacts.
Context {E : Extern}.

(** *** C7 *)

(** C7.  When the narrow phase runs for the current body pair (the pair
    is the first of [closeBodies] whose first body is the body of the
    cycle, and no response is memoised) and leaves an empty manifold, the
    call returns through the no-contact exit with the three output vectors
    zero, [lockedToRand] set, [timeFound = currentTime + timeStep + 1e-15]
    and [integrateTimeStep = timeStep]; no random number is drawn. *)
Theorem computeForceTorque_no_contact (s : RigidBodyContactEffector) (g : Rng)
  (currentTime timeStep : Q) (bodyPair : nat * nat) :
  let s0 := prologue s currentTime timeStep in
  find (fun p => (Z.of_nat (fst p) =? currentBodyInCycle s0)%Z) (closeBodies s0)
  = Some bodyPair ->
  responseFound s0 = false ->
  impacts (snd (manifold s0 bodyPair currentTime timeStep)) = [] ->
  exists s',
    computeForceTorque s g currentTime timeStep = (NoContact, s', g) /\
    forceExternal_N s' = vzero /\
    forceExternal_B s' = vzero /\
    torqueExternalPntB_B s' = vzero /\
    lockedToRand s' = true /\
    timeFound s' = currentTime + timeStep + 1e-15 /\
    integrateTimeStep s' = timeStep.
Proof.
  intros s0 Hfind Hresp Hempty.
  unfold computeForceTorque. fold s0. rewrite Hfind.
  unfold asBodyA. rewrite Hresp.
  destruct (manifold s0 bodyPair currentTime timeStep) as [[c1 c2] found].
  simpl in Hempty. rewrite Hempty. simpl.
  eexists. split; [reflexivity|].
  destruct (prologue_outputs s currentTime timeStep) as (H1 & H2 & H3).
  fold s0 in H1, H2, H3. simpl. repeat split; assumption.
Qed.

(** *** The step-rejection exits *)

(** The body-A part keeps the given data unless it solves, and draws six
    numbers exactly when it rejects the step. *)
Lemma asBodyA_frame (s : RigidBodyContactEffector) (g : Rng) (bodyPair : nat * nat)
  (t dt : Q) :
  match asBodyA s g bodyPair t dt with
  | (e, s', g') =>
      (e <> Solved -> givenData s' = givenData s) /\
      (rejects e = true ->
       forceExternal_N s' = rejectionForce g dt /\
       torqueExternalPntB_B s' = rejectionTorque g dt /\
       g' = advance g 6)
  end.
Proof.
  unfold asBodyA.
  destruct (responseFound s).
  - destruct (_ && _); simpl; split; try discriminate; reflexivity.
  - destruct (manifold s bodyPair t dt) as [[c1 c2] found].
    destruct (length (impacts found) =? 0)%nat.
    + simpl; split; [reflexivity|discriminate].
    + cbn -[Qltb Qabs Qminus drawRejection solveImpacts].
      destruct (lockedToRand s && _) eqn:Hl.
      * rewrite drawRejection_spec. simpl. split; [reflexivity|].
        intros _. repeat split.
      * destruct (Qltb _ (currentMaxError found)).
        -- rewrite drawRejection_spec. simpl. split; [|intros _; repeat split].
           intros _. destruct (lockedToRand s); reflexivity.
        -- split; [congruence|discriminate].
Qed.

(** The same for the body-B part, which also dequeues on one exit. *)
Lemma asBodyB_frame (bodyPairs : list (nat * nat)) (t dt : Q) :
  forall (s : RigidBodyContactEffector) (g : Rng),
    match asBodyB s g bodyPairs t dt with
    | (e, s', g') =>
        (e <> StaleB -> givenData s' = givenData s) /\
        (rejects e = true ->
         forceExternal_N s' = rejectionForce g dt /\
         torqueExternalPntB_B s' = rejectionTorque g dt /\
         g' = advance g 6)
    end.
Proof.
  induction bodyPairs as [|p rest IH]; intros s g.
  - simpl. split; [reflexivity|discriminate].
  - cbn [asBodyB].
    destruct (negb _); [apply IH|].
    cbv zeta.
    destruct (length _ =? 0)%nat; [split; [reflexivity|discriminate]|].
    destruct (responseFound s).
    + destruct (_ && _); split; try discriminate; try reflexivity; congruence.
    + destruct (lockedToRand s && _) eqn:Hl.
      * rewrite drawRejection_spec. split; [reflexivity|]. intros _. repeat split.
      * destruct (Qltb (Qabs (t - _)) _ && _).
        -- split; [|discriminate]. intros _.
           destruct (lockedToRand s); reflexivity.
        -- destruct (Qltb _ (t + dt)).
           ++ rewrite drawRejection_spec. split; [|intros _; repeat split].
              intros _. destruct (lockedToRand s); reflexivity.
           ++ specialize (IH (if lockedToRand s then set_lockedToRand s false else s) g).
              destruct (asBodyB _ g rest t dt) as [[e s'] g'].
              destruct IH as [IH1 IH2]. split; [|exact IH2].
              intro He. rewrite (IH1 He). destruct (lockedToRand s); reflexivity.
Qed.

(** A call that leaves through a step-rejection exit returns the values
    made of the next six draws of [std::rand()]. *)
Lemma rejection_outputs (s : RigidBodyContactEffector) (g : Rng) (t dt : Q) :
  match computeForceTorque s g t dt with
  | (e, s', g') =>
      rejects e = true ->
      forceExternal_N s' = rejectionForce g dt /\
      torqueExternalPntB_B s' = rejectionTorque g dt /\
      g' = advance g 6
  end.
Proof.
  unfold computeForceTorque.
  destruct (find _ _) as [p|].
  - pose proof (asBodyA_frame (prologue s t dt) g p t dt) as H.
    destruct (asBodyA _ g p t dt) as [[e s'] g']. apply H.
  - pose proof (asBodyB_frame (closeBodies (prologue s t dt)) t dt
                              (prologue s t dt) g) as H.
    destruct (asBodyB _ g _ t dt) as [[e s'] g']. apply H.
Qed.

(** *** C8 *)

(** C8, as amended.  When a call leaves through a step-rejection exit and
    the call repeated at the same (currentTime, timeStep) does so again,
    [forceExternal_N] and [torqueExternalPntB_B] of the second call are
    once more ((rand() % 1000) + 1000) / timeStep in each component, made
    of the six numbers that [std::rand()] yields after the six of the first
    call: the values of the first call are not stored. *)
Theorem replay_draws_afresh (s s1 s2 : RigidBodyContactEffector) (g g1 g2 : Rng)
  (currentTime timeStep : Q) (e1 e2 : exit) :
  computeForceTorque s g currentTime timeStep = (e1, s1, g1) ->
  computeForceTorque s1 g1 currentTime timeStep = (e2, s2, g2) ->
  rejects e1 = true -> rejects e2 = true ->
  forceExternal_N s1 = rejectionForce g timeStep /\
  torqueExternalPntB_B s1 = rejectionTorque g timeStep /\
  forceExternal_N s2 = rejectionForce (advance g 6) timeStep /\
  torqueExternalPntB_B s2 = rejectionTorque (advance g 6) timeStep /\
  g2 = advance g 12.
Proof.
  intros C1 C2 He1 He2.
  pose proof (rejection_outputs s g currentTime timeStep) as H1.
  rewrite C1 in H1. destruct (H1 He1) as (F1 & T1 & G1).
  pose proof (rejection_outputs s1 g1 currentTime timeStep) as H2.
  rewrite C2 in H2. destruct (H2 He2) as (F2 & T2 & G2).
  subst g1. repeat split; assumption.
Qed.

(** *** C10 *)

(** C10, as amended.  A call that leaves through the no-contact exit or
    through a step-rejection exit changes no body, nor the list of close
    pairs, nor the configuration: what it may change are the three output
    vectors, the latches [lockedToRand], [responseFound], [timeFound],
    [integrateTimeStep], the members of the cycle coordinator
    ([currentBodyInCycle], [secondInter], [newMacroTimeStep], [topTime],
    [topTimeStep]), [currentMinError] and the state of [std::rand()]. *)
Theorem error_exits_keep_given_data (s s' : RigidBodyContactEffector) (g g' : Rng)
  (currentTime timeStep : Q) (e : exit) :
  computeForceTorque s g currentTime timeStep = (e, s', g') ->
  errorExit e = true ->
  givenData s' = givenData s.
Proof.
  unfold computeForceTorque.
  destruct (find _ _) as [p|]; intros C He.
  - pose proof (asBodyA_frame (prologue s currentTime timeStep) g p
                              currentTime timeStep) as H.
    rewrite C in H. rewrite (proj1 H), prologue_givenData; [reflexivity|].
    intros ->. discriminate.
  - pose proof (asBodyB_frame (closeBodies (prologue s currentTime timeStep))
                              currentTime timeStep
                              (prologue s currentTime timeStep) g) as H.
    rewrite C in H. rewrite (proj1 H), prologue_givenData; [reflexivity|].
    intros ->. discriminate.
Qed.

End ForceTorqueFacts.

(** *** The calls of the examples *)

(** The dart one unit above the floor: the narrow phase runs for the pair
    (0, 1) and finds nothing. *)
Lemma computeForceTorque_no_contact_witness :
  exists s',
    @computeForceTorque exampleExtern apartScene exampleTape 0 (1#100)
    = (NoContact, s', exampleTape) /\
    forceExternal_N s' = vzero /\
    forceExternal_B s' = vzero /\
    torqueExternalPntB_B s' = vzero /\
    lockedToRand s' = true /\
    timeFound s' = 0 + (1#100) + 1e-15 /\
    integrateTimeStep s' = (1#100).
Proof.
  apply (@computeForceTorque_no_contact exampleExtern apartScene exampleTape
           0 (1#100) (0, 1)%nat); vm_compute; reflexivity.
Defined.

Lemma firstCall_eq :
  @computeForceTorque exampleExtern lateScene exampleTape (497#1000) (1#100)
  = (LateB, snd (fst firstCall), snd firstCall).
Proof. vm_compute. reflexivity. Qed.

Lemma secondCall_eq :
  @computeForceTorque exampleExtern (snd (fst firstCall)) (snd firstCall)
                      (497#1000) (1#100)
  = (RejectReplayB, snd (fst secondCall), snd secondCall).
Proof. vm_compute. reflexivity. Qed.

(** The replay of the rejected step of [lateScene] answers with the draws
    7 to 12 of the tape. *)
Lemma replay_draws_afresh_witness :
  forceExternal_N (snd (fst firstCall)) = rejectionForce exampleTape (1#100) /\
  torqueExternalPntB_B (snd (fst firstCall)) = rejectionTorque exampleTape (1#100) /\
  forceExternal_N (snd (fst secondCall))
  = rejectionForce (advance exampleTape 6) (1#100) /\
  torqueExternalPntB_B (snd (fst secondCall))
  = rejectionTorque (advance exampleTape 6) (1#100) /\
  snd secondCall = advance exampleTape 12.
Proof.
  exact (@replay_draws_afresh exampleExtern lateScene (snd (fst firstCall))
           (snd (fst secondCall)) exampleTape (snd firstCall) (snd secondCall)
           (497#1000) (1#100) LateB RejectReplayB
           firstCall_eq secondCall_eq eq_refl eq_refl).
Defined.

(** C8 as it is stated fails: the first call sets [lockedToRand] and
    returns the force (138300, 188600, 177700); the call repeated at the
    same (currentTime, timeStep) finds the marker set and returns
    (138600, 149200, 164900); repeated once more, with the marker set
    before and after, it returns (169000, 105900, 176300).  The torques
    differ likewise. *)
Lemma replay_returns_other_values :
  let call1 :=
    @computeForceTorque exampleExtern lateScene exampleTape (497#1000) (1#100) in
  let call2 :=
    @computeForceTorque exampleExtern (snd (fst call1)) (snd call1)
                        (497#1000) (1#100) in
  let call3 :=
    @computeForceTorque exampleExtern (snd (fst call2)) (snd call2)
                        (497#1000) (1#100) in
  fst (fst call1) = LateB /\
  fst (fst call2) = RejectReplayB /\
  fst (fst call3) = RejectReplayB /\
  lockedToRand (snd (fst call1)) = true /\
  lockedToRand (snd (fst call2)) = true /\
  lockedToRand (snd (fst call3)) = true /\
  forceExternal_N (snd (fst call1)) = mkVec3 138300 188600 177700 /\
  forceExternal_N (snd (fst call2)) = mkVec3 138600 149200 164900 /\
  forceExternal_N (snd (fst call3)) = mkVec3 169000 105900 176300 /\
  torqueExternalPntB_B (snd (fst call1)) = mkVec3 191500 179300 133500 /\
  torqueExternalPntB_B (snd (fst call2)) = mkVec3 142100 136200 102700 /\
  torqueExternalPntB_B (snd (fst call3)) = mkVec3 192600 154000 142600.
Proof. vm_compute. repeat split; reflexivity. Qed.

(** The rejected step of [lateScene] leaves the bodies, the close pairs
    and the configuration as they were. *)
Lemma error_exits_keep_given_data_witness :
  givenData (snd (fst firstCall)) = givenData lateScene.
Proof.
  exact (@error_exits_keep_given_data exampleExtern lateScene (snd (fst firstCall))
           exampleTape (snd firstCall) (497#1000) (1#100) LateB
           firstCall_eq eq_refl).
Defined.

(** C10 as it is stated fails: the call of [apartScene] takes the
    no-contact path, and beside the outputs and the four latches it moves
    the cycle on to body 0, sets [secondInter], clears [newMacroTimeStep],
    stores the step as [topTimeStep] and resets [currentMinError]. *)
Lemma no_contact_moves_the_cycle :
  let call :=
    @computeForceTorque exampleExtern apartScene exampleTape 0 (1#100) in
  fst (fst call) = NoContact /\
  currentBodyInCycle apartScene = (-1)%Z /\
  currentBodyInCycle (snd (fst call)) = 0%Z /\
  secondInter apartScene = false /\ secondInter (snd (fst call)) = true /\
  newMacroTimeStep apartScene = true /\
  newMacroTimeStep (snd (fst call)) = false /\
  topTimeStep apartScene = 0 /\ topTimeStep (snd (fst call)) = (1#100) /\
  currentMinError apartScene = 1 /\ currentMinError (snd (fst call)) = 100.
Proof. vm_compute. repeat split; reflexivity. Qed.

(** ** [ComputeHalfEdge]: claim C9 *)

(** C9 fails on the unit cube with [maxBoundingBoxDim] = 1.5 and
    [minBoundingBoxDim] = 0.005: ten clusters come back, together they hold
    twenty faces of the twelve and thirty edges of the eighteen, and the
    edge between the vertices 6 and 7 of the triangle (4, 6, 7) is stored
    three times, the edge between 0 and 1 twice. *)
Theorem ComputeHalfEdge_repeats_edges :
  let clusters :=
    @ComputeHalfEdge exampleExtern (15#10) (5#1000) cubeVertices [cubeShape] in
  option_map (@length halfEdge) clusters = Some 10%nat /\
  option_map (fun p => length (flat_map faceTriangles p)) clusters = Some 20%nat /\
  option_map (fun p => length (flat_map edgeIndices p)) clusters = Some 30%nat /\
  option_map (timesStored 6 7) clusters = Some 3%nat /\
  option_map (timesStored 0 1) clusters = Some 2%nat.
Proof. vm_compute. repeat split; reflexivity. Qed.


(** *** The part of C9 on the half-extents *)

Lemma halfExtent_ge (m : Q) (get : Vec3 -> Q) (centre : Vec3) (pts : list Vec3) :
  m <= halfExtent m get centre pts.
Proof.
  unfold halfExtent.
  assert (H : forall start, m <= start ->
            m <= fold_left (fun m p => let a := Qabs (get (vsub p centre)) in
                                       if Qltb m a then a else m) pts start).
  { induction pts as [|p r IH]; intros start Hs; simpl; [exact Hs|].
    apply IH. destruct (Qltb start _) eqn:Hlt; [|exact Hs].
    apply Qltb_lt in Hlt. lra. }
  apply H. lra.
Qed.

Lemma update_Forall {A : Type} (P : A -> Prop) (f : A -> A) (l : list A) :
  (forall x, P x -> P (f x)) ->
  forall i, Forall P l -> Forall P (update l i f).
Proof.
  intros Hf. induction l as [|x r IH]; intros [|i] H; simpl; try exact H;
    inversion H; subst; constructor; auto.
Qed.

Lemma saveEdges_boxAtLeast (m : Q) (edges : list (list nat * nat * nat))
  (polyhedron : list halfEdge) :
  Forall (boxAtLeast m) polyhedron ->
  Forall (boxAtLeast m) (saveEdges edges polyhedron).
Proof.
  unfold saveEdges. generalize (seq 0 (Nat.div2 (S (length edges)))) as ks.
  intros ks. revert polyhedron.
  induction ks as [|k ks IH]; intros poly H; cbn [fold_left]; [exact H|].
  apply IH.
  destruct (nth (2 * k) edges ([], O, O)) as [[edge face] shp].
  destruct (nth (S (2 * k)) edges ([], O, O)) as [[edge' face'] shp'].
  apply update_Forall; [|exact H].
  intros h Hh. exact Hh.
Qed.

Section MeshFacts.
Context {E : Extern}.

Lemma finishCluster_boxAtLeast (m : Q) (vertices : list Vec3) (cluster : halfEdge)
  (totalSet : list nat) :
  boxAtLeast m (fst (finishCluster m vertices cluster totalSet)).
Proof.
  unfold finishCluster, boxAtLeast. cbn [fst boundingBox vx vy vz].
  repeat split; apply halfExtent_ge.
Qed.

(** X20.  Every cluster that [ComputeHalfEdge] returns has half-extents of at
    least [minBoundingBoxDim] on the three axes. *)
Lemma ComputeHalfEdge_half_extents (maxBoundingBoxDim minBoundingBoxDim : Q)
  (vertices : list Vec3) (shapes : list shape_t) (clusters : list halfEdge) :
  ComputeHalfEdge maxBoundingBoxDim minBoundingBoxDim vertices shapes = Some clusters ->
  Forall (boxAtLeast minBoundingBoxDim) clusters.
Proof.
  unfold ComputeHalfEdge. cbv zeta.
  destruct (fold_left _ _ _) as [[allConnections rest]|]; [|discriminate].
  destruct (groupFaces _ _ _ _ _ _ _) as [polyhedron|]; [|discriminate].
  generalize (seq 0 (length polyhedron)) as ks. intros ks.
  assert (H : forall ks acc,
            Forall (boxAtLeast minBoundingBoxDim) (fst (fst acc)) ->
            Forall (boxAtLeast minBoundingBoxDim)
              (fst (fst (fold_left
                 (fun (acc : list halfEdge * list nat * list (list nat * nat * nat))
                      shapeIt =>
                    let '(done, totalSet, edges) := acc in
                    let (cluster, totalSet) :=
                      finishCluster minBoundingBoxDim vertices
                                    (nth shapeIt polyhedron noHalfEdge) totalSet in
                    (done ++ [cluster], totalSet, edges ++ clusterEdges shapeIt cluster))
                 ks acc)))).
  { clear ks. induction ks as [|k ks IH]; intros [[done totalSet] edges] Hacc;
      cbn [fold_left]; [exact Hacc|].
    apply IH.
    pose proof (finishCluster_boxAtLeast minBoundingBoxDim vertices
                  (nth k polyhedron noHalfEdge) totalSet) as Hc.
    destruct (finishCluster minBoundingBoxDim vertices
                (nth k polyhedron noHalfEdge) totalSet) as [cluster totalSet'].
    cbn [fst] in *. apply Forall_app. split; [exact Hacc|].
    constructor; [exact Hc|constructor]. }
  specialize (H ks ([], [], []) (Forall_nil _)).
  destruct (fold_left _ ks _) as [[done totalSet] edges].
  cbn [fst] in H. intros [= <-]. apply saveEdges_boxAtLeast, H.
Qed.

End MeshFacts.


(** *** The part of C9 on the vertex indices *)










Lemma map_update {A B : Type} (g : A -> B) (f : A -> A) (l : list A) :
  (forall x, g (f x) = g x) -> forall i, map g (update l i f) = map g l.
Proof.
  intro H. induction l as [|x r IH]; intros [|i]; simpl; try reflexivity.
  - now rewrite H.
  - now rewrite IH.
Qed.


Lemma insertSorted_In {A : Type} (comp : A -> A -> bool) (x y : A) (l : list A) :
  In y (insertSorted comp x l) <-> y = x \/ In y l.
Proof.
  induction l as [|z r IH]; simpl; [intuition|].
  destruct (comp z x); simpl; [rewrite IH|]; intuition.
Qed.

Lemma sortBy_In {A : Type} (comp : A -> A -> bool) (y : A) (l : list A) :
  In y (sortBy comp l) <-> In y l.
Proof.
  unfold sortBy. induction l as [|x r IH]; simpl; [intuition|].
  rewrite insertSorted_In, IH. intuition.
Qed.

Section GroupingFacts.
Context {E : Extern}.
Variables (maxBoundingBoxDim : Q) (vertices : list Vec3) (tab : faceTable).
Variable allConnections : list (list Z).



End GroupingFacts.

Section VertexFacts.
Context {E : Extern}.
Variables (minBoundingBoxDim : Q) (vertices : list Vec3).
Variable polyhedron : list halfEdge.



End VertexFacts.

Section UniqueVertices.
Context {E : Extern}.


End UniqueVertices.

(* ================================================================== *)
(** * Part III. Further properties of the code *)

(** ** The interval kernel and the separation test *)

Lemma min_element_same (p : Q) : min_element [p; p; p; p] = p.
Proof.
  assert (H : Qltb p p = false) by (apply Qltb_ge; lra).
  simpl. repeat (rewrite H; simpl). reflexivity.
Qed.

Lemma max_element_same (p : Q) : max_element [p; p; p; p] = p.
Proof.
  assert (H : Qltb p p = false) by (apply Qltb_ge; lra).
  simpl. repeat (rewrite H; simpl). reflexivity.
Qed.

(** X2.  On two intervals that are single points (vectors that do not
    change over the step) both kernels are exact: [IntervalDotProduct]
    returns the scalar product as both bounds and [IntervalCrossProduct]
    the cross product as both ends. *)
Theorem kernel_exact_on_points (a b : Vec3) :
  IntervalDotProduct (pointInterval a) (pointInterval b) = (vdot a b, vdot a b) /\
  IntervalCrossProduct (pointInterval a) (pointInterval b)
  = pointInterval (vcross a b).
Proof.
  unfold IntervalDotProduct, IntervalCrossProduct, pointInterval, products, vdot, vcross.
  cbn [lower upper]. cbv zeta.
  rewrite !min_element_same, !max_element_same. split; reflexivity.
Qed.

Lemma max_from_zero (l : list Q) :
  forall m, m == 0 -> (forall x, In x l -> x == 0) -> max_from m l == 0.
Proof.
  induction l as [|x r IH]; intros m Hm H; simpl; [exact Hm|].
  apply IH; [|intros y Hy; apply H; right; exact Hy].
  destruct (Qltb m x); [apply H; left; reflexivity|exact Hm].
Qed.

Lemma min_from_zero (l : list Q) :
  forall m, m == 0 -> (forall x, In x l -> x == 0) -> min_from m l == 0.
Proof.
  induction l as [|x r IH]; intros m Hm H; simpl; [exact Hm|].
  apply IH; [|intros y Hy; apply H; right; exact Hy].
  destruct (Qltb x m); [apply H; left; reflexivity|exact Hm].
Qed.

Lemma products_zero (bl bu x : Q) : In x (products 0 0 bl bu) -> x == 0.
Proof. unfold products. intros [<-|[<-|[<-|[<-|[]]]]]; ring. Qed.

Lemma maxAbsEnd_zero_axis (X : vectorInterval) :
  maxAbsEnd (IntervalDotProduct (pointInterval vzero) X) == 0.
Proof.
  assert (Hmin : forall bl bu, min_element (products 0 0 bl bu) == 0).
  { intros bl bu. unfold min_element.
    pose proof (products_zero bl bu) as H. unfold products in *.
    apply min_from_zero; [ring|]. intros x Hx. apply H. right. exact Hx. }
  assert (Hmax : forall bl bu, max_element (products 0 0 bl bu) == 0).
  { intros bl bu. unfold max_element.
    pose proof (products_zero bl bu) as H. unfold products in *.
    apply max_from_zero; [ring|]. intros x Hx. apply H. right. exact Hx. }
  unfold maxAbsEnd, IntervalDotProduct, pointInterval. cbn [lower upper vzero vx vy vz fst snd].
  pose proof (Hmin (vx (lower X)) (vx (upper X))) as H1.
  pose proof (Hmin (vy (lower X)) (vy (upper X))) as H2.
  pose proof (Hmin (vz (lower X)) (vz (upper X))) as H3.
  pose proof (Hmax (vx (lower X)) (vx (upper X))) as K1.
  pose proof (Hmax (vy (lower X)) (vy (upper X))) as K2.
  pose proof (Hmax (vz (lower X)) (vz (upper X))) as K3.
  destruct (Qltb _ _).
  - rewrite K1, K2, K3. reflexivity.
  - rewrite H1, H2, H3. reflexivity.
Qed.

(** X3.  A candidate axis that is the zero vector at both ends of the step
    (the interval cross product of two parallel, non-rotating box axes)
    never separates: [SeparatingPlane] returns false for it, whatever the
    boxes and their displacement. *)
Theorem SeparatingPlane_zero_axis (d : vectorInterval) (box1 box2 : indivBoundingBox) :
  SeparatingPlane d (pointInterval vzero) box1 box2 = false.
Proof.
  unfold SeparatingPlane. cbv zeta. apply Qltb_ge.
  pose proof (maxAbsEnd_zero_axis d) as H0.
  pose proof (maxAbsEnd_zero_axis (xAxisInterval box1)) as H1.
  pose proof (maxAbsEnd_zero_axis (yAxisInterval box1)) as H2.
  pose proof (maxAbsEnd_zero_axis (zAxisInterval box1)) as H3.
  pose proof (maxAbsEnd_zero_axis (xAxisInterval box2)) as H4.
  pose proof (maxAbsEnd_zero_axis (yAxisInterval box2)) as H5.
  pose proof (maxAbsEnd_zero_axis (zAxisInterval box2)) as H6.
  rewrite H0, H1, H2, H3, H4, H5, H6. lra.
Qed.

(** ** [CheckBoundingBox]: what it leaves alone *)

Lemma set_Bodies_same (s : RigidBodyContactEffector) : set_Bodies s (Bodies s) = s.
Proof. destruct s; reflexivity. Qed.

Lemma set_Bodies_twice (s : RigidBodyContactEffector) (b b' : list geometry) :
  set_Bodies (set_Bodies s b) b' = set_Bodies s b'.
Proof. reflexivity. Qed.

Lemma boxStep_frame (s : RigidBodyContactEffector) (pair : nat * nat) :
  boxStep s pair = set_Bodies s (Bodies (boxStep s pair)) /\
  map withoutList (Bodies (boxStep s pair)) = map withoutList (Bodies s).
Proof.
  unfold boxStep. cbv zeta.
  destruct (0 <? length _)%nat.
  - split; [reflexivity|]. cbn [Bodies set_Bodies].
    apply map_update. intro b. reflexivity.
  - split; [symmetry; apply set_Bodies_same|reflexivity].
Qed.

Lemma fold_boxStep_frame (l : list (nat * nat)) :
  forall s,
    fold_left boxStep l s = set_Bodies s (Bodies (fold_left boxStep l s)) /\
    map withoutList (Bodies (fold_left boxStep l s)) = map withoutList (Bodies s).
Proof.
  induction l as [|p l IH]; intro s; simpl.
  - split; [symmetry; apply set_Bodies_same|reflexivity].
  - destruct (IH (boxStep s p)) as [H1 H2].
    destruct (boxStep_frame s p) as [K1 K2].
    split; [|rewrite H2; exact K2].
    rewrite H1 at 1. rewrite K1 at 1. apply set_Bodies_twice.
Qed.

(** X4.  [CheckBoundingBox] writes nothing but the [coarseSearchList] of
    bodies: the effector after it is the effector before it with a new
    [Bodies] vector of the same length, whose bodies agree with the old
    ones in every member other than [coarseSearchList]; [closeBodies] in
    particular is as it was. *)
Theorem CheckBoundingBox_frame (s : RigidBodyContactEffector) :
  CheckBoundingBox s = set_Bodies s (Bodies (CheckBoundingBox s)) /\
  map withoutList (Bodies (CheckBoundingBox s)) = map withoutList (Bodies s) /\
  length (Bodies (CheckBoundingBox s)) = length (Bodies s) /\
  closeBodies (CheckBoundingBox s) = closeBodies s.
Proof.
  unfold CheckBoundingBox.
  destruct (fold_boxStep_frame (closeBodies s) s) as [H1 H2].
  split; [exact H1|]. split; [exact H2|]. split.
  - rewrite <- (length_map withoutList), H2. apply length_map.
  - rewrite H1. reflexivity.
Qed.

(** ** The impulse solver *)

Section SolverMore.
Context {E : Extern}.

(** Pass [j] of the loop of [CollisionStateDerivative] writes only entries
    of contact [j]. *)
Lemma derivativeStep_other (X_c : list Q) (K : nat) (e mu : Q)
  (Xdot : list Q) (j i : nat) :
  i <> (K * 3 + j * 3)%nat -> i <> (K * 3 + j * 3 + 1)%nat ->
  i <> (K * 3 + j * 3 + 2)%nat ->
  i <> (K * 6 + j * 2)%nat -> i <> (K * 6 + j * 2 + 1)%nat ->
  at_ (derivativeStep X_c K e mu Xdot j) i = at_ Xdot i.
Proof.
  intros H1 H2 H3 H4 H5. unfold derivativeStep.
  destruct (energyPending e X_c K j); destruct (Qltb (at_ X_c (j * 3 + 2)) 0);
    rewrite ?at_put_other by lia; reflexivity.
Qed.

(** What pass [k] leaves in the normal impulse rate and in the two work
    rates of contact [k]. *)
Lemma derivativeStep_own (X_c : list Q) (K : nat) (e mu : Q) (Xdot : list Q) (k : nat) :
  (k < K)%nat -> (K * 6 + k * 2 + 1 < length Xdot)%nat ->
  let out := derivativeStep X_c K e mu Xdot k in
  let v_n := at_ X_c (k * 3 + 2) in
  at_ out (K * 3 + k * 3 + 2)
  = (if energyPending e X_c K k then 1 else at_ Xdot (K * 3 + k * 3 + 2)) /\
  at_ out (K * 6 + k * 2)
  = (if Qltb v_n 0 then v_n else at_ Xdot (K * 6 + k * 2)) /\
  at_ out (K * 6 + k * 2 + 1)
  = (if Qltb v_n 0 then at_ Xdot (K * 6 + k * 2 + 1)
     else if energyPending e X_c K k then v_n else at_ Xdot (K * 6 + k * 2 + 1)).
Proof.
  intros Hk Hlen. cbv zeta. unfold derivativeStep.
  destruct (energyPending e X_c K k); destruct (Qltb (at_ X_c (k * 3 + 2)) 0);
    repeat split;
    repeat (rewrite at_put_other by lia);
    try reflexivity;
    apply at_put_same; rewrite ?put_length; lia.
Qed.

Lemma derivative_fold_values (X_c : list Q) (K : nat) (e mu : Q) (k : nat) :
  length X_c = (K * 8)%nat -> (k < K)%nat ->
  let out := fold_left (derivativeStep X_c K e mu) (seq 0 K) (vecZero (length X_c)) in
  let v_n := at_ X_c (k * 3 + 2) in
  at_ out (K * 3 + k * 3 + 2) = (if energyPending e X_c K k then 1 else 0) /\
  at_ out (K * 6 + k * 2) = (if Qltb v_n 0 then v_n else 0) /\
  at_ out (K * 6 + k * 2 + 1)
  = (if Qltb v_n 0 then 0 else if energyPending e X_c K k then v_n else 0).
Proof.
  intros Hlen Hk. cbv zeta.
  rewrite (seq_split_at K k Hk), fold_left_app. simpl fold_left.
  set (before := fold_left _ (seq 0 k) _).
  assert (Hb : forall i, (i = K * 3 + k * 3 + 2 \/ i = K * 6 + k * 2 \/
                          i = K * 6 + k * 2 + 1)%nat -> at_ before i = 0).
  { intros i Hi. unfold before. rewrite fold_left_at; [apply at_vecZero|].
    intros X j Hj. apply in_seq in Hj. apply derivativeStep_other; lia. }
  assert (Hl : length before = (K * 8)%nat).
  { unfold before. rewrite fold_left_length by (intros; apply derivativeStep_length).
    rewrite vecZero_length. exact Hlen. }
  destruct (derivativeStep_own X_c K e mu before k Hk) as (H1 & H2 & H3); [lia|].
  rewrite !Hb in H1, H2, H3 by lia.
  repeat split.
  - rewrite fold_left_at; [exact H1|].
    intros X j Hj. apply in_seq in Hj. apply derivativeStep_other; lia.
  - rewrite fold_left_at; [exact H2|].
    intros X j Hj. apply in_seq in Hj. apply derivativeStep_other; lia.
  - rewrite fold_left_at; [exact H3|].
    intros X j Hj. apply in_seq in Hj. apply derivativeStep_other; lia.
Qed.

(** X5.  The derivative of the normal impulse of contact k is 1 while the
    energy condition of the contact is pending, W_r(k) < -e^2 W_c(k), and 0
    afterwards: the normal impulse is the variable of integration of every
    contact that is still active, and a contact that has met its condition
    receives no further impulse. *)
Theorem CollisionStateDerivative_normal_impulse (X_c : list Q) (impacts : list impact)
  (M_tot : list (list Q)) (coefRes coefFric : Q) (k : nat) :
  length X_c = (length impacts * 8)%nat -> (k < length impacts)%nat ->
  let K := length impacts in
  let Xdot_c := CollisionStateDerivative X_c impacts M_tot coefRes coefFric in
  at_ Xdot_c (K * 3 + k * 3 + 2)
  = if energyPending coefRes X_c K k then 1 else 0.
Proof.
  intros Hlen Hk K Xdot_c. unfold Xdot_c, CollisionStateDerivative. cbv zeta.
  fold K. rewrite at_putHead_beyond by lia.
  apply (derivative_fold_values X_c K coefRes coefFric k Hlen Hk).
Qed.

(** X6.  The two work accumulators of contact k: the compression work
    changes at the rate of the normal velocity v_n while v_n < 0 and not at
    all otherwise; the restitution work changes at the rate v_n while
    v_n >= 0 and the energy condition is pending, and not at all otherwise.
    So the compression work never increases, the restitution work never
    decreases, and at most one of the two changes. *)
Theorem CollisionStateDerivative_work_rates (X_c : list Q) (impacts : list impact)
  (M_tot : list (list Q)) (coefRes coefFric : Q) (k : nat) :
  length X_c = (length impacts * 8)%nat -> (k < length impacts)%nat ->
  let K := length impacts in
  let v_n := at_ X_c (k * 3 + 2) in
  let Xdot_c := CollisionStateDerivative X_c impacts M_tot coefRes coefFric in
  at_ Xdot_c (K * 6 + k * 2) = (if Qltb v_n 0 then v_n else 0) /\
  at_ Xdot_c (K * 6 + k * 2 + 1)
  = (if Qltb v_n 0 then 0 else if energyPending coefRes X_c K k then v_n else 0) /\
  at_ Xdot_c (K * 6 + k * 2) <= 0 /\
  0 <= at_ Xdot_c (K * 6 + k * 2 + 1) /\
  (at_ Xdot_c (K * 6 + k * 2) = 0 \/ at_ Xdot_c (K * 6 + k * 2 + 1) = 0).
Proof.
  intros Hlen Hk K v_n Xdot_c.
  destruct (derivative_fold_values X_c K coefRes coefFric k Hlen Hk) as (_ & Hc & Hr).
  assert (Hc' : at_ Xdot_c (K * 6 + k * 2) = (if Qltb v_n 0 then v_n else 0)).
  { unfold Xdot_c, CollisionStateDerivative. cbv zeta. fold K.
    rewrite at_putHead_beyond by lia. exact Hc. }
  assert (Hr' : at_ Xdot_c (K * 6 + k * 2 + 1)
                = (if Qltb v_n 0 then 0
                   else if energyPending coefRes X_c K k then v_n else 0)).
  { unfold Xdot_c, CollisionStateDerivative. cbv zeta. fold K.
    rewrite at_putHead_beyond by lia. exact Hr. }
  split; [exact Hc'|]. split; [exact Hr'|]. rewrite Hc', Hr'.
  destruct (Qltb v_n 0) eqn:Hv.
  - apply Qltb_lt in Hv. repeat split; try lra. right; reflexivity.
  - apply Qltb_ge in Hv.
    destruct (energyPending coefRes X_c K k); repeat split; try lra; left; reflexivity.
Qed.

End SolverMore.

Lemma CollisionStateDerivative_normal_impulse_witness :
  at_ (@CollisionStateDerivative exampleExtern slidingState slidingContact unitMass
                                 (1#2) (1#10)) 5
  = if energyPending (1#2) slidingState 1 0 then 1 else 0.
Proof.
  exact (@CollisionStateDerivative_normal_impulse exampleExtern slidingState
           slidingContact unitMass (1#2) (1#10) 0%nat eq_refl (Nat.lt_0_succ 0)).
Defined.

Lemma CollisionStateDerivative_work_rates_witness :
  let Xdot_c := @CollisionStateDerivative exampleExtern slidingState slidingContact
                                          unitMass (1#2) (1#10) in
  at_ Xdot_c 6 <= 0 /\ 0 <= at_ Xdot_c 7.
Proof.
  destruct (@CollisionStateDerivative_work_rates exampleExtern slidingState
              slidingContact unitMass (1#2) (1#10) 0%nat eq_refl (Nat.lt_0_succ 0))
    as (_ & _ & H1 & H2 & _).
  split; [exact H1 | exact H2].
Defined.

Section SolverLoop.
Context {E : Extern}.

Lemma derivativeStep_settled (X_c : list Q) (K : nat) (e mu : Q)
  (Xdot : list Q) (j i : nat) :
  energyPending e X_c K j = false -> i <> (K * 6 + j * 2)%nat ->
  at_ (derivativeStep X_c K e mu Xdot j) i = at_ Xdot i.
Proof.
  intros Hp Hi. unfold derivativeStep. rewrite Hp.
  destruct (Qltb (at_ X_c (j * 3 + 2)) 0); [|reflexivity].
  apply at_put_other. lia.
Qed.

Lemma energyMetAll_settled (e : Q) (X_c : list Q) (K j : nat) :
  energyMetAll e X_c K = true -> (j < K)%nat -> energyPending e X_c K j = false.
Proof.
  unfold energyMetAll. rewrite forallb_forall. intros H Hj.
  apply negb_true_iff, H, in_seq. lia.
Qed.

Lemma all_zero_of_nth (l : list Q) :
  (forall i, nth i l 0 == 0) -> Forall (fun x => x == 0) l.
Proof.
  induction l as [|x r IH]; intro H; constructor.
  - exact (H O).
  - apply IH. intro i. exact (H (S i)).
Qed.

Lemma dot_with_zeros (row v : list Q) :
  Forall (fun x => x == 0) v ->
  forall acc, acc == 0 -> fold_left Qplus (vecMap2 Qmult row v) acc == 0.
Proof.
  intro Hv. revert row. induction Hv as [|x v Hx Hv IH]; intros row acc Hacc.
  - destruct row; exact Hacc.
  - destruct row as [|r row]; [exact Hacc|]. simpl. apply IH.
    rewrite Hacc, Hx. ring.
Qed.

Lemma matMulVec_zeros (M : list (list Q)) (v : list Q) (i : nat) :
  Forall (fun x => x == 0) v -> at_ (matMulVec M v) i == 0.
Proof.
  intro Hv. unfold at_, matMulVec. revert i.
  induction M as [|row M IH]; intros [|i]; simpl; try reflexivity.
  - apply dot_with_zeros; [exact Hv|reflexivity].
  - apply IH.
Qed.

(** X7.  When no contact has its energy condition pending, the derivative
    of every velocity entry, of every impulse entry and of every
    restitution-work entry is zero: only compression work can still change.
    The integration has then reached a state that further steps do not
    move in velocity or impulse. *)
Theorem CollisionStateDerivative_settled (X_c : list Q) (impacts : list impact)
  (M_tot : list (list Q)) (coefRes coefFric : Q) :
  length X_c = (length impacts * 8)%nat ->
  energyMetAll coefRes X_c (length impacts) = true ->
  let K := length impacts in
  let Xdot_c := CollisionStateDerivative X_c impacts M_tot coefRes coefFric in
  (forall i, (i < K * 3)%nat -> at_ Xdot_c i == 0) /\
  (forall i, (K * 3 <= i < K * 6)%nat -> at_ Xdot_c i = 0) /\
  (forall k, (k < K)%nat -> at_ Xdot_c (K * 6 + k * 2 + 1) = 0).
Proof.
  intros Hlen Hmet K Xdot_c.
  set (raw := fold_left (derivativeStep X_c K coefRes coefFric) (seq 0 K)
                        (vecZero (length X_c))).
  assert (Hraw : forall i, (forall j, (j < K)%nat -> i <> (K * 6 + j * 2)%nat) ->
                           at_ raw i = 0).
  { intros i Hi. unfold raw. rewrite fold_left_at; [apply at_vecZero|].
    intros X j Hj. apply in_seq in Hj. apply derivativeStep_settled.
    - apply (energyMetAll_settled coefRes X_c K j Hmet). lia.
    - apply Hi. lia. }
  assert (Hout : Xdot_c
                 = putHead raw (K * 3) (matMulVec M_tot (segment raw (K * 3) (K * 3))))
    by reflexivity.
  split; [|split].
  - intros i Hi. rewrite Hout. unfold putHead, at_ at 1.
    rewrite app_nth1 by (rewrite length_map, length_seq; exact Hi).
    rewrite (nth_indep _ 0 (at_ (matMulVec M_tot (segment raw (K * 3) (K * 3))) 0))
      by (rewrite length_map, length_seq; exact Hi).
    rewrite map_nth, seq_nth by exact Hi. cbn [Nat.add].
    apply matMulVec_zeros, all_zero_of_nth. intro n. unfold segment.
    rewrite nth_firstn. destruct (n <? K * 3)%nat eqn:Hn; [|reflexivity].
    apply Nat.ltb_lt in Hn. rewrite nth_skipn.
    change (at_ raw (K * 3 + n) == 0). rewrite Hraw; [reflexivity|].
    intros j Hj. lia.
  - intros i Hi. rewrite Hout, at_putHead_beyond by lia.
    apply Hraw. intros j Hj. lia.
  - intros k Hk. rewrite Hout, at_putHead_beyond by lia.
    apply Hraw. intros j Hj. lia.
Qed.

Variables (h : Q) (impacts : list impact) (M_tot : list (list Q)).
Variables (coefRes coefFric : Q).

(** No pass before the last one left a state that meets the condition. *)
Lemma integrateLoop_first (fuel : nat) :
  forall (currLoop : Z) (X_c : list Q) (n : Z) (X' : list Q),
    integrateLoop fuel h impacts M_tot coefRes coefFric currLoop X_c = Some (n, X') ->
    forall m, (0 < m)%nat -> (Z.of_nat m < n - currLoop)%Z ->
      energyMetAll coefRes
        (Nat.iter m (rk4Step h impacts M_tot coefRes coefFric) X_c)
        (length impacts) = false.
Proof.
  induction fuel as [|fuel IH]; intros c X n X' Hrun m Hm Hlt; [discriminate|].
  cbn [integrateLoop] in Hrun. cbv zeta in Hrun.
  set (X1 := rk4Step h impacts M_tot coefRes coefFric X) in *.
  destruct (loopMax <? c + 1)%Z; [injection Hrun as <- <-; lia|].
  destruct (energyMetAll coefRes X1 (length impacts)) eqn:Hmet;
    [injection Hrun as <- <-; lia|].
  destruct m as [|[|m]]; [lia|exact Hmet|].
  rewrite Nat.iter_succ_r. fold X1.
  apply (IH _ _ _ _ Hrun); lia.
Qed.

(** X8.  The integration loop stops at the first pass whose state meets
    the energy condition on every contact: the loop returns after n passes,
    and after each smaller number m >= 1 of RK4 steps some contact still
    had its condition pending. *)
Theorem integrateCollision_stops_at_first (X_c : list Q) :
  exists (n : Z) (X' : list Q),
    integrateCollision h impacts M_tot coefRes coefFric X_c = Some (n, X') /\
    X' = Nat.iter (Z.to_nat n) (rk4Step h impacts M_tot coefRes coefFric) X_c /\
    forall m, (0 < m)%nat -> (Z.of_nat m < n)%Z ->
      energyMetAll coefRes
        (Nat.iter m (rk4Step h impacts M_tot coefRes coefFric) X_c)
        (length impacts) = false.
Proof.
  unfold integrateCollision.
  destruct (integrateLoop_returns h impacts M_tot coefRes coefFric
              (Z.to_nat (loopMax + 1)) 0 X_c)
    as (n & X' & Hrun & Hn & HX & _).
  - unfold loopMax. lia.
  - rewrite Z.sub_0_r. apply Nat.le_refl.
  - exists n, X'. split; [exact Hrun|]. split; [now rewrite Z.sub_0_r in HX|].
    intros m Hm Hlt.
    apply (integrateLoop_first _ _ _ _ _ Hrun); [exact Hm | lia].
Qed.

End SolverLoop.

Lemma CollisionStateDerivative_settled_witness :
  let Xdot_c := @CollisionStateDerivative exampleExtern slidingState slidingContact
                                          unitMass (1#2) (1#10) in
  (forall i, (i < 3)%nat -> at_ Xdot_c i == 0) /\
  (forall i, (3 <= i < 6)%nat -> at_ Xdot_c i = 0) /\
  (forall k, (k < 1)%nat -> at_ Xdot_c (6 + k * 2 + 1) = 0).
Proof.
  exact (@CollisionStateDerivative_settled exampleExtern slidingState slidingContact
           unitMass (1#2) (1#10) eq_refl eq_refl).
Defined.

(** *** The initial collision state *)






(** ** [computeForceTorque] *)

Lemma rejectionValue_range (r : Z) (timeStep : Q) :
  (0 <= r)%Z -> 0 < timeStep ->
  1000 / timeStep <= rejectionValue r timeStep <= 1999 / timeStep.
Proof.
  intros Hr Hdt. unfold rejectionValue.
  assert (Hrem : (0 <= Z.rem r 1000 <= 999)%Z).
  { pose proof (Z.rem_bound_pos r 1000 Hr ltac:(lia)). lia. }
  assert (H0 : 0 <= inject_Z (Z.rem r 1000)).
  { change 0 with (inject_Z 0). rewrite <- Zle_Qle. lia. }
  assert (H9 : inject_Z (Z.rem r 1000) <= 999).
  { change 999 with (inject_Z 999). rewrite <- Zle_Qle. lia. }
  set (x := inject_Z (Z.rem r 1000)) in *. clearbody x.
  pose proof (Qinv_lt_0_compat timeStep Hdt) as Hinv.
  unfold Qdiv. set (i := / timeStep) in *. clearbody i.
  split; nra.
Qed.

Lemma rejection_vectors_range (g : Rng) (timeStep : Q) :
  (forall n, (0 <= tape g n)%Z) -> 0 < timeStep ->
  componentsWithin (1000 / timeStep) (1999 / timeStep) (rejectionForce g timeStep) /\
  componentsWithin (1000 / timeStep) (1999 / timeStep) (rejectionTorque g timeStep).
Proof.
  intros Hg Hdt. unfold componentsWithin, rejectionForce, rejectionTorque.
  cbn [vx vy vz]. repeat split; apply rejectionValue_range; auto.
Qed.

Lemma exampleTape_nonneg (n : nat) : (0 <= tape exampleTape n)%Z.
Proof.
  unfold exampleTape. cbn [tape].
  do 18 (destruct n as [|n]; [cbn; lia|]). destruct n; cbn; lia.
Qed.

Section ForceTorqueMore.
Context {E : Extern}.

(** X10.  The step-rejection signal is large: when a call leaves through a
    step-rejection exit with a positive [timeStep] (and [std::rand()]
    returns non-negative numbers, as it must), every component of
    [forceExternal_N] and of [torqueExternalPntB_B] lies between
    1000 / timeStep and 1999 / timeStep. *)
Theorem rejection_signal_range (s s' : RigidBodyContactEffector) (g g' : Rng)
  (currentTime timeStep : Q) (e : exit) :
  computeForceTorque s g currentTime timeStep = (e, s', g') ->
  rejects e = true ->
  (forall n, (0 <= tape g n)%Z) -> 0 < timeStep ->
  componentsWithin (1000 / timeStep) (1999 / timeStep) (forceExternal_N s') /\
  componentsWithin (1000 / timeStep) (1999 / timeStep) (torqueExternalPntB_B s').
Proof.
  intros Hcall He Hg Hdt.
  pose proof (rejection_outputs s g currentTime timeStep) as H.
  rewrite Hcall in H. destruct (H He) as (-> & -> & _).
  apply rejection_vectors_range; assumption.
Qed.

(** What the impulse solve leaves alone. *)
Lemma solveImpacts_frame (s : RigidBodyContactEffector) (bodyPair : nat * nat)
  (c1 c2 : dynamicData) (found : search) (t dt : Q) :
  let s' := solveImpacts s bodyPair c1 c2 found t dt in
  forceExternal_B s' = forceExternal_B s /\
  cycleData s' = cycleData s /\
  length (Bodies s') = length (Bodies s).
Proof.
  cbv zeta. unfold solveImpacts. cbv zeta.
  destruct (fold_left _ _ _) as [[[force torque] forceOther] torqueOther].
  destruct (Qleb _ _).
  - repeat split. cbn [Bodies set_Bodies]. rewrite !update_length. reflexivity.
  - repeat split.
Qed.

Lemma asBodyA_more (s : RigidBodyContactEffector) (g : Rng) (bodyPair : nat * nat)
  (t dt : Q) :
  match asBodyA s g bodyPair t dt with
  | (e, s', g') =>
      forceExternal_B s' = forceExternal_B s /\
      cycleData s' = cycleData s /\
      length (Bodies s') = length (Bodies s) /\
      (rejects e = false -> g' = g) /\
      e <> Fallthrough
  end.
Proof.
  unfold asBodyA.
  destruct (responseFound s).
  - destruct (_ && _); repeat split; discriminate.
  - destruct (manifold s bodyPair t dt) as [[c1 c2] found].
    destruct (length (impacts found) =? 0)%nat; [repeat split; discriminate|].
    cbn -[Qltb Qabs Qminus drawRejection solveImpacts].
    destruct (lockedToRand s && _).
    + rewrite drawRejection_spec. repeat split; discriminate.
    + destruct (Qltb _ (currentMaxError found)).
      * rewrite drawRejection_spec.
        destruct (lockedToRand s); repeat split; discriminate.
      * match goal with
        | |- context [solveImpacts ?x bodyPair c1 c2 found t dt] =>
            destruct (solveImpacts_frame x bodyPair c1 c2 found t dt) as (H1 & H2 & H3)
        end.
        rewrite H1, H2, H3.
        destruct (lockedToRand s); repeat split; discriminate.
Qed.

Lemma asBodyB_more (bodyPairs : list (nat * nat)) (t dt : Q) :
  forall (s : RigidBodyContactEffector) (g : Rng),
    match asBodyB s g bodyPairs t dt with
    | (e, s', g') =>
        forceExternal_B s' = forceExternal_B s /\
        cycleData s' = cycleData s /\
        length (Bodies s') = length (Bodies s) /\
        (rejects e = false -> g' = g)
    end.
Proof.
  induction bodyPairs as [|p rest IH]; intros s g.
  - repeat split.
  - cbn [asBodyB].
    destruct (negb _); [apply IH|].
    cbv zeta.
    destruct (length _ =? 0)%nat; [repeat split|].
    destruct (responseFound s).
    + destruct (_ && _); repeat split.
      cbn [Bodies set_Bodies set_responseFound]. apply update_length.
    + destruct (lockedToRand s && _).
      * rewrite drawRejection_spec. repeat split; discriminate.
      * destruct (Qltb (Qabs (t - _)) _ && _).
        -- destruct (lockedToRand s); repeat split.
        -- destruct (Qltb _ (t + dt)).
           ++ rewrite drawRejection_spec.
              destruct (lockedToRand s); repeat split; discriminate.
           ++ specialize (IH (if lockedToRand s then set_lockedToRand s false else s) g).
              destruct (asBodyB _ g rest t dt) as [[e s'] g'].
              destruct IH as (I1 & I2 & I3 & I4).
              rewrite I1, I2, I3. destruct (lockedToRand s); repeat split; exact I4.
Qed.

Lemma computeForceTorque_more (s : RigidBodyContactEffector) (g : Rng) (t dt : Q) :
  match computeForceTorque s g t dt with
  | (e, s', g') =>
      forceExternal_B s' = vzero /\
      cycleData s' = cycleData (prologue s t dt) /\
      length (Bodies s') = length (Bodies s) /\
      (rejects e = false -> g' = g)
  end.
Proof.
  unfold computeForceTorque.
  destruct (prologue_outputs s t dt) as (_ & HB & _).
  assert (HL : length (Bodies (prologue s t dt)) = length (Bodies s)).
  { pose proof (prologue_givenData s t dt) as H. unfold givenData in H.
    injection H as H. now rewrite H. }
  destruct (find _ _) as [p|].
  - pose proof (asBodyA_more (prologue s t dt) g p t dt) as H.
    destruct (asBodyA _ g p t dt) as [[e s'] g'].
    destruct H as (H1 & H2 & H3 & H4 & _). rewrite H1, H3. auto.
  - pose proof (asBodyB_more (closeBodies (prologue s t dt)) t dt
                             (prologue s t dt) g) as H.
    destruct (asBodyB _ g _ t dt) as [[e s'] g'].
    destruct H as (H1 & H2 & H3 & H4). rewrite H1, H3. auto.
Qed.

(** X11.  [computeForceTorque] never produces a body-frame force: after
    every call [forceExternal_B] is the zero vector, whatever the path. *)
Theorem computeForceTorque_no_body_frame_force (s : RigidBodyContactEffector)
  (g : Rng) (currentTime timeStep : Q) :
  forceExternal_B (snd (fst (computeForceTorque s g currentTime timeStep))) = vzero.
Proof.
  pose proof (computeForceTorque_more s g currentTime timeStep) as H.
  destruct (computeForceTorque s g currentTime timeStep) as [[e s'] g'].
  exact (proj1 H).
Qed.

(** X12.  A call consumes random numbers only to reject a step: it draws
    exactly six numbers from [std::rand()] when it leaves through a
    step-rejection exit and none on every other path. *)
Theorem computeForceTorque_draws (s : RigidBodyContactEffector) (g : Rng)
  (currentTime timeStep : Q) :
  snd (computeForceTorque s g currentTime timeStep)
  = if rejects (fst (fst (computeForceTorque s g currentTime timeStep)))
    then advance g 6 else g.
Proof.
  pose proof (computeForceTorque_more s g currentTime timeStep) as H.
  pose proof (rejection_outputs s g currentTime timeStep) as R.
  destruct (computeForceTorque s g currentTime timeStep) as [[e s'] g'].
  cbn [fst snd]. destruct (rejects e) eqn:He.
  - apply R. reflexivity.
  - apply H. reflexivity.
Qed.

End ForceTorqueMore.

Lemma rejection_signal_range_witness :
  componentsWithin (1000 / (1#100)) (1999 / (1#100))
                   (forceExternal_N (snd (fst firstCall))) /\
  componentsWithin (1000 / (1#100)) (1999 / (1#100))
                   (torqueExternalPntB_B (snd (fst firstCall))).
Proof.
  apply (@rejection_signal_range exampleExtern lateScene (snd (fst firstCall))
           exampleTape (snd firstCall) (497#1000) (1#100) LateB
           firstCall_eq eq_refl exampleTape_nonneg).
  reflexivity.
Defined.

(** *** Calls that find nothing to do *)

Lemma find_nothing {A : Type} (f : A -> bool) (l : list A) :
  (forall x, In x l -> f x = false) -> find f l = None.
Proof.
  induction l as [|x r IH]; intro H; simpl; [reflexivity|].
  rewrite (H x (or_introl eq_refl)). apply IH. intros y Hy. apply H. right; exact Hy.
Qed.

(** *** The response that a solve stores *)

Lemma prologue_newMacroTimeStep (s : RigidBodyContactEffector) (t dt : Q) :
  newMacroTimeStep (prologue s t dt) = false.
Proof.
  unfold prologue. cbv zeta. destruct s. cbn -[Qltb Qabs Qminus].
  repeat match goal with
         | |- context [if ?b then _ else _] => destruct b eqn:?; cbn -[Qltb Qabs Qminus]
         end; reflexivity.
Qed.

(** A call that does not start a macro step and does not move the cycle
    on leaves the cycle, the bodies and the latches as they are. *)
Lemma prologue_stays (s : RigidBodyContactEffector) (t dt : Q) :
  newMacroTimeStep s = false ->
  (atTop s t dt = true -> secondInter s = true) ->
  let s' := prologue s t dt in
  Bodies s' = Bodies s /\ closeBodies s' = closeBodies s /\
  currentBodyInCycle s' = currentBodyInCycle s /\
  responseFound s' = responseFound s /\ lockedToRand s' = lockedToRand s /\
  timeFound s' = timeFound s /\ integrateTimeStep s' = integrateTimeStep s /\
  newMacroTimeStep s' = false.
Proof.
  intros Hn Hs. cbv zeta. unfold prologue. cbv zeta.
  cbn [newMacroTimeStep set_currentMinError set_outputs]. rewrite Hn.
  cbn [topTime topTimeStep secondInter set_currentMinError set_outputs].
  fold (atTop s t dt). destruct (atTop s t dt).
  - rewrite (Hs eq_refl). repeat split; exact Hn.
  - repeat split; exact Hn.
Qed.

Lemma Qabs_self_difference (x : Q) : Qltb (Qabs (x - x)) 1e-15 = true.
Proof.
  apply Qltb_lt. assert (H : x - x == 0) by ring. rewrite H. reflexivity.
Qed.

Section ForceTorqueSolve.
Context {E : Extern}.

Lemma extract_fold_balance (dcm_CN : list Mat3) (imps : list impact) (X_c : list Q)
  (c1 c2 : dynamicData) (timeStep : Q) (l : list nat) :
  ~ timeStep == 0 ->
  forall acc,
    let out := fold_left (extractStep dcm_CN imps X_c c1 c2 timeStep) l acc in
    veq (vadd (vscale (fst (fst (fst out))) timeStep) (snd (fst out)))
        (vadd (vscale (fst (fst (fst acc))) timeStep) (snd (fst acc))).
Proof.
  intro Hdt. induction l as [|i l IH]; intro acc; cbv zeta.
  - repeat split; reflexivity.
  - cbn [fold_left]. specialize (IH (extractStep dcm_CN imps X_c c1 c2 timeStep acc i)).
    cbv zeta in IH. destruct IH as (Ix & Iy & Iz).
    destruct acc as [[[force torque] forceOther] torqueOther].
    unfold veq in *. cbn [extractStep fst snd] in Ix, Iy, Iz.
    cbn [fst snd]. rewrite Ix, Iy, Iz.
    unfold vadd, vsub, vscale, vdiv. cbn [vx vy vz].
    repeat split; field; exact Hdt.
Qed.

(** What the solve stores when the position error is within bounds. *)
Lemma solveImpacts_stores (s : RigidBodyContactEffector) (p : nat * nat)
  (c1 c2 : dynamicData) (found : search) (t dt : Q) :
  (fst p < length (Bodies s))%nat -> (snd p < length (Bodies s))%nat ->
  fst p <> snd p ->
  Qleb (currentMaxError found) (maxPosError s) = true ->
  let s' := solveImpacts s p c1 c2 found t dt in
  responseFound s' = true /\ timeFound s' = t + dt + 1e-15 /\
  integrateTimeStep s' = dt /\ lockedToRand s' = lockedToRand s /\
  last (Body.forceExternal_N (body s' (fst p))) vzero = forceExternal_N s' /\
  last (Body.torqueExternalPntB_B (body s' (fst p))) vzero = torqueExternalPntB_B s' /\
  (~ dt == 0 ->
   veq (vadd (vscale (forceExternal_N s') dt)
             (last (Body.forceExternal_N (body s' (snd p))) vzero))
       (vscale (forceExternal_N s) dt)) /\
  last (Body.impactTimes (body s' (snd p))) 0 = t /\
  last (Body.impactTimeSteps (body s' (snd p))) 0 = dt.
Proof.
  intros HA HB Hne Hq. cbv zeta. unfold solveImpacts. cbv zeta.
  match goal with
  | |- context [fold_left (extractStep ?d ?i ?x c1 c2 dt) ?l ?a] =>
      pose proof (fun H => extract_fold_balance d i x c1 c2 dt l H a) as Hbal;
      destruct (fold_left (extractStep d i x c1 c2 dt) l a)
        as [[[force torque] forceOther] torqueOther]
  end.
  cbv zeta in Hbal. cbn [fst snd] in Hbal.
  cbn [maxPosError set_outputs]. rewrite Hq.
  unfold body. cbn [Bodies set_Bodies set_found set_responseFound set_outputs
                    responseFound timeFound integrateTimeStep lockedToRand
                    forceExternal_N torqueExternalPntB_B].
  repeat split.
  - rewrite (nth_update_other _ _ _ (snd p) (fst p)) by congruence.
    rewrite nth_update_same by (rewrite !update_length; exact HA).
    rewrite (nth_update_other _ _ _ (snd p) (fst p)) by congruence.
    rewrite nth_update_same by exact HA. cbn. apply last_last.
  - rewrite (nth_update_other _ _ _ (snd p) (fst p)) by congruence.
    rewrite nth_update_same by (rewrite !update_length; exact HA).
    cbn. apply last_last.
  - rewrite nth_update_same by (rewrite !update_length; exact HB).
    rewrite (nth_update_other _ _ _ (fst p) (snd p)) by congruence.
    rewrite nth_update_same by (rewrite !update_length; exact HB).
    cbn. rewrite last_last. apply Hbal in H. destruct H as (Hx & _).
    rewrite Hx. unfold vadd, vscale, vzero. cbn. ring.
  - rewrite nth_update_same by (rewrite !update_length; exact HB).
    rewrite (nth_update_other _ _ _ (fst p) (snd p)) by congruence.
    rewrite nth_update_same by (rewrite !update_length; exact HB).
    cbn. rewrite last_last. apply Hbal in H. destruct H as (_ & Hy & _).
    rewrite Hy. unfold vadd, vscale, vzero. cbn. ring.
  - rewrite nth_update_same by (rewrite !update_length; exact HB).
    rewrite (nth_update_other _ _ _ (fst p) (snd p)) by congruence.
    rewrite nth_update_same by (rewrite !update_length; exact HB).
    cbn. rewrite last_last. apply Hbal in H. destruct H as (_ & _ & Hz).
    rewrite Hz. unfold vadd, vscale, vzero. cbn. ring.
  - rewrite nth_update_same by (rewrite !update_length; exact HB).
    cbn. apply last_last.
  - rewrite nth_update_same by (rewrite !update_length; exact HB).
    cbn. apply last_last.
Qed.

End ForceTorqueSolve.

Lemma cycleData_eq (s s' : RigidBodyContactEffector) :
  cycleData s = cycleData s' ->
  closeBodies s = closeBodies s' /\ currentBodyInCycle s = currentBodyInCycle s' /\
  newMacroTimeStep s = newMacroTimeStep s' /\ topTime s = topTime s' /\
  topTimeStep s = topTimeStep s' /\ secondInter s = secondInter s'.
Proof.
  unfold cycleData. intro H. injection H as H1 H2 H3 H4 H5 H6. repeat split; assumption.
Qed.

Section ForceTorqueReplay.
Context {E : Extern}.

(** The path conditions of the solve: the narrow phase runs for the pair
    [p] of the current body, finds a contact within the position bound and
    no step rejection is being replayed. *)
Lemma computeForceTorque_solves (s : RigidBodyContactEffector) (g : Rng)
  (t dt : Q) (p : nat * nat) :
  let s0 := prologue s t dt in
  let m := manifold s0 p t dt in
  find (fun q => (Z.of_nat (fst q) =? currentBodyInCycle s0)%Z) (closeBodies s0)
  = Some p ->
  responseFound s0 = false -> lockedToRand s0 = false ->
  impacts (snd m) <> [] -> currentMaxError (snd m) <= maxPosError s ->
  computeForceTorque s g t dt
  = (Solved,
     solveImpacts (set_currentMinError s0 (minError (snd m))) p
                  (fst (fst m)) (snd (fst m)) (snd m) t dt,
     g).
Proof.
  intros s0 m Hfind Hresp Hlock Himp Herr.
  assert (Hmax : maxPosError s0 = maxPosError s).
  { pose proof (prologue_givenData s t dt) as Hg. unfold givenData in Hg.
    fold s0 in Hg. now injection Hg. }
  unfold computeForceTorque. fold s0. rewrite Hfind.
  unfold asBodyA. rewrite Hresp. fold m.
  destruct m as [[c1 c2] found]. cbn [fst snd] in *.
  destruct (impacts found) as [|i0 rest] eqn:Hi; [congruence|].
  cbn [length Nat.eqb].
  cbn [lockedToRand set_currentMinError maxPosError]. rewrite Hlock.
  cbn [andb].
  change (maxPosError (set_currentMinError s0 (minError found)))
    with (maxPosError s0).
  rewrite Hmax.
  assert (Hq : Qltb (maxPosError s) (currentMaxError found) = false)
    by (apply Qltb_ge; exact Herr).
  rewrite Hq. reflexivity.
Qed.

Lemma solved_state (s : RigidBodyContactEffector) (t dt : Q) (p : nat * nat) :
  let s0 := prologue s t dt in
  let m := manifold s0 p t dt in
  let s1 := solveImpacts (set_currentMinError s0 (minError (snd m))) p
                         (fst (fst m)) (snd (fst m)) (snd m) t dt in
  currentMaxError (snd m) <= maxPosError s ->
  (fst p < length (Bodies s))%nat -> (snd p < length (Bodies s))%nat ->
  fst p <> snd p ->
  responseFound s1 = true /\ timeFound s1 = t + dt + 1e-15 /\
  integrateTimeStep s1 = dt /\
  last (Body.forceExternal_N (body s1 (fst p))) vzero = forceExternal_N s1 /\
  last (Body.torqueExternalPntB_B (body s1 (fst p))) vzero = torqueExternalPntB_B s1 /\
  (~ dt == 0 ->
   veq (last (Body.forceExternal_N (body s1 (snd p))) vzero)
       (vneg (vscale (forceExternal_N s1) dt))) /\
  last (Body.impactTimes (body s1 (snd p))) 0 = t /\
  last (Body.impactTimeSteps (body s1 (snd p))) 0 = dt /\
  cycleData s1 = cycleData s0.
Proof.
  intros s0 m s1 Herr HA HB Hne.
  assert (Hg : givenData s0 = givenData s) by apply prologue_givenData.
  unfold givenData in Hg. injection Hg as Hbodies _ _ _ _ Hmax _ _ _ _ _ _ _ _.
  destruct (prologue_outputs s t dt) as (O1 & _ & _). fold s0 in O1.
  destruct (solveImpacts_stores (set_currentMinError s0 (minError (snd m))) p
              (fst (fst m)) (snd (fst m)) (snd m) t dt)
    as (H1 & H2 & H3 & _ & H5 & H6 & H7 & H8 & H9).
  - cbn [Bodies set_currentMinError]. rewrite Hbodies. exact HA.
  - cbn [Bodies set_currentMinError]. rewrite Hbodies. exact HB.
  - exact Hne.
  - cbn [maxPosError set_currentMinError]. rewrite Hmax. apply Qleb_le, Herr.
  - fold s1 in H1, H2, H3, H5, H6, H7, H8, H9.
    repeat split; try assumption.
    + specialize (H7 H). destruct H7 as (Hx & _).
      cbn [forceExternal_N set_currentMinError] in Hx. rewrite O1 in Hx.
      unfold vadd, vscale, vneg, vzero in *. cbn [vx vy vz] in *. lra.
    + specialize (H7 H). destruct H7 as (_ & Hy & _).
      cbn [forceExternal_N set_currentMinError] in Hy. rewrite O1 in Hy.
      unfold vadd, vscale, vneg, vzero in *. cbn [vx vy vz] in *. lra.
    + specialize (H7 H). destruct H7 as (_ & _ & Hz).
      cbn [forceExternal_N set_currentMinError] in Hz. rewrite O1 in Hz.
      unfold vadd, vscale, vneg, vzero in *. cbn [vx vy vz] in *. lra.
    + apply (solveImpacts_frame (set_currentMinError s0 (minError (snd m)))).
Qed.

(** X14.  A solved response is replayed.  When a call solves the impact
    of the pair (A, B) of the current body A (the narrow phase finds a
    contact within the position bound and no step rejection is pending),
    the same call repeated at the same (currentTime, timeStep), as long as
    it does not move the cycle on to the next body, takes the replay path
    and returns the same [forceExternal_N] and [torqueExternalPntB_B],
    without solving again and without drawing a random number. *)
Theorem solved_response_is_replayed (s : RigidBodyContactEffector) (g : Rng)
  (currentTime timeStep : Q) (p : nat * nat) :
  let s0 := prologue s currentTime timeStep in
  let found := snd (manifold s0 p currentTime timeStep) in
  find (fun q => (Z.of_nat (fst q) =? currentBodyInCycle s0)%Z) (closeBodies s0)
  = Some p ->
  responseFound s0 = false -> lockedToRand s0 = false ->
  impacts found <> [] -> currentMaxError found <= maxPosError s ->
  (fst p < length (Bodies s))%nat -> (snd p < length (Bodies s))%nat ->
  fst p <> snd p ->
  - 1e-15 <= timeStep ->
  (atTop s0 currentTime timeStep = true -> secondInter s0 = true) ->
  exists s1 s2,
    computeForceTorque s g currentTime timeStep = (Solved, s1, g) /\
    computeForceTorque s1 g currentTime timeStep = (ReplayA, s2, g) /\
    forceExternal_N s2 = forceExternal_N s1 /\
    torqueExternalPntB_B s2 = torqueExternalPntB_B s1.
Proof.
  intros s0 found Hfind Hresp Hlock Himp Herr HA HB Hne Hdt Htop.
  pose proof (computeForceTorque_solves s g currentTime timeStep p
                Hfind Hresp Hlock Himp Herr) as Hcall.
  pose proof (solved_state s currentTime timeStep p Herr HA HB Hne) as Hst.
  cbv zeta in Hcall, Hst. fold s0 in Hcall, Hst.
  assert (Hn0 : newMacroTimeStep s0 = false) by apply prologue_newMacroTimeStep.
  clearbody s0.
  set (s1 := solveImpacts _ p _ _ _ currentTime timeStep) in *. clearbody s1.
  destruct Hst as (R1 & R2 & R3 & R4 & R5 & _ & _ & _ & Hcyc).
  apply cycleData_eq in Hcyc. destruct Hcyc as (C1 & C2 & C3 & C4 & C5 & C6).
  destruct (prologue_stays s1 currentTime timeStep)
    as (P1 & P2 & P3 & P4 & _ & P6 & P7 & _).
  { rewrite C3. exact Hn0. }
  { unfold atTop. rewrite C4, C5, C6. exact Htop. }
  exists s1. eexists. split; [exact Hcall|].
  unfold computeForceTorque at 1.
  rewrite P2, P3, C1, C2, Hfind.
  unfold asBodyA. rewrite P4, R1, P6, P7, R2, R3.
  assert (Hin : Qleb currentTime (currentTime + timeStep + 1e-15) = true)
    by (apply Qleb_le; revert Hdt;
        change (-1e-15) with (-1 # 1000000000000000);
        change 1e-15 with (1 # 1000000000000000); intro; lra).
  rewrite Hin, Qabs_self_difference. cbn [andb].
  split; [reflexivity|].
  cbn [forceExternal_N torqueExternalPntB_B set_outputs].
  unfold body in *. rewrite P1. split; assumption.
Qed.

(** X15.  Action and reaction.  When a call solves the impact of the pair
    (A, B) with a non-zero [timeStep], the entry it appends to the queue of
    body B is the impulse opposite to the one it applies to body A: the
    queued vector is -timeStep * forceExternal_N, and it is queued for the
    time and the step of the call. *)
Theorem solve_queues_opposite_impulse (s : RigidBodyContactEffector) (g : Rng)
  (currentTime timeStep : Q) (p : nat * nat) :
  let s0 := prologue s currentTime timeStep in
  let found := snd (manifold s0 p currentTime timeStep) in
  find (fun q => (Z.of_nat (fst q) =? currentBodyInCycle s0)%Z) (closeBodies s0)
  = Some p ->
  responseFound s0 = false -> lockedToRand s0 = false ->
  impacts found <> [] -> currentMaxError found <= maxPosError s ->
  (fst p < length (Bodies s))%nat -> (snd p < length (Bodies s))%nat ->
  fst p <> snd p ->
  ~ timeStep == 0 ->
  exists s1,
    computeForceTorque s g currentTime timeStep = (Solved, s1, g) /\
    veq (last (Body.forceExternal_N (body s1 (snd p))) vzero)
        (vneg (vscale (forceExternal_N s1) timeStep)) /\
    last (Body.impactTimes (body s1 (snd p))) 0 = currentTime /\
    last (Body.impactTimeSteps (body s1 (snd p))) 0 = timeStep.
Proof.
  intros s0 found Hfind Hresp Hlock Himp Herr HA HB Hne Hdt.
  pose proof (computeForceTorque_solves s g currentTime timeStep p
                Hfind Hresp Hlock Himp Herr) as Hcall.
  destruct (solved_state s currentTime timeStep p Herr HA HB Hne)
    as (_ & _ & _ & _ & _ & R6 & R7 & R8 & _).
  eexists. split; [exact Hcall|]. split; [exact (R6 Hdt)|]. split; assumption.
Qed.

End ForceTorqueReplay.

Lemma solved_response_is_replayed_witness :
  exists s1 s2,
    @computeForceTorque exampleExtern hitScene exampleTape 0 (1#100)
    = (Solved, s1, exampleTape) /\
    @computeForceTorque exampleExtern s1 exampleTape 0 (1#100)
    = (ReplayA, s2, exampleTape) /\
    forceExternal_N s2 = forceExternal_N s1 /\
    torqueExternalPntB_B s2 = torqueExternalPntB_B s1.
Proof.
  apply (@solved_response_is_replayed exampleExtern hitScene exampleTape
           0 (1#100) (0, 1)%nat).
  - vm_compute. reflexivity.
  - vm_compute. reflexivity.
  - vm_compute. reflexivity.
  - vm_compute. discriminate.
  - vm_compute. discriminate.
  - vm_compute. lia.
  - vm_compute. lia.
  - discriminate.
  - vm_compute. discriminate.
  - intros _. vm_compute. reflexivity.
Defined.

Lemma solve_queues_opposite_impulse_witness :
  exists s1,
    @computeForceTorque exampleExtern hitScene exampleTape 0 (1#100)
    = (Solved, s1, exampleTape) /\
    veq (last (Body.forceExternal_N (body s1 1)) vzero)
        (vneg (vscale (forceExternal_N s1) (1#100))) /\
    last (Body.impactTimes (body s1 1)) 0 = 0 /\
    last (Body.impactTimeSteps (body s1 1)) 0 = (1#100).
Proof.
  apply (@solve_queues_opposite_impulse exampleExtern hitScene exampleTape
           0 (1#100) (0, 1)%nat).
  - vm_compute. reflexivity.
  - vm_compute. reflexivity.
  - vm_compute. reflexivity.
  - vm_compute. discriminate.
  - vm_compute. discriminate.
  - vm_compute. lia.
  - vm_compute. lia.
  - discriminate.
  - vm_compute. discriminate.
Defined.

(** *** The turn of a body in the cycle *)

(** The first call of a macro step moves the cycle on to the next body. *)
Lemma prologue_first (s : RigidBodyContactEffector) (t dt : Q) :
  newMacroTimeStep s = true ->
  Body.isSpice (bodyAt s (currentBodyInCycle s + 1)) = false ->
  prologue s t dt
  = set_lockedToRand
      (set_responseFound
         (set_cycle (set_currentMinError (set_outputs s vzero vzero vzero) 100)
                    (currentBodyInCycle s + 1) false t dt true)
         false)
      false.
Proof.
  intros Hn Hs. unfold prologue. cbv zeta.
  cbn [newMacroTimeStep set_currentMinError set_outputs]. rewrite Hn.
  cbn [topTime topTimeStep secondInter set_cycle].
  rewrite !Qabs_self_difference. cbn [andb].
  cbn [currentBodyInCycle set_cycle set_currentMinError set_outputs].
  change (bodyAt (set_cycle _ _ _ _ _ _) ?c) with (bodyAt s c).
  rewrite Hs. reflexivity.
Qed.

(** The second call at the top of the macro step stays with the body. *)
Lemma prologue_second (s : RigidBodyContactEffector) (t dt : Q) :
  newMacroTimeStep s = false -> atTop s t dt = true -> secondInter s = true ->
  prologue s t dt
  = set_cycle (set_currentMinError (set_outputs s vzero vzero vzero) 100)
              (currentBodyInCycle s) false (topTime s) (topTimeStep s) false.
Proof.
  intros Hn Ht Hs. unfold prologue. cbv zeta.
  cbn [newMacroTimeStep set_currentMinError set_outputs]. rewrite Hn.
  cbn [topTime topTimeStep secondInter set_currentMinError set_outputs].
  fold (atTop s t dt). rewrite Ht, Hs.
  cbn [currentBodyInCycle newMacroTimeStep set_currentMinError set_outputs].
  rewrite Hn. reflexivity.
Qed.

(** The third call at the top of the macro step moves on to the next body. *)
Lemma prologue_third (s : RigidBodyContactEffector) (t dt : Q) :
  newMacroTimeStep s = false -> atTop s t dt = true -> secondInter s = false ->
  Body.isSpice (bodyAt s (currentBodyInCycle s + 1)) = false ->
  prologue s t dt
  = set_lockedToRand
      (set_responseFound
         (set_cycle (set_currentMinError (set_outputs s vzero vzero vzero) 100)
                    (currentBodyInCycle s + 1) false (topTime s) (topTimeStep s) true)
         false)
      false.
Proof.
  intros Hn Ht Hs Hb. unfold prologue. cbv zeta.
  cbn [newMacroTimeStep set_currentMinError set_outputs]. rewrite Hn.
  cbn [topTime topTimeStep secondInter set_currentMinError set_outputs].
  fold (atTop s t dt). rewrite Ht, Hs.
  cbn [currentBodyInCycle newMacroTimeStep set_currentMinError set_outputs].
  change (bodyAt (set_currentMinError _ _) ?c) with (bodyAt s c).
  rewrite Hb, Hn. reflexivity.
Qed.

Section ForceTorqueCycle.
Context {E : Extern}.

(** The narrow phase reads the bodies, [currentSimSeconds] and
    [maxPosError] only. *)
Lemma manifold_reads (s s' : RigidBodyContactEffector) (p : nat * nat) (t dt : Q) :
  Bodies s' = Bodies s -> currentSimSeconds s' = currentSimSeconds s ->
  maxPosError s' = maxPosError s ->
  manifold s' p t dt = manifold s p t dt.
Proof.
  intros Hb Hc Hm. unfold manifold, body. rewrite Hb, Hc, Hm. reflexivity.
Qed.

(** What the solve queues for the second body of the pair. *)
Lemma solveImpacts_second_body (s : RigidBodyContactEffector) (p : nat * nat)
  (c1 c2 : dynamicData) (found : search) (t dt : Q) :
  (snd p < length (Bodies s))%nat -> fst p <> snd p ->
  Qleb (currentMaxError found) (maxPosError s) = true ->
  let s' := solveImpacts s p c1 c2 found t dt in
  timeSynchTol s' = timeSynchTol s /\
  exists forceOther torqueOther,
    body s' (snd p)
    = Body.set_queues (body s (snd p))
        (Body.forceExternal_N (body s (snd p)) ++ [forceOther])
        (Body.torqueExternalPntB_B (body s (snd p)) ++ [torqueOther])
        (Body.impactTimes (body s (snd p)) ++ [t])
        (Body.impactTimeSteps (body s (snd p)) ++ [dt]) /\
    (~ dt == 0 ->
     veq (vadd (vscale (forceExternal_N s') dt) forceOther)
         (vscale (forceExternal_N s) dt)).
Proof.
  intros HB Hne Hq. cbv zeta. unfold solveImpacts. cbv zeta.
  match goal with
  | |- context [fold_left (extractStep ?d ?i ?x c1 c2 dt) ?l ?a] =>
      pose proof (fun H => extract_fold_balance d i x c1 c2 dt l H a) as Hbal;
      destruct (fold_left (extractStep d i x c1 c2 dt) l a)
        as [[[force torque] forceOther] torqueOther]
  end.
  cbv zeta in Hbal. cbn [fst snd] in Hbal.
  cbn [maxPosError set_outputs]. rewrite Hq.
  split; [reflexivity|]. exists forceOther, torqueOther.
  unfold body. cbn [Bodies set_Bodies set_found set_responseFound set_outputs
                    forceExternal_N].
  split.
  - rewrite nth_update_same by (rewrite !update_length; exact HB).
    rewrite (nth_update_other _ _ _ (fst p) (snd p)) by congruence.
    rewrite nth_update_same by (rewrite !update_length; exact HB).
    rewrite (nth_update_other _ _ _ (fst p) (snd p)) by congruence.
    reflexivity.
  - intro Hdt. destruct (Hbal Hdt) as (Hx & Hy & Hz).
    unfold veq, vadd, vscale, vzero in *. cbn [vx vy vz] in *.
    repeat split; lra.
Qed.

End ForceTorqueCycle.

Section ForceTorqueReaction.
Context {E : Extern}.

(** X16.  The reaction reaches the other body.  At the start of a macro
    step with one close pair (A, A+1) of bodies that are not Spice bodies
    and with empty queues for body A+1, let the narrow phase find a contact
    within the position bound.  Then three calls in a row at the same
    (currentTime, timeStep) solve the impact for body A, replay it for
    body A and then give body A+1 the opposite force:
    forceExternal_N of the third call is minus that of the first one. *)
Theorem reaction_reaches_the_other_body (s : RigidBodyContactEffector) (g : Rng)
  (currentTime timeStep : Q) (A : nat) :
  let p := (A, S A) in
  let found := snd (manifold s p currentTime timeStep) in
  newMacroTimeStep s = true ->
  (currentBodyInCycle s + 1)%Z = Z.of_nat A ->
  closeBodies s = [p] ->
  (S A < length (Bodies s))%nat ->
  Body.isSpice (body s A) = false ->
  Body.isSpice (body s (S A)) = false ->
  Body.forceExternal_N (body s (S A)) = [] ->
  Body.impactTimes (body s (S A)) = [] ->
  Body.impactTimeSteps (body s (S A)) = [] ->
  impacts found <> [] ->
  currentMaxError found <= maxPosError s ->
  0 < timeSynchTol s ->
  0 < timeStep ->
  exists s1 s2 s3,
    computeForceTorque s g currentTime timeStep = (Solved, s1, g) /\
    computeForceTorque s1 g currentTime timeStep = (ReplayA, s2, g) /\
    computeForceTorque s2 g currentTime timeStep = (SynchB, s3, g) /\
    veq (forceExternal_N s3) (vneg (forceExternal_N s1)).
Proof.
  intros p found Hnew Hcur Hclose Hlen HspA HspB HqF HqT HqS Himp Herr Htol Hdt.
  set (t := currentTime) in *. set (dt := timeStep) in *.
  assert (Hat : forall s c, bodyAt s (Z.of_nat c) = body s c).
  { intros s' c. unfold bodyAt.
    destruct (Z.of_nat c <? 0)%Z eqn:Hneg; [apply Z.ltb_lt in Hneg; lia|].
    now rewrite Nat2Z.id. }
  (* the first call *)
  assert (H0 : prologue s t dt
               = set_lockedToRand
                   (set_responseFound
                      (set_cycle (set_currentMinError (set_outputs s vzero vzero vzero) 100)
                                 (Z.of_nat A) false t dt true) false) false).
  { rewrite <- Hcur. apply prologue_first; [exact Hnew|].
    rewrite Hcur, Hat. exact HspA. }
  set (s0 := prologue s t dt) in *.
  assert (Hman : manifold s0 p t dt = manifold s p t dt).
  { apply manifold_reads; rewrite H0; reflexivity. }
  pose proof (computeForceTorque_solves s g t dt p) as Hcall1.
  cbv zeta in Hcall1. fold s0 in Hcall1. rewrite Hman in Hcall1.
  specialize (Hcall1).
  assert (Hfind : find (fun q => (Z.of_nat (fst q) =? currentBodyInCycle s0)%Z)
                       (closeBodies s0) = Some p).
  { rewrite H0. cbn [closeBodies currentBodyInCycle set_lockedToRand set_responseFound
                     set_cycle set_currentMinError set_outputs].
    rewrite Hclose. cbn [find fst p]. now rewrite Z.eqb_refl. }
  specialize (Hcall1 Hfind).
  assert (Hresp0 : responseFound s0 = false) by (rewrite H0; reflexivity).
  assert (Hlock0 : lockedToRand s0 = false) by (rewrite H0; reflexivity).
  specialize (Hcall1 Hresp0 Hlock0 Himp Herr).
  set (m := manifold s p t dt) in *.
  set (sm := set_currentMinError s0 (minError (snd m))) in *.
  set (s1 := solveImpacts sm p (fst (fst m)) (snd (fst m)) (snd m) t dt) in *.
  assert (HBodies0 : Bodies sm = Bodies s) by (unfold sm; rewrite H0; reflexivity).
  assert (Hmax0 : maxPosError sm = maxPosError s) by (unfold sm; rewrite H0; reflexivity).
  assert (Hq : Qleb (currentMaxError (snd m)) (maxPosError sm) = true)
    by (rewrite Hmax0; apply Qleb_le, Herr).
  assert (Hne : fst p <> snd p) by (cbn; lia).
  assert (Hnz : ~ dt == 0) by lra.
  destruct (solveImpacts_frame sm p (fst (fst m)) (snd (fst m)) (snd m) t dt)
    as (_ & Hcyc & Hlen1).
  destruct (solveImpacts_stores sm p (fst (fst m)) (snd (fst m)) (snd m) t dt)
    as (R1 & R2 & R3 & R4 & _); [rewrite HBodies0; cbn; lia|rewrite HBodies0; exact Hlen|
                                 exact Hne|exact Hq|].
  destruct (solveImpacts_second_body sm p (fst (fst m)) (snd (fst m)) (snd m) t dt)
    as (Rtol & fo & to & RB & Rbal); [rewrite HBodies0; exact Hlen|exact Hne|exact Hq|].
  fold s1 in Hcyc, Hlen1, R1, R2, R3, R4, Rtol, RB, Rbal.
  specialize (Rbal Hnz).
  unfold cycleData in Hcyc. injection Hcyc as C1 C2 C3 C4 C5 C6.
  unfold sm in C1, C2, C3, C4, C5, C6, R4, Rtol. rewrite H0 in C1, C2, C3, C4, C5, C6, R4, Rtol.
  cbn [closeBodies currentBodyInCycle newMacroTimeStep topTime topTimeStep secondInter
       lockedToRand timeSynchTol
       set_lockedToRand set_responseFound set_cycle set_currentMinError set_outputs]
    in C1, C2, C3, C4, C5, C6, R4, Rtol.
  assert (Finit : forceExternal_N sm = vzero) by (unfold sm; rewrite H0; reflexivity).
  assert (RB' : body s1 (S A)
                = Body.set_queues (body s (S A)) [fo]
                    (Body.torqueExternalPntB_B (body s (S A)) ++ [to]) [t] [dt]).
  { change (S A) with (snd p) at 1. rewrite RB. unfold body. rewrite HBodies0.
    cbn [snd p]. fold (body s (S A)). rewrite HqF, HqT, HqS. reflexivity. }
  clear RB.
  (* the second call *)
  assert (Htop1 : atTop s1 t dt = true).
  { unfold atTop. rewrite C4, C5, !Qabs_self_difference. reflexivity. }
  pose proof (prologue_second s1 t dt C3 Htop1 C6) as H1.
  rewrite C2, C4, C5 in H1.
  set (s1p := set_cycle (set_currentMinError (set_outputs s1 vzero vzero vzero) 100)
                        (Z.of_nat A) false t dt false) in *.
  set (s2 := set_outputs s1p (last (Body.forceExternal_N (body s1p A)) vzero)
                         (forceExternal_B s1p)
                         (last (Body.torqueExternalPntB_B (body s1p A)) vzero)).
  assert (Hcall2 : computeForceTorque s1 g t dt = (ReplayA, s2, g)).
  { unfold computeForceTorque. rewrite H1.
    change (closeBodies s1p) with (closeBodies s1).
    change (currentBodyInCycle s1p) with (Z.of_nat A).
    rewrite C1, Hclose. cbn [find fst p]. rewrite Z.eqb_refl.
    unfold asBodyA. change (responseFound s1p) with (responseFound s1).
    change (timeFound s1p) with (timeFound s1).
    change (integrateTimeStep s1p) with (integrateTimeStep s1).
    rewrite R1, R2, R3, Qabs_self_difference.
    assert (Hin : Qleb t (t + dt + 1e-15) = true).
    { apply Qleb_le. change 1e-15 with (1 # 1000000000000000). lra. }
    rewrite Hin. reflexivity. }
  (* the third call *)
  assert (HB2 : body s2 (S A) = body s1 (S A)) by reflexivity.
  assert (H2 : prologue s2 t dt
               = set_lockedToRand
                   (set_responseFound
                      (set_cycle (set_currentMinError (set_outputs s2 vzero vzero vzero) 100)
                                 (Z.of_nat (S A)) false t dt true) false) false).
  { pose proof (prologue_third s2 t dt) as H.
    change (newMacroTimeStep s2) with false in H.
    change (secondInter s2) with false in H.
    change (currentBodyInCycle s2) with (Z.of_nat A) in H.
    change (topTime s2) with t in H. change (topTimeStep s2) with dt in H.
    replace (Z.of_nat A + 1)%Z with (Z.of_nat (S A)) in H by lia.
    rewrite Hat in H. apply H; try reflexivity.
    - unfold atTop. change (topTime s2) with t. change (topTimeStep s2) with dt.
      rewrite !Qabs_self_difference. reflexivity.
    - rewrite HB2, RB'. exact HspB. }
  set (s2p := set_lockedToRand _ false) in H2.
  assert (HB3 : body s2p (S A) = body s1 (S A)) by reflexivity.
  exists s1. exists s2. eexists. split; [exact Hcall1|]. split; [exact Hcall2|].
  unfold computeForceTorque. rewrite H2.
  change (closeBodies s2p) with (closeBodies s1).
  change (currentBodyInCycle s2p) with (Z.of_nat (S A)).
  rewrite C1, Hclose. cbn [find fst p].
  destruct (Z.eqb_spec (Z.of_nat A) (Z.of_nat (S A))) as [Heq|_]; [lia|].
  cbn [asBodyB snd p].
  change (currentBodyInCycle s2p) with (Z.of_nat (S A)).
  rewrite Z.eqb_refl. cbn [negb]. cbv zeta. rewrite HB3, RB'.
  cbn [Body.forceExternal_N Body.impactTimes Body.impactTimeSteps
       Body.torqueExternalPntB_B Body.set_queues length Nat.eqb nth].
  change (responseFound s2p) with false. change (lockedToRand s2p) with false.
  cbn [andb]. change (timeSynchTol s2p) with (timeSynchTol s1). rewrite Rtol.
  assert (Hsyn : forall x, Qltb (Qabs (x - x)) (timeSynchTol s) = true).
  { intro x. apply Qltb_lt. assert (Hx : x - x == 0) by ring. rewrite Hx. exact Htol. }
  rewrite !Hsyn. cbn [andb]. split; [reflexivity|].
  cbn [forceExternal_N set_outputs integrateTimeStep set_found].
  rewrite Finit in Rbal. destruct Rbal as (Bx & By & Bz).
  unfold veq, vdiv, vneg, vadd, vscale, vzero in *. cbn [vx vy vz] in *.
  repeat split.
  - assert (Hf : vx fo == - (vx (forceExternal_N s1) * dt)) by lra.
    rewrite Hf. field. exact Hnz.
  - assert (Hf : vy fo == - (vy (forceExternal_N s1) * dt)) by lra.
    rewrite Hf. field. exact Hnz.
  - assert (Hf : vz fo == - (vz (forceExternal_N s1) * dt)) by lra.
    rewrite Hf. field. exact Hnz.
Qed.

End ForceTorqueReaction.

Lemma reaction_reaches_the_other_body_witness :
  exists s1 s2 s3,
    @computeForceTorque exampleExtern hitScene exampleTape 0 (1#100)
    = (Solved, s1, exampleTape) /\
    @computeForceTorque exampleExtern s1 exampleTape 0 (1#100)
    = (ReplayA, s2, exampleTape) /\
    @computeForceTorque exampleExtern s2 exampleTape 0 (1#100)
    = (SynchB, s3, exampleTape) /\
    veq (forceExternal_N s3) (vneg (forceExternal_N s1)).
Proof.
  apply (@reaction_reaches_the_other_body exampleExtern hitScene exampleTape
           0 (1#100) 0%nat).
  - reflexivity.
  - reflexivity.
  - reflexivity.
  - vm_compute. lia.
  - reflexivity.
  - reflexivity.
  - reflexivity.
  - reflexivity.
  - reflexivity.
  - vm_compute. discriminate.
  - vm_compute. discriminate.
  - reflexivity.
  - reflexivity.
Defined.

(** *** The response replayed for the second body *)

Section ForceTorqueSynch.
Context {E : Extern}.

Lemma asBodyA_not_SynchB (s : RigidBodyContactEffector) (g : Rng) (bodyPair : nat * nat)
  (t dt : Q) :
  fst (fst (asBodyA s g bodyPair t dt)) <> SynchB.
Proof.
  unfold asBodyA.
  destruct (responseFound s).
  - destruct (_ && _); discriminate.
  - destruct (manifold s bodyPair t dt) as [[c1 c2] found].
    destruct (length (impacts found) =? 0)%nat; [discriminate|].
    cbn -[Qltb Qabs Qminus drawRejection solveImpacts].
    destruct (lockedToRand s && _).
    + rewrite drawRejection_spec. discriminate.
    + destruct (Qltb _ (currentMaxError found)).
      * rewrite drawRejection_spec. discriminate.
      * discriminate.
Qed.

Lemma asBodyB_synch (bodyPairs : list (nat * nat)) (t dt : Q) :
  forall (s s1 : RigidBodyContactEffector) (g g1 : Rng),
    asBodyB s g bodyPairs t dt = (SynchB, s1, g1) ->
    exists B,
      Z.of_nat B = currentBodyInCycle s /\
      (exists p, In p bodyPairs /\ snd p = B) /\
      Body.forceExternal_N (body s B) <> [] /\
      Bodies s1 = Bodies s /\
      responseFound s1 = true /\ timeFound s1 = t + dt + 1e-15 /\
      integrateTimeStep s1 = dt /\
      forceExternal_N s1 = vdiv (nth 0 (Body.forceExternal_N (body s B)) vzero) dt /\
      torqueExternalPntB_B s1
      = vdiv (nth 0 (Body.torqueExternalPntB_B (body s B)) vzero) dt.
Proof.
  induction bodyPairs as [|p rest IH]; intros s s1 g g1 H; [discriminate|].
  cbn [asBodyB] in H.
  destruct (Z.of_nat (snd p) =? currentBodyInCycle s)%Z eqn:Hp; cbn [negb] in H.
  2:{ destruct (IH _ _ _ _ H) as (B & HB & (q & Hq & Hq') & Hrest).
      exists B. split; [exact HB|]. split; [|exact Hrest].
      exists q. split; [right; exact Hq|exact Hq']. }
  apply Z.eqb_eq in Hp. cbv zeta in H.
  destruct (length (Body.forceExternal_N (body s (snd p))) =? 0)%nat eqn:Hq;
    [discriminate|].
  destruct (responseFound s); [destruct (_ && _); discriminate|].
  destruct (lockedToRand s && _); [rewrite drawRejection_spec in H; discriminate|].
  assert (Hne : Body.forceExternal_N (body s (snd p)) <> []).
  { intro H0. rewrite H0 in Hq. discriminate. }
  destruct (Qltb (Qabs (t - _)) _ && _).
  - injection H as <- <-. exists (snd p). split; [exact Hp|].
    split; [exists p; split; [left; reflexivity|reflexivity]|].
    split; [exact Hne|].
    destruct (lockedToRand s); repeat split.
  - destruct (Qltb _ (t + dt)); [rewrite drawRejection_spec in H; discriminate|].
    destruct (IH _ _ _ _ H) as (B & HB & (q & Hq1 & Hq2) & Hrest).
    exists B.
    assert (Hsame : (if lockedToRand s then set_lockedToRand s false else s)
                    = set_lockedToRand s (if lockedToRand s then false
                                          else lockedToRand s)).
    { destruct s as [? ? ? ? ? l]. destruct l; reflexivity. }
    rewrite Hsame in HB, Hrest.
    split; [exact HB|]. split; [exists q; split; [right; exact Hq1|exact Hq2]|].
    exact Hrest.
Qed.

Lemma asBodyB_replay (bodyPairs : list (nat * nat)) (t dt : Q)
  (s : RigidBodyContactEffector) (g : Rng) (B : nat) :
  Z.of_nat B = currentBodyInCycle s ->
  (exists p, In p bodyPairs /\ snd p = B) ->
  Body.forceExternal_N (body s B) <> [] ->
  responseFound s = true ->
  Qleb t (timeFound s) && Qltb (Qabs (dt - integrateTimeStep s)) 1e-15 = true ->
  asBodyB s g bodyPairs t dt
  = (ReplayB,
     set_outputs s
       (vdiv (nth 0 (Body.forceExternal_N (body s B)) vzero) (integrateTimeStep s))
       (forceExternal_B s)
       (vdiv (nth 0 (Body.torqueExternalPntB_B (body s B)) vzero) (integrateTimeStep s)),
     g).
Proof.
  intros HB (q & Hq & Hq') Hne Hresp Hwin.
  induction bodyPairs as [|p rest IH]; [destruct Hq|].
  cbn [asBodyB].
  destruct (Z.of_nat (snd p) =? currentBodyInCycle s)%Z eqn:Hp; cbn [negb].
  - apply Z.eqb_eq in Hp. rewrite <- HB in Hp. apply Nat2Z.inj in Hp.
    cbv zeta. rewrite Hp.
    destruct (Body.forceExternal_N (body s B)) as [|f0 fs] eqn:Hf; [congruence|].
    cbn [length Nat.eqb]. rewrite Hresp, Hwin. reflexivity.
  - destruct Hq as [<-|Hq].
    + rewrite Hq', HB, Z.eqb_refl in Hp. discriminate.
    + apply IH, Hq.
Qed.

(** X17.  The response delivered to the second body is replayed too.
    When a call takes the queued impulse for the current body B (the
    exit after "synch" of the second loop), the same call repeated at the
    same (currentTime, timeStep), as long as it does not move the cycle on,
    replays it: it returns the same [forceExternal_N] and
    [torqueExternalPntB_B] and takes nothing off the queue. *)
Theorem synched_response_is_replayed (s s1 : RigidBodyContactEffector) (g g1 : Rng)
  (currentTime timeStep : Q) :
  computeForceTorque s g currentTime timeStep = (SynchB, s1, g1) ->
  - 1e-15 <= timeStep ->
  (atTop s1 currentTime timeStep = true -> secondInter s1 = true) ->
  exists s2,
    computeForceTorque s1 g1 currentTime timeStep = (ReplayB, s2, g1) /\
    forceExternal_N s2 = forceExternal_N s1 /\
    torqueExternalPntB_B s2 = torqueExternalPntB_B s1 /\
    Bodies s2 = Bodies s1.
Proof.
  intros Hcall Hdt Hstay.
  pose proof (computeForceTorque_more s g currentTime timeStep) as Hmore.
  rewrite Hcall in Hmore. destruct Hmore as (_ & Hcyc & _ & _).
  unfold computeForceTorque in Hcall.
  set (s0 := prologue s currentTime timeStep) in *.
  destruct (find _ (closeBodies s0)) as [p|] eqn:Hfind.
  { pose proof (asBodyA_not_SynchB s0 g p currentTime timeStep) as Hno.
    rewrite Hcall in Hno. cbn in Hno. congruence. }
  apply asBodyB_synch in Hcall.
  destruct Hcall as (B & HB & Hpair & Hne & R0 & R1 & R2 & R3 & R4 & R5).
  unfold cycleData in Hcyc. injection Hcyc as C1 C2 C3 C4 C5 C6.
  destruct (prologue_stays s1 currentTime timeStep)
    as (P1 & P2 & P3 & P4 & _ & P6 & P7 & _).
  { rewrite C3. apply prologue_newMacroTimeStep. }
  { exact Hstay. }
  set (s1' := prologue s1 currentTime timeStep) in *.
  assert (Hbody : body s1' B = body s0 B) by (unfold body; rewrite P1, R0; reflexivity).
  assert (Hwin : Qleb currentTime (timeFound s1')
                 && Qltb (Qabs (timeStep - integrateTimeStep s1')) 1e-15 = true).
  { rewrite P6, P7, R2, R3, Qabs_self_difference.
    assert (Hin : Qleb currentTime (currentTime + timeStep + 1e-15) = true)
      by (apply Qleb_le; revert Hdt;
          change (-1e-15) with (-1 # 1000000000000000);
          change 1e-15 with (1 # 1000000000000000); intro; lra).
    rewrite Hin. reflexivity. }
  eexists. unfold computeForceTorque. fold s1'.
  rewrite P2, P3, C1, C2, Hfind.
  rewrite (asBodyB_replay (closeBodies s0) currentTime timeStep s1' g1 B).
  - split; [reflexivity|].
    cbn [forceExternal_N torqueExternalPntB_B Bodies set_outputs].
    rewrite Hbody, P7, R3, R4, R5. repeat split. exact P1.
  - rewrite P3, C2. exact HB.
  - exact Hpair.
  - rewrite Hbody. exact Hne.
  - rewrite P4. exact R1.
  - exact Hwin.
Qed.

End ForceTorqueSynch.

Lemma synchCall_eq :
  @computeForceTorque exampleExtern lateScene exampleTape (1#2) (1#100)
  = (SynchB, snd (fst synchCall), snd synchCall).
Proof. vm_compute. reflexivity. Qed.

Lemma synched_response_is_replayed_witness :
  exists s2,
    @computeForceTorque exampleExtern (snd (fst synchCall)) (snd synchCall)
                        (1#2) (1#100)
    = (ReplayB, s2, snd synchCall) /\
    forceExternal_N s2 = forceExternal_N (snd (fst synchCall)) /\
    torqueExternalPntB_B s2 = torqueExternalPntB_B (snd (fst synchCall)) /\
    Bodies s2 = Bodies (snd (fst synchCall)).
Proof.
  apply (@synched_response_is_replayed exampleExtern lateScene (snd (fst synchCall))
           exampleTape (snd synchCall) (1#2) (1#100) synchCall_eq).
  - vm_compute. discriminate.
  - intro H. vm_compute in H. discriminate.
Defined.

(** *** The second body before the impact is solved *)

Section ForceTorqueWaiting.
Context {E : Extern}.

Lemma asBodyB_waits (bodyPairs : list (nat * nat)) (t dt : Q)
  (s : RigidBodyContactEffector) (g : Rng) :
  (forall p, In p bodyPairs -> Z.of_nat (snd p) = currentBodyInCycle s ->
             Body.forceExternal_N (body s (snd p)) = []) ->
  (asBodyB s g bodyPairs t dt = (EmptyQueueB, s, g) /\
   exists p, In p bodyPairs /\ Z.of_nat (snd p) = currentBodyInCycle s) \/
  (asBodyB s g bodyPairs t dt = (Fallthrough, s, g) /\
   forall p, In p bodyPairs -> Z.of_nat (snd p) <> currentBodyInCycle s).
Proof.
  induction bodyPairs as [|p rest IH]; intro H.
  - right. split; [reflexivity|intros p []].
  - cbn [asBodyB].
    destruct (Z.of_nat (snd p) =? currentBodyInCycle s)%Z eqn:Hp; cbn [negb].
    + apply Z.eqb_eq in Hp. left. cbv zeta.
      rewrite (H p (or_introl eq_refl) Hp). cbn [length Nat.eqb].
      split; [reflexivity|]. exists p. split; [left; reflexivity|exact Hp].
    + apply Z.eqb_neq in Hp.
      destruct IH as [(I1 & q & Hq & Hq')|(I1 & I2)].
      * intros q Hq. apply H. right. exact Hq.
      * left. split; [exact I1|]. exists q. split; [right; exact Hq|exact Hq'].
      * right. split; [exact I1|]. intros q [<-|Hq]; [exact Hp|apply I2, Hq].
Qed.

(** X13.  The second body of a pair feels nothing before the impact is
    solved: when the current body of the cycle is the first body of no
    close pair and nothing is queued for it, the call returns zero force
    and torque, draws no random number and changes nothing beyond what
    the head of the function sets; it leaves where the second loop finds
    the queue empty when the body is the second body of a pair. *)
Theorem computeForceTorque_nothing_queued (s : RigidBodyContactEffector) (g : Rng)
  (currentTime timeStep : Q) :
  let s0 := prologue s currentTime timeStep in
  (forall p, In p (closeBodies s) -> Z.of_nat (fst p) <> currentBodyInCycle s0) ->
  (forall p, In p (closeBodies s) -> Z.of_nat (snd p) = currentBodyInCycle s0 ->
             Body.forceExternal_N (body s (snd p)) = []) ->
  computeForceTorque s g currentTime timeStep
  = (if existsb (fun p => (Z.of_nat (snd p) =? currentBodyInCycle s0)%Z) (closeBodies s)
     then EmptyQueueB else Fallthrough, s0, g) /\
  forceExternal_N s0 = vzero /\ torqueExternalPntB_B s0 = vzero /\
  Bodies s0 = Bodies s.
Proof.
  intros s0 Hfst Hsnd.
  pose proof (prologue_givenData s currentTime timeStep) as Hg.
  unfold givenData in Hg. fold s0 in Hg.
  injection Hg as Hb Hc _ _ _ _ _ _ _ _ _ _ _ _.
  destruct (prologue_outputs s currentTime timeStep) as (O1 & _ & O3).
  fold s0 in O1, O3.
  split; [|auto].
  unfold computeForceTorque. fold s0. rewrite Hc.
  rewrite find_nothing by (intros p Hp; apply Z.eqb_neq, Hfst, Hp).
  destruct (asBodyB_waits (closeBodies s) currentTime timeStep s0 g)
    as [(H1 & q & Hq & Hq')|(H1 & H2)].
  - intros p Hp Hcur. unfold body. rewrite Hb. apply (Hsnd p Hp Hcur).
  - rewrite H1.
    assert (Hex : existsb (fun p => (Z.of_nat (snd p) =? currentBodyInCycle s0)%Z)
                          (closeBodies s) = true).
    { apply existsb_exists. exists q. split; [exact Hq|apply Z.eqb_eq, Hq']. }
    rewrite Hex. reflexivity.
  - rewrite H1.
    assert (Hex : existsb (fun p => (Z.of_nat (snd p) =? currentBodyInCycle s0)%Z)
                          (closeBodies s) = false).
    { destruct (existsb _ _) eqn:Hx; [|reflexivity].
      apply existsb_exists in Hx. destruct Hx as (q & Hq & Hq').
      apply Z.eqb_eq in Hq'. destruct (H2 q Hq Hq'). }
    rewrite Hex. reflexivity.
Qed.

End ForceTorqueWaiting.

Lemma computeForceTorque_nothing_queued_witness :
  let s0 := prologue waitingScene (1#2) (1#100) in
  @computeForceTorque exampleExtern waitingScene exampleTape (1#2) (1#100)
  = (if existsb (fun p => (Z.of_nat (snd p) =? currentBodyInCycle s0)%Z)
                (closeBodies waitingScene)
     then EmptyQueueB else Fallthrough, s0, exampleTape) /\
  forceExternal_N s0 = vzero /\ torqueExternalPntB_B s0 = vzero /\
  Bodies s0 = Bodies waitingScene.
Proof.
  apply (@computeForceTorque_nothing_queued exampleExtern waitingScene exampleTape
           (1#2) (1#100)).
  - intros p [<-|[]]. vm_compute. discriminate.
  - intros p [<-|[]] _. reflexivity.
Defined.

(** *** The cycle over the bodies *)

Section ForceTorqueCycleOrder.
Context {E : Extern}.

Lemma solveImpacts_spice (s : RigidBodyContactEffector) (p : nat * nat)
  (c1 c2 : dynamicData) (found : search) (t dt : Q) :
  map Body.isSpice (Bodies (solveImpacts s p c1 c2 found t dt))
  = map Body.isSpice (Bodies s).
Proof.
  unfold solveImpacts. cbv zeta.
  destruct (fold_left _ _ _) as [[[force torque] forceOther] torqueOther].
  destruct (Qleb _ _); [|reflexivity].
  cbn [Bodies set_Bodies set_found set_responseFound set_outputs].
  rewrite !map_update by reflexivity. reflexivity.
Qed.

Lemma asBodyA_spice (s : RigidBodyContactEffector) (g : Rng) (bodyPair : nat * nat)
  (t dt : Q) :
  map Body.isSpice (Bodies (snd (fst (asBodyA s g bodyPair t dt))))
  = map Body.isSpice (Bodies s).
Proof.
  unfold asBodyA.
  destruct (responseFound s).
  - destruct (_ && _); reflexivity.
  - destruct (manifold s bodyPair t dt) as [[c1 c2] found].
    destruct (length (impacts found) =? 0)%nat; [reflexivity|].
    cbn -[Qltb Qabs Qminus drawRejection solveImpacts].
    destruct (lockedToRand s && _).
    + rewrite drawRejection_spec. reflexivity.
    + destruct (Qltb _ (currentMaxError found)).
      * rewrite drawRejection_spec. destruct (lockedToRand s); reflexivity.
      * cbn [fst snd]. rewrite solveImpacts_spice.
        destruct (lockedToRand s); reflexivity.
Qed.

Lemma asBodyB_spice (bodyPairs : list (nat * nat)) (t dt : Q) :
  forall (s : RigidBodyContactEffector) (g : Rng),
    map Body.isSpice (Bodies (snd (fst (asBodyB s g bodyPairs t dt))))
    = map Body.isSpice (Bodies s).
Proof.
  induction bodyPairs as [|p rest IH]; intros s g; [reflexivity|].
  cbn [asBodyB].
  destruct (negb _); [apply IH|].
  cbv zeta.
  destruct (length _ =? 0)%nat; [reflexivity|].
  destruct (responseFound s).
  - destruct (_ && _); [reflexivity|].
    cbn [fst snd Bodies set_Bodies set_responseFound].
    apply map_update. reflexivity.
  - destruct (lockedToRand s && _).
    + rewrite drawRejection_spec. reflexivity.
    + destruct (Qltb (Qabs (t - _)) _ && _).
      * destruct (lockedToRand s); reflexivity.
      * destruct (Qltb _ (t + dt)).
        -- rewrite drawRejection_spec. destruct (lockedToRand s); reflexivity.
        -- rewrite IH. destruct (lockedToRand s); reflexivity.
Qed.

Lemma computeForceTorque_spice (s : RigidBodyContactEffector) (g : Rng) (t dt : Q) :
  map Body.isSpice (Bodies (snd (fst (computeForceTorque s g t dt))))
  = map Body.isSpice (Bodies s).
Proof.
  unfold computeForceTorque.
  assert (HB : Bodies (prologue s t dt) = Bodies s).
  { pose proof (prologue_givenData s t dt) as H. unfold givenData in H.
    now injection H. }
  destruct (find _ _) as [p|].
  - rewrite asBodyA_spice, HB. reflexivity.
  - rewrite asBodyB_spice, HB. reflexivity.
Qed.

Lemma bodyAt_spice (s : RigidBodyContactEffector) (i : Z) :
  Forall (fun f => f = false) (map Body.isSpice (Bodies s)) ->
  Body.isSpice (bodyAt s i) = false.
Proof.
  intro H. unfold bodyAt. destruct (i <? 0)%Z; [reflexivity|].
  unfold body.
  destruct (nth_in_or_default (Z.to_nat i) (Bodies s) noBody) as [Hin|Hd].
  - rewrite Forall_forall in H. apply H. apply in_map. exact Hin.
  - rewrite Hd. reflexivity.
Qed.

(** The cycle after [n] calls at the top of the macro step. *)
Lemma repeatedCalls_cycle (t dt : Q) (n : nat) :
  forall (s : RigidBodyContactEffector) (g : Rng),
    Forall (fun f => f = false) (map Body.isSpice (Bodies s)) ->
    newMacroTimeStep s = false -> topTime s = t -> topTimeStep s = dt ->
    let s' := fst (repeatedCalls n s g t dt) in
    let turns := if secondInter s then (n / 2)%nat else ((n + 1) / 2)%nat in
    currentBodyInCycle s' = (currentBodyInCycle s + Z.of_nat turns)%Z.
Proof.
  induction n as [|n IH]; intros s g Hsp Hn Ht Hdt; cbv zeta.
  { cbn [repeatedCalls fst]. destruct (secondInter s); cbn; lia. }
  cbn [repeatedCalls].
  pose proof (computeForceTorque_more s g t dt) as Hmore.
  pose proof (computeForceTorque_spice s g t dt) as Hspice.
  destruct (computeForceTorque s g t dt) as [[e s1] g1].
  cbn [fst snd] in Hspice. destruct Hmore as (_ & Hcyc & _ & _).
  apply cycleData_eq in Hcyc. destruct Hcyc as (_ & C2 & C3 & C4 & C5 & C6).
  assert (Htop : atTop s t dt = true).
  { unfold atTop. rewrite Ht, Hdt, !Qabs_self_difference. reflexivity. }
  assert (Hsp1 : Forall (fun f => f = false) (map Body.isSpice (Bodies s1)))
    by (rewrite Hspice; exact Hsp).
  specialize (IH s1 g1 Hsp1). cbv zeta in IH.
  destruct (secondInter s) eqn:Hsec.
  - pose proof (prologue_second s t dt Hn Htop Hsec) as Hp.
    rewrite Hp in C2, C3, C4, C5, C6.
    cbn [currentBodyInCycle newMacroTimeStep topTime topTimeStep secondInter set_cycle]
      in C2, C3, C4, C5, C6.
    rewrite IH by (congruence). rewrite C6, C2.
    replace ((S n) / 2)%nat with ((n + 1) / 2)%nat by (f_equal; lia). reflexivity.
  - pose proof (prologue_third s t dt Hn Htop Hsec (bodyAt_spice s _ Hsp)) as Hp.
    rewrite Hp in C2, C3, C4, C5, C6.
    cbn [currentBodyInCycle newMacroTimeStep topTime topTimeStep secondInter set_cycle
         set_lockedToRand set_responseFound] in C2, C3, C4, C5, C6.
    rewrite IH by (congruence). rewrite C6, C2.
    replace (S n + 1)%nat with (1 * 2 + n)%nat by lia.
    rewrite Nat.div_add_l by discriminate. lia.
Qed.

(** X29.  Two calls a body.  From the start of a macro step
    ([newMacroTimeStep] set, [currentBodyInCycle] = -1, as [UpdateState]
    leaves them) and with no Spice body, calls made in a row with the same
    time and step move the cycle on at every second call: after [n] calls
    the current body is body (n + 1) / 2 - 1, whatever the calls found and
    returned.  The statement stays within the bodies, n <= 2 *
    [Bodies.size()], where the cycle reads [Bodies] in range. *)
Theorem cycle_gives_each_body_two_calls (s : RigidBodyContactEffector) (g : Rng)
  (currentTime timeStep : Q) (n : nat) :
  newMacroTimeStep s = true -> currentBodyInCycle s = (-1)%Z ->
  (forall b, In b (Bodies s) -> Body.isSpice b = false) ->
  (n <= 2 * length (Bodies s))%nat ->
  currentBodyInCycle (fst (repeatedCalls n s g currentTime timeStep))
  = (Z.of_nat ((n + 1) / 2) - 1)%Z.
Proof.
  intros Hnew Hcur Hsp _.
  assert (Hsp' : Forall (fun f => f = false) (map Body.isSpice (Bodies s))).
  { apply Forall_forall. intros f Hf. apply in_map_iff in Hf.
    destruct Hf as (b & <- & Hb). apply Hsp, Hb. }
  destruct n as [|n]; [cbn; lia|].
  cbn [repeatedCalls].
  pose proof (computeForceTorque_more s g currentTime timeStep) as Hmore.
  pose proof (computeForceTorque_spice s g currentTime timeStep) as Hspice.
  destruct (computeForceTorque s g currentTime timeStep) as [[e s1] g1].
  cbn [fst snd] in Hspice. destruct Hmore as (_ & Hcyc & _ & _).
  apply cycleData_eq in Hcyc. destruct Hcyc as (_ & C2 & C3 & C4 & C5 & C6).
  rewrite (prologue_first s currentTime timeStep Hnew (bodyAt_spice s _ Hsp'))
    in C2, C3, C4, C5, C6.
  cbn [currentBodyInCycle newMacroTimeStep topTime topTimeStep secondInter set_cycle
       set_lockedToRand set_responseFound] in C2, C3, C4, C5, C6.
  pose proof (repeatedCalls_cycle currentTime timeStep n s1 g1) as H.
  cbv zeta in H. rewrite H; [|rewrite Hspice; exact Hsp'|exact C3|exact C4|exact C5].
  rewrite C6, C2, Hcur.
  replace (S n + 1)%nat with (1 * 2 + n)%nat by lia.
  rewrite Nat.div_add_l by discriminate. lia.
Qed.

End ForceTorqueCycleOrder.

Lemma cycle_gives_each_body_two_calls_witness :
  currentBodyInCycle
    (fst (@repeatedCalls exampleExtern 3 apartScene exampleTape 0 (1#100)))
  = (Z.of_nat ((3 + 1) / 2) - 1)%Z.
Proof.
  apply (@cycle_gives_each_body_two_calls exampleExtern apartScene exampleTape
           0 (1#100) 3%nat).
  - reflexivity.
  - reflexivity.
  - intros b [<-|[<-|[]]]; reflexivity.
  - vm_compute. lia.
Defined.

(** *** The closest points of two edges *)

Lemma sum_of_squares_zero (x y z : Q) :
  x * x + y * y + z * z == 0 -> x == 0 /\ y == 0 /\ z == 0.
Proof.
  intro H.
  assert (Hx : 0 <= x * x) by nra. assert (Hy : 0 <= y * y) by nra.
  assert (Hz : 0 <= z * z) by nra.
  assert (Hx0 : x * x == 0) by lra. assert (Hy0 : y * y == 0) by lra.
  assert (Hz0 : z * z == 0) by lra.
  repeat split; nra.
Qed.

Lemma feet_balance (d1343 d4321 d1321 d4343 d2121 mua mub : Q) :
  mua * (d2121 * d4343 - d4321 * d4321) == d1343 * d4321 - d1321 * d4343 ->
  mub * d4343 == d1343 + d4321 * mua ->
  (d1321 + mua * d2121 - mub * d4321) * d4343 == 0.
Proof.
  intros Ha Hb.
  assert (Hc : mub * d4343 * d4321 == (d1343 + d4321 * mua) * d4321)
    by (rewrite Hb; reflexivity).
  nra.
Qed.

(** X18.  When [LineLineDistance] returns the flag 1, the two points it
    returns lie on the two segments (vertex1, vertex2) and (vertex3,
    vertex4), and the line through them is perpendicular to both segments:
    they are the closest points of the two lines. *)
Theorem LineLineDistance_common_perpendicular (vertex1 vertex2 vertex3 vertex4 : Vec3) :
  fst (fst (LineLineDistance vertex1 vertex2 vertex3 vertex4)) = 1%Z ->
  let pointA := snd (fst (LineLineDistance vertex1 vertex2 vertex3 vertex4)) in
  let pointB := snd (LineLineDistance vertex1 vertex2 vertex3 vertex4) in
  (exists a, (0 <= a <= 1) /\
             veq pointA (vadd vertex1 (vscale (vsub vertex2 vertex1) a))) /\
  (exists b, (0 <= b <= 1) /\
             veq pointB (vadd vertex3 (vscale (vsub vertex4 vertex3) b))) /\
  vdot (vsub pointA pointB) (vsub vertex2 vertex1) == 0 /\
  vdot (vsub pointA pointB) (vsub vertex4 vertex3) == 0.
Proof.
  unfold LineLineDistance. cbv zeta.
  set (line21 := vsub vertex2 vertex1).
  set (swap := Qltb (vdot line21 (vsub vertex4 vertex3)) 0).
  set (v3 := if swap then vertex4 else vertex3).
  set (v4 := if swap then vertex3 else vertex4).
  set (line13 := vsub vertex1 v3). set (line43 := vsub v4 v3).
  set (denom := vdot line21 line21 * vdot line43 line43
                - vdot line43 line21 * vdot line43 line21).
  destruct (Qltb (Qabs denom) 1e-9) eqn:Hpar.
  { repeat match goal with
           | |- context [if ?b then _ else _] => destruct b
           end; cbn [fst snd]; discriminate. }
  set (mua := (vdot line13 line43 * vdot line43 line21
               - vdot line13 line21 * vdot line43 line43) / denom).
  set (mub := (vdot line13 line43 + vdot line43 line21 * mua) / vdot line43 line43).
  cbn [fst snd].
  destruct (Qltb mua 0) eqn:Ha0; [cbn [orb]; discriminate|].
  destruct (Qltb 1 mua) eqn:Ha1; [cbn [orb]; discriminate|].
  destruct (Qltb mub 0) eqn:Hb0; [cbn [orb]; discriminate|].
  destruct (Qltb 1 mub) eqn:Hb1; [cbn [orb]; discriminate|].
  intros _.
  apply Qltb_ge in Ha0, Ha1, Hb0, Hb1, Hpar.
  assert (Hden : ~ denom == 0).
  { intro H0. rewrite H0 in Hpar. revert Hpar.
    change 1e-9 with (1 # 1000000000). cbn. intro Hpar.
    apply (Qle_not_lt _ _ Hpar). reflexivity. }
  assert (H43 : ~ vdot line43 line43 == 0).
  { intro H0. apply Hden. unfold denom.
    destruct (sum_of_squares_zero _ _ _ H0) as (Hx & Hy & Hz).
    unfold vdot. rewrite Hx, Hy, Hz. ring. }
  assert (Hmua : mua * denom == vdot line13 line43 * vdot line43 line21
                               - vdot line13 line21 * vdot line43 line43).
  { unfold mua. field. exact Hden. }
  assert (Hmub : mub * vdot line43 line43
                 == vdot line13 line43 + vdot line43 line21 * mua).
  { unfold mub. field. exact H43. }
  clearbody mua mub.
  assert (Hperp43 : vdot (vsub (vadd vertex1 (vscale line21 mua))
                               (vadd v3 (vscale line43 mub))) line43 == 0).
  { unfold vdot, vsub, vadd, vscale in *. cbn [vx vy vz] in *.
    unfold line13 in Hmub. cbn [vx vy vz] in Hmub. lra. }
  assert (Hperp21 : vdot (vsub (vadd vertex1 (vscale line21 mua))
                               (vadd v3 (vscale line43 mub))) line21 == 0).
  { assert (Hk : vdot (vsub (vadd vertex1 (vscale line21 mua))
                            (vadd v3 (vscale line43 mub))) line21
                 * vdot line43 line43 == 0).
    { assert (Hsplit : vdot (vsub (vadd vertex1 (vscale line21 mua))
                                  (vadd v3 (vscale line43 mub))) line21
                       == vdot line13 line21 + mua * vdot line21 line21
                          - mub * vdot line43 line21).
      { unfold line13, vdot, vsub, vadd, vscale. cbn [vx vy vz]. ring. }
      rewrite Hsplit.
      exact (feet_balance (vdot line13 line43) (vdot line43 line21) (vdot line13 line21)
                          (vdot line43 line43) (vdot line21 line21) mua mub Hmua Hmub). }
    destruct (Qmult_integral _ _ Hk) as [H|H]; [exact H|contradiction]. }
  split; [exists mua; split; [lra|repeat split; reflexivity]|].
  split.
  - destruct swap; subst v3 v4.
    + exists (1 - mub). split; [lra|].
      unfold line43, veq, vadd, vscale, vsub. cbn [vx vy vz]. repeat split; ring.
    + exists mub. split; [lra|]. repeat split; reflexivity.
  - split; [exact Hperp21|].
    destruct swap; subst v3 v4; [|exact Hperp43].
    unfold line43, vdot, vsub, vadd, vscale in *. cbn [vx vy vz] in *. lra.
Qed.

Lemma LineLineDistance_common_perpendicular_witness :
  let vertex1 := mkVec3 0 0 0 in
  let vertex2 := mkVec3 2 0 0 in
  let vertex3 := mkVec3 1 (-1) 1 in
  let vertex4 := mkVec3 1 1 1 in
  let pointA := snd (fst (LineLineDistance vertex1 vertex2 vertex3 vertex4)) in
  let pointB := snd (LineLineDistance vertex1 vertex2 vertex3 vertex4) in
  (exists a, (0 <= a <= 1) /\
             veq pointA (vadd vertex1 (vscale (vsub vertex2 vertex1) a))) /\
  (exists b, (0 <= b <= 1) /\
             veq pointB (vadd vertex3 (vscale (vsub vertex4 vertex3) b))) /\
  vdot (vsub pointA pointB) (vsub vertex2 vertex1) == 0 /\
  vdot (vsub pointA pointB) (vsub vertex4 vertex3) == 0.
Proof.
  apply (LineLineDistance_common_perpendicular
           (mkVec3 0 0 0) (mkVec3 2 0 0) (mkVec3 1 (-1) 1) (mkVec3 1 1 1)).
  vm_compute. reflexivity.
Defined.

(** *** [findConvexHull] *)

Lemma update_const_In {A : Type} (a x : A) (l : list A) (i : nat) :
  In x (update l i (fun _ => a)) -> In x l \/ x = a.
Proof.
  revert i. induction l as [|y r IH]; intros [|i] H; cbn [update] in H.
  - destruct H.
  - destruct H.
  - destruct H as [<-|H]; [right; reflexivity|left; right; exact H].
  - destruct H as [<-|H]; [left; left; reflexivity|].
    destruct (IH i H) as [H'|H']; [left; right; exact H'|right; exact H'].
Qed.

Lemma seedIndex_bound (points : list Vec3) :
  points <> [] -> (seedIndex points < length points)%nat.
Proof.
  intro Hne. unfold seedIndex.
  assert (H : forall ks acc,
            (snd acc < length points)%nat ->
            (forall k, In k ks -> (k < length points)%nat) ->
            (snd (fold_left
                    (fun (acc : Z * nat) i =>
                       let (minY, min) := acc in
                       let y := truncate (vy (nth i points vzero)) in
                       if ((y <? minY)%Z || (minY =? y)%Z)
                          && Qltb (vx (nth i points vzero)) (vx (nth min points vzero))
                       then (truncate (vy (nth i points vzero)), i)
                       else acc) ks acc) < length points)%nat).
  { induction ks as [|k ks IH]; intros [minY min] Hacc Hks; cbn [fold_left];
      [exact Hacc|].
    apply IH; [|intros j Hj; apply Hks; right; exact Hj].
    cbv zeta. destruct (_ && _); [|exact Hacc].
    cbn [snd]. apply Hks. left. reflexivity. }
  apply H.
  - cbn [snd]. destruct points; [congruence|cbn; lia].
  - intros k Hk. apply in_seq in Hk. lia.
Qed.

Lemma swapFirst_In (points : list Vec3) (min : nat) (x : Vec3) :
  (min < length points)%nat -> In x (swapFirst points min) -> In x points.
Proof.
  intros Hmin H. unfold swapFirst in H.
  apply update_const_In in H. destruct H as [H| ->].
  - apply update_const_In in H. destruct H as [H| ->]; [exact H|].
    apply nth_In. exact Hmin.
  - apply nth_In. lia.
Qed.

Lemma insertSorted_length {A : Type} (comp : A -> A -> bool) (x : A) (l : list A) :
  length (insertSorted comp x l) = S (length l).
Proof.
  induction l as [|y r IH]; cbn [insertSorted]; [reflexivity|].
  destruct (comp y x); cbn [length]; [rewrite IH|]; reflexivity.
Qed.

Lemma sortBy_length {A : Type} (comp : A -> A -> bool) (l : list A) :
  length (sortBy comp l) = length l.
Proof.
  unfold sortBy. induction l as [|x r IH]; cbn [fold_right length]; [reflexivity|].
  rewrite insertSorted_length, IH. reflexivity.
Qed.

Lemma skipSameAngle_bound (fuel n : nat) (p0 : Vec3) (sorted : list Vec3) :
  forall i, (i + 2 < n)%nat -> (skipSameAngle fuel n p0 sorted i + 2 < n)%nat.
Proof.
  induction fuel as [|fuel IH]; intros i Hi; cbn [skipSameAngle]; [exact Hi|].
  destruct (i + 3 <? n)%nat eqn:H3; cbn [andb]; [|exact Hi].
  destruct (Qltb _ _); [|exact Hi].
  apply IH. apply Nat.ltb_lt in H3. lia.
Qed.

Lemma keepAngles_In (n : nat) (p0 : Vec3) (sorted : list Vec3) (P : Vec3 -> Prop) :
  (n <= S (length sorted))%nat ->
  (forall x, In x sorted -> P x) ->
  forall fuel i kept,
    (forall x, In x kept -> P x) ->
    forall x, In x (keepAngles fuel n p0 sorted i kept) -> P x.
Proof.
  intros Hn Hs. induction fuel as [|fuel IH]; intros i kept Hk x Hx;
    cbn [keepAngles] in Hx; [apply Hk, Hx|].
  destruct (i + 2 <? n)%nat eqn:Hi; [|apply Hk, Hx].
  apply Nat.ltb_lt in Hi. cbv zeta in Hx.
  apply (IH _ _) in Hx; [exact Hx|].
  intros y Hy. apply in_app_or in Hy. destruct Hy as [Hy|[<-|[]]]; [apply Hk, Hy|].
  apply Hs, nth_In.
  pose proof (skipSameAngle_bound n n p0 sorted i Hi). lia.
Qed.

Lemma keepAngles_short (n : nat) (p0 : Vec3) (sorted : list Vec3) :
  (n <= 3)%nat -> (length (keepAngles n n p0 sorted 0 []) <= 1)%nat.
Proof.
  intro Hn.
  destruct n as [|[|[|[|n]]]]; [cbn; lia|cbn; lia|cbn; lia| |lia].
  cbn. lia.
Qed.

Lemma scan_In (P : Vec3 -> Prop) (l : list Vec3) :
  forall stk, (forall x, In x stk -> P x) -> (forall x, In x l -> P x) ->
              forall x, In x (fold_left scanStep l stk) -> P x.
Proof.
  induction l as [|p l IH]; intros stk Hs Hl x Hx; cbn [fold_left] in Hx;
    [apply Hs, Hx|].
  apply (IH (scanStep stk p)); [| |exact Hx].
  - intros y Hy. unfold scanStep in Hy. cbv zeta in Hy.
    destruct (turn _ =? 2)%nat; destruct Hy as [<-|Hy].
    + apply Hl. left. reflexivity.
    + apply Hs, Hy.
    + apply Hl. left. reflexivity.
    + apply Hs. destruct stk; [destruct Hy|right; exact Hy].
  - intros y Hy. apply Hl. right. exact Hy.
Qed.

(** X19.  [findConvexHull] returns none but points it was given, and
    nothing at all when it is given three points or fewer. *)
Theorem findConvexHull_keeps_to_input (points : list Vec3) (p : Vec3) :
  In p (findConvexHull points) ->
  In p points /\ (3 < length points)%nat.
Proof.
  unfold findConvexHull. cbv zeta.
  set (n := length points).
  set (swapped := swapFirst points (seedIndex points)).
  set (p0 := nth 0 swapped vzero).
  set (sorted := map (fun pm => nth 0 pm vzero)
                     (sortBy ComparePoints (map (fun q => [q; p0]) (tl swapped)))).
  set (kept := keepAngles n n p0 sorted 0 []).
  destruct (length (p0 :: kept) <? 3)%nat eqn:Hsize; [intros []|].
  apply Nat.ltb_ge in Hsize. cbn [length] in Hsize.
  assert (Hlong : (3 < n)%nat).
  { destruct (Nat.le_gt_cases n 3) as [Hle|Hgt]; [|exact Hgt].
    pose proof (keepAngles_short n p0 sorted Hle). fold kept in H. lia. }
  intro Hp. split; [|exact Hlong].
  assert (Hne : points <> []) by (intros ->; cbn in Hlong; lia).
  assert (Hswap : forall x, In x swapped -> In x points).
  { intros x Hx. apply (swapFirst_In points (seedIndex points));
      [apply seedIndex_bound, Hne|exact Hx]. }
  assert (Hlen : length swapped = n).
  { unfold swapped, swapFirst. rewrite !update_length. reflexivity. }
  assert (Hp0 : In p0 points).
  { apply Hswap. apply nth_In. lia. }
  assert (Hsorted : forall x, In x sorted -> In x points).
  { intros x Hx. unfold sorted in Hx. apply in_map_iff in Hx.
    destruct Hx as (pm & <- & Hpm). apply sortBy_In in Hpm.
    apply in_map_iff in Hpm. destruct Hpm as (q & <- & Hq).
    cbn [nth]. apply Hswap. destruct swapped; [destruct Hq|right; exact Hq]. }
  assert (Hsl : (n <= S (length sorted))%nat).
  { unfold sorted. rewrite length_map, sortBy_length, length_map.
    destruct swapped; cbn [length tl] in *; lia. }
  assert (Hkept : forall x, In x (p0 :: kept) -> In x points).
  { intros x [<-|Hx]; [exact Hp0|].
    apply (keepAngles_In n p0 sorted (fun x => In x points) Hsl Hsorted n 0%nat []);
      [intros y []|exact Hx]. }
  apply (scan_In (fun x => In x points) _ _) in Hp; [exact Hp| |].
  - intros x [<-|[<-|[<-|[]]]]; apply Hkept, nth_In; cbn [length]; lia.
  - intros x Hx. apply Hkept.
    rewrite <- (firstn_skipn 3 (p0 :: kept)). apply in_or_app. right. exact Hx.
Qed.

Lemma findConvexHull_keeps_to_input_witness :
  let points := [mkVec3 0 0 0; mkVec3 4 0 0; mkVec3 4 4 0; mkVec3 0 4 0;
                 mkVec3 2 1 0] in
  In (mkVec3 4 4 0) points /\ (3 < length points)%nat.
Proof.
  apply (findConvexHull_keeps_to_input
           [mkVec3 0 0 0; mkVec3 4 0 0; mkVec3 4 4 0; mkVec3 0 4 0; mkVec3 2 1 0]
           (mkVec3 4 4 0)).
  vm_compute. left. reflexivity.
Defined.

(** *** The clusters of the cube *)

Lemma cubeClusterList_eq :
  @ComputeHalfEdge exampleExtern (15#10) (5#1000) cubeVertices [cubeShape]
  = Some cubeClusterList.
Proof. vm_compute. reflexivity. Qed.

Lemma ComputeHalfEdge_half_extents_witness :
  Forall (boxAtLeast (5#1000)) cubeClusterList.
Proof.
  exact (@ComputeHalfEdge_half_extents exampleExtern (15#10) (5#1000) cubeVertices
           [cubeShape] cubeClusterList cubeClusterList_eq).
Defined.


(** ** The loaders and [UpdateState] *)

(** *** Loops that assign to one element a pass *)

Lemma fold_update_length {A : Type} (step : list A -> nat -> list A) (f : nat -> A -> A)
  (ks : list nat) :
  (forall l i, step l i = update l i (f i)) ->
  forall l, length (fold_left step ks l) = length l.
Proof.
  intro Hstep. induction ks as [|k ks IH]; intro l; cbn [fold_left]; [reflexivity|].
  rewrite IH, Hstep. apply update_length.
Qed.

Lemma fold_update_skips {A : Type} (step : list A -> nat -> list A) (f : nat -> A -> A)
  (d : A) (ks : list nat) (j : nat) :
  (forall l i, step l i = update l i (f i)) ->
  ~ In j ks ->
  forall l, nth j (fold_left step ks l) d = nth j l d.
Proof.
  intros Hstep. induction ks as [|k ks IH]; intros Hj l; cbn [fold_left]; [reflexivity|].
  rewrite IH by (intro H; apply Hj; right; exact H).
  rewrite Hstep. apply nth_update_other. intro He. apply Hj. left. exact He.
Qed.

Lemma fold_update_nth {A : Type} (step : list A -> nat -> list A) (f : nat -> A -> A)
  (d : A) (n j : nat) :
  (forall l i, step l i = update l i (f i)) ->
  forall l, (j < n)%nat -> (j < length l)%nat ->
    nth j (fold_left step (seq 0 n) l) d = f j (nth j l d).
Proof.
  intros Hstep. induction n as [|n IH]; intros l Hn Hl; [lia|].
  rewrite seq_S, fold_left_app. cbn [fold_left Nat.add]. rewrite Hstep.
  destruct (Nat.eq_dec j n) as [->|Hne].
  - rewrite nth_update_same
      by (rewrite (fold_update_length step f) by exact Hstep; exact Hl).
    f_equal. apply (fold_update_skips step f); [exact Hstep|].
    intro H. apply in_seq in H. lia.
  - rewrite nth_update_other by congruence. apply IH; [lia|exact Hl].
Qed.

Lemma fold_update_beyond {A : Type} (step : list A -> nat -> list A) (f : nat -> A -> A)
  (d : A) (n j : nat) :
  (forall l i, step l i = update l i (f i)) ->
  forall l, (n <= j)%nat -> nth j (fold_left step (seq 0 n) l) d = nth j l d.
Proof.
  intros Hstep l Hj. apply (fold_update_skips step f); [exact Hstep|].
  intro H. apply in_seq in H. lia.
Qed.

Lemma mtranspose_involutive (m : Mat3) : mtranspose (mtranspose m) = m.
Proof. destruct m as [[a b c] [d e f] [g h i]]. reflexivity. Qed.

(** *** The stages of [UpdateState] *)

Lemma ReadInputs_nth (s : RigidBodyContactEffector) (buffers inbox : list bodyBuffers)
  (i : nat) :
  nth i (ReadInputs s buffers inbox) noBuffers = buffersUsed s buffers inbox i.
Proof.
  unfold ReadInputs, buffersUsed.
  set (f := fun bodyIt (b : bodyBuffers) =>
              readInto (Body.isSpice (body s bodyIt)) b (nth bodyIt inbox noBuffers)).
  assert (Hstep : forall l bodyIt,
            (let msg := nth bodyIt inbox noBuffers in
             if Body.isSpice (body s bodyIt)
             then update l bodyIt
                    (fun b => mkBuffers (plMsg msg) (stateInBuffer b) (massStateInBuffer b))
             else update l bodyIt
                    (fun b => mkBuffers (plMsg b) (stateInBuffer msg)
                                        (massStateInBuffer msg)))
            = update l bodyIt (f bodyIt)).
  { intros l bodyIt. cbv zeta. unfold f, readInto.
    destruct (Body.isSpice (body s bodyIt)); reflexivity. }
  destruct (Z.of_nat i <? numBodies s)%Z eqn:Hn; cbn [andb].
  - apply Z.ltb_lt in Hn. destruct (i <? length buffers)%nat eqn:Hl.
    + apply Nat.ltb_lt in Hl.
      rewrite (fold_update_nth _ f noBuffers _ i Hstep) by (lia || exact Hl).
      reflexivity.
    + apply Nat.ltb_ge in Hl.
      rewrite !nth_overflow; [reflexivity|exact Hl|].
      rewrite (fold_update_length _ f _ Hstep). exact Hl.
  - apply Z.ltb_ge in Hn.
    apply (fold_update_beyond _ f noBuffers _ i Hstep). lia.
Qed.

Section UpdateStateStages.
Context {E : Extern} {I : ExternInputs}.

Lemma ExtractFromBuffer_body (s : RigidBodyContactEffector) (buffers : list bodyBuffers)
  (i : nat) :
  body (ExtractFromBuffer s buffers) i
  = if (i <? length (Bodies s))%nat
    then extracted (body s i) (nth i buffers noBuffers) else body s i.
Proof.
  unfold ExtractFromBuffer, body. cbn [Bodies set_Bodies].
  set (f := fun bodyIt b => extracted b (nth bodyIt buffers noBuffers)).
  assert (Hstep : forall l bodyIt,
            (let buf := nth bodyIt buffers noBuffers in
             update l bodyIt
               (fun b =>
                  if Body.isSpice b
                  then set_states b (extractSpice (Body.states b) (plMsg buf))
                  else set_states b (extractSpacecraft (Body.states b)
                                                       (stateInBuffer buf)
                                                       (massStateInBuffer buf))))
            = update l bodyIt (f bodyIt)) by reflexivity.
  destruct (i <? length (Bodies s))%nat eqn:Hl.
  - apply Nat.ltb_lt in Hl.
    rewrite (fold_update_nth _ f noBody _ i Hstep) by exact Hl. reflexivity.
  - apply Nat.ltb_ge in Hl.
    apply (fold_update_beyond _ f noBody _ i Hstep). exact Hl.
Qed.

Lemma ExtractFromBuffer_length (s : RigidBodyContactEffector)
  (buffers : list bodyBuffers) :
  length (Bodies (ExtractFromBuffer s buffers)) = length (Bodies s).
Proof.
  unfold ExtractFromBuffer. cbn [Bodies set_Bodies].
  apply (fold_update_length _
           (fun bodyIt b => extracted b (nth bodyIt buffers noBuffers))).
  reflexivity.
Qed.

Lemma CheckBoundingBox_body (s : RigidBodyContactEffector) (i : nat) :
  withoutList (body (CheckBoundingBox s) i) = withoutList (body s i).
Proof.
  unfold CheckBoundingBox, body.
  destruct (fold_boxStep_frame (closeBodies s) s) as [_ H].
  change noBody with (withoutList noBody) at 1.
  rewrite <- (map_nth withoutList). rewrite H.
  change (withoutList noBody) with noBody at 1.
  change noBody with (withoutList noBody) at 1. apply map_nth.
Qed.

Lemma UpdateState_body (s : RigidBodyContactEffector) (buffers inbox : list bodyBuffers)
  (CurrentSimNanos : N) (i : nat) :
  withoutList (body (fst (UpdateState s buffers inbox CurrentSimNanos)) i)
  = withoutList (bodyAfterUpdate s buffers inbox i).
Proof.
  unfold UpdateState. cbv zeta. cbn [fst].
  set (s0 := set_macroStep s _).
  rewrite CheckBoundingBox_body.
  unfold CheckBoundingSphere.
  match goal with
  | |- withoutList (body (set_closeBodies (set_closeBodies ?s2 _) _) i) = _ =>
      change (body (set_closeBodies (set_closeBodies s2 []) _) i) with (body s2 i)
  end.
  f_equal. unfold bodyAfterUpdate. cbv zeta.
  set (s1 := ExtractFromBuffer s0 (ReadInputs s0 buffers inbox)).
  assert (H1 : body s1 i = if (i <? length (Bodies s))%nat
                           then extracted (body s i) (buffersUsed s buffers inbox i)
                           else body s i).
  { unfold s1. rewrite ExtractFromBuffer_body, ReadInputs_nth. reflexivity. }
  assert (Hlen : length (Bodies s1) = length (Bodies s))
    by (unfold s1; rewrite ExtractFromBuffer_length; reflexivity).
  rewrite <- H1.
  change (simTimeStep s1) with (simTimeStep s).
  change (numBodies s1) with (numBodies s).
  unfold body at 1. cbn [Bodies set_Bodies]. fold (body s1 i).
  destruct (Z.of_nat i <? numBodies s)%Z eqn:Hn; cbn [andb].
  - apply Z.ltb_lt in Hn. destruct (i <? length (Bodies s))%nat eqn:Hl.
    + apply Nat.ltb_lt in Hl.
      rewrite (fold_update_nth _ (fun _ => startStep (simTimeStep s)) noBody _ i)
        by (reflexivity || lia).
      reflexivity.
    + apply Nat.ltb_ge in Hl.
      unfold body. rewrite !nth_overflow; [reflexivity|lia|].
      rewrite (fold_update_length _ (fun _ => startStep (simTimeStep s)))
        by reflexivity.
      lia.
  - apply Z.ltb_ge in Hn.
    apply (fold_update_beyond _ (fun _ => startStep (simTimeStep s)) noBody _ i);
      [reflexivity|lia].
Qed.
End UpdateStateStages.

Section UpdateStateFacts.
Context {E : Extern} {I : ExternInputs}.

(** The members of the effector that are not in [Bodies] or [closeBodies],
    after [UpdateState]. *)
Lemma UpdateState_members (s : RigidBodyContactEffector)
  (buffers inbox : list bodyBuffers) (CurrentSimNanos : N) :
  let s' := fst (UpdateState s buffers inbox CurrentSimNanos) in
  newMacroTimeStep s' = true /\ currentBodyInCycle s' = (-1)%Z /\
  responseFound s' = false /\ lockedToRand s' = false /\
  currentMinError s' = 1 /\
  currentSimSeconds s' = inject_Z (Z.of_N CurrentSimNanos) * NANO2SEC /\
  numBodies s' = numBodies s /\ length (Bodies s') = length (Bodies s).
Proof.
  cbv zeta. unfold UpdateState. cbv zeta. cbn [fst].
  set (s0 := set_macroStep s _).
  set (s4 := CheckBoundingSphere _).
  unfold CheckBoundingBox.
  destruct (fold_boxStep_frame (closeBodies s4) s4) as [H1 H2].
  rewrite H1.
  repeat split.
  cbn [Bodies set_Bodies].
  rewrite <- (length_map withoutList), H2, length_map.
  unfold s4, CheckBoundingSphere. cbn [Bodies set_closeBodies set_Bodies].
  rewrite (fold_update_length _ (fun _ => startStep (simTimeStep s))) by reflexivity.
  rewrite ExtractFromBuffer_length. reflexivity.
Qed.

Lemma closeBodies_after_update (s : RigidBodyContactEffector)
  (buffers inbox : list bodyBuffers) (CurrentSimNanos : N) :
  exists s3,
    closeBodies (fst (UpdateState s buffers inbox CurrentSimNanos))
    = closeBodies (CheckBoundingSphere s3) /\
    numBodies s3 = numBodies s /\
    forall i, withoutList (body s3 i)
              = withoutList (body (fst (UpdateState s buffers inbox CurrentSimNanos)) i).
Proof.
  unfold UpdateState. cbv zeta. cbn [fst].
  set (s0 := set_macroStep s _).
  match goal with
  | |- context [CheckBoundingSphere ?x] => set (s3 := x)
  end.
  exists s3. split; [|split; [reflexivity|]].
  - unfold CheckBoundingBox.
    destruct (fold_boxStep_frame (closeBodies (CheckBoundingSphere s3))
                                 (CheckBoundingSphere s3)) as [H1 _].
    rewrite H1. reflexivity.
  - intro i. rewrite CheckBoundingBox_body. reflexivity.
Qed.

Lemma same_but_list (b b' : geometry) :
  withoutList b = withoutList b' ->
  Body.states b = Body.states b' /\ Body.futureStates b = Body.futureStates b' /\
  Body.boundingRadius b = Body.boundingRadius b' /\
  Body.isSpice b = Body.isSpice b' /\
  Body.forceExternal_N b = Body.forceExternal_N b' /\
  Body.torqueExternalPntB_B b = Body.torqueExternalPntB_B b' /\
  Body.impactTimes b = Body.impactTimes b' /\
  Body.impactTimeSteps b = Body.impactTimeSteps b'.
Proof.
  destruct b, b'. unfold withoutList, Body.set_coarseSearchList.
  cbn. intro H. injection H as -> -> -> -> -> -> -> -> -> -> -> ->.
  repeat split.
Qed.

Lemma spheresClose_shape (s s' : RigidBodyContactEffector) (i j : nat) :
  withoutList (body s i) = withoutList (body s' i) ->
  withoutList (body s j) = withoutList (body s' j) ->
  spheresClose s i j = spheresClose s' i j.
Proof.
  intros Hi Hj.
  destruct (same_but_list _ _ Hi) as (I1 & I2 & I3 & _).
  destruct (same_but_list _ _ Hj) as (J1 & J2 & J3 & _).
  unfold spheresClose, bodyDifference. cbv zeta.
  rewrite I1, I2, I3, J1, J2, J3. reflexivity.
Qed.

(** X24.  [UpdateState] starts a macro step: after it the next call of
    [computeForceTorque] is the first of a new cycle over the bodies
    ([newMacroTimeStep] set, [currentBodyInCycle] = -1), no response and no
    step rejection is latched, and the four queues of every body below
    [numBodies] are empty.  The number of bodies is as before. *)
Theorem UpdateState_starts_macro_step (s : RigidBodyContactEffector)
  (buffers inbox : list bodyBuffers) (CurrentSimNanos : N) :
  let s' := fst (UpdateState s buffers inbox CurrentSimNanos) in
  newMacroTimeStep s' = true /\ currentBodyInCycle s' = (-1)%Z /\
  responseFound s' = false /\ lockedToRand s' = false /\
  numBodies s' = numBodies s /\ length (Bodies s') = length (Bodies s) /\
  forall i, (Z.of_nat i < numBodies s)%Z ->
    Body.forceExternal_N (body s' i) = [] /\
    Body.torqueExternalPntB_B (body s' i) = [] /\
    Body.impactTimes (body s' i) = [] /\
    Body.impactTimeSteps (body s' i) = [].
Proof.
  cbv zeta.
  destruct (UpdateState_members s buffers inbox CurrentSimNanos)
    as (M1 & M2 & M3 & M4 & _ & _ & M7 & M8).
  repeat (split; [assumption|]).
  intros i Hi.
  pose proof (UpdateState_body s buffers inbox CurrentSimNanos i) as Hb.
  apply same_but_list in Hb. destruct Hb as (_ & _ & _ & _ & -> & -> & -> & ->).
  assert (Hq : Body.forceExternal_N (bodyAfterUpdate s buffers inbox i) = [] /\
               Body.torqueExternalPntB_B (bodyAfterUpdate s buffers inbox i) = [] /\
               Body.impactTimes (bodyAfterUpdate s buffers inbox i) = [] /\
               Body.impactTimeSteps (bodyAfterUpdate s buffers inbox i) = []).
  { unfold bodyAfterUpdate. cbv zeta.
    apply Z.ltb_lt in Hi. rewrite Hi. cbn [andb].
    destruct (i <? length (Bodies s))%nat eqn:Hl.
    - repeat split.
    - apply Nat.ltb_ge in Hl. unfold body. rewrite nth_overflow by exact Hl.
      repeat split. }
  exact Hq.
Qed.

(** X25.  After [UpdateState], [closeBodies] lists, once each, the pairs
    (i, j) with i < j < [numBodies] whose bounding spheres pass the test of
    [CheckBoundingSphere] at the states that this call extracted and
    predicted; [CheckBoundingBox], which runs last, does not disturb it. *)
Theorem UpdateState_closeBodies (s : RigidBodyContactEffector)
  (buffers inbox : list bodyBuffers) (CurrentSimNanos : N) :
  let s' := fst (UpdateState s buffers inbox CurrentSimNanos) in
  NoDup (closeBodies s') /\
  forall i j, In (i, j) (closeBodies s') <->
              (i < j)%nat /\ (Z.of_nat j < numBodies s)%Z /\ spheresClose s' i j = true.
Proof.
  cbv zeta.
  destruct (closeBodies_after_update s buffers inbox CurrentSimNanos)
    as (s3 & Hc & Hn & Hb).
  rewrite Hc. split; [apply CheckBoundingSphere_NoDup|].
  intros i j. unfold CheckBoundingSphere. cbn [closeBodies set_closeBodies].
  rewrite in_flat_map, <- Hn, <- (spheresClose_shape s3 _ i j) by apply Hb.
  split.
  - intros (x & _ & Hrow). apply sphereRow_In in Hrow.
    destruct Hrow as (Hx & H1 & H2 & H3). subst x. tauto.
  - intros (Hlt & Hj & Hclose). exists i. split.
    + apply in_seq. lia.
    + apply sphereRow_In. tauto.
Qed.

(** X26.  After [UpdateState] the two direction cosine matrices of a body
    are transposes of each other, in [states] for every body and in
    [futureStates] for every body below [numBodies], for Spice bodies and
    spacecraft alike. *)
Theorem UpdateState_transposes (s : RigidBodyContactEffector)
  (buffers inbox : list bodyBuffers) (CurrentSimNanos : N) (i : nat) :
  (i < length (Bodies s))%nat ->
  let b := body (fst (UpdateState s buffers inbox CurrentSimNanos)) i in
  dcm_NB (Body.states b) = mtranspose (dcm_BN (Body.states b)) /\
  dcm_BN (Body.states b) = mtranspose (dcm_NB (Body.states b)) /\
  ((Z.of_nat i < numBodies s)%Z ->
   dcm_NB (Body.futureStates b) = mtranspose (dcm_BN (Body.futureStates b)) /\
   dcm_BN (Body.futureStates b) = mtranspose (dcm_NB (Body.futureStates b))).
Proof.
  intros Hl. cbv zeta.
  pose proof (UpdateState_body s buffers inbox CurrentSimNanos i) as Hb.
  apply same_but_list in Hb. destruct Hb as (-> & -> & _).
  unfold bodyAfterUpdate. cbv zeta.
  apply Nat.ltb_lt in Hl. rewrite Hl.
  destruct (Z.of_nat i <? numBodies s)%Z eqn:Hn; cbn [andb].
  - unfold extracted, startStep, futureOf. cbv zeta.
    destruct (Body.isSpice (body s i)) eqn:Hs;
      cbn [Body.states Body.futureStates Body.isSpice set_states set_futureStates
           Body.set_queues];
      rewrite ?Hs;
      cbn [dcm_NB dcm_BN extractSpice extractSpacecraft];
      rewrite ?mtranspose_involutive; repeat split; reflexivity.
  - apply Z.ltb_ge in Hn. unfold extracted.
    destruct (Body.isSpice (body s i)) eqn:Hs;
      cbn [Body.states set_states dcm_NB dcm_BN extractSpice extractSpacecraft];
      rewrite ?mtranspose_involutive; repeat split; try reflexivity; lia.
Qed.

(** X27.  [UpdateState] takes the states of a body from the message of
    this call when the body is below [numBodies], and from the buffers of
    an earlier call when it is not; the later stages of the call leave the
    extracted states as they are. *)
Theorem UpdateState_reads_messages (s : RigidBodyContactEffector)
  (buffers inbox : list bodyBuffers) (CurrentSimNanos : N) (i : nat) :
  (i < length (Bodies s))%nat -> (i < length buffers)%nat ->
  let msg := if (Z.of_nat i <? numBodies s)%Z
             then nth i inbox noBuffers else nth i buffers noBuffers in
  Body.states (body (fst (UpdateState s buffers inbox CurrentSimNanos)) i)
  = if Body.isSpice (body s i)
    then extractSpice (Body.states (body s i)) (plMsg msg)
    else extractSpacecraft (Body.states (body s i)) (stateInBuffer msg)
                           (massStateInBuffer msg).
Proof.
  intros Hl Hbuf. cbv zeta.
  pose proof (UpdateState_body s buffers inbox CurrentSimNanos i) as Hb.
  apply same_but_list in Hb. destruct Hb as (-> & _).
  unfold bodyAfterUpdate, buffersUsed. cbv zeta.
  apply Nat.ltb_lt in Hl, Hbuf. rewrite Hl, Hbuf.
  unfold extracted, readInto.
  destruct (Z.of_nat i <? numBodies s)%Z; cbn [andb];
    destruct (Body.isSpice (body s i)); reflexivity.
Qed.

(** X28.  With exactly one body ([numBodies] is 1 and [Bodies] holds one
    element) [UpdateState] finds no close pair, and the call of
    [computeForceTorque] that follows it returns at the end of the function
    with zero force and torque and draws no random number. *)
Theorem UpdateState_single_body (s : RigidBodyContactEffector)
  (buffers inbox : list bodyBuffers) (CurrentSimNanos : N) (g : Rng)
  (currentTime timeStep : Q) :
  numBodies s = 1%Z -> length (Bodies s) = 1%nat ->
  let s' := fst (UpdateState s buffers inbox CurrentSimNanos) in
  closeBodies s' = [] /\
  computeForceTorque s' g currentTime timeStep
  = (Fallthrough, prologue s' currentTime timeStep, g) /\
  forceExternal_N (prologue s' currentTime timeStep) = vzero /\
  torqueExternalPntB_B (prologue s' currentTime timeStep) = vzero.
Proof.
  intros Hn _ s'.
  destruct (closeBodies_after_update s buffers inbox CurrentSimNanos)
    as (s3 & Hc & Hn3 & _).
  change (closeBodies s' = closeBodies (CheckBoundingSphere s3)) in Hc.
  clearbody s'.
  assert (Hnil : closeBodies s' = []).
  { rewrite Hc. unfold CheckBoundingSphere. cbn [closeBodies set_closeBodies].
    rewrite Hn3. replace (Z.to_nat (numBodies s - 1)) with O by lia. reflexivity. }
  split; [exact Hnil|].
  assert (Hc0 : closeBodies (prologue s' currentTime timeStep) = []).
  { pose proof (prologue_givenData s' currentTime timeStep) as Hg.
    unfold givenData in Hg. injection Hg as _ Hcl _ _ _ _ _ _ _ _ _ _ _ _.
    rewrite Hcl. exact Hnil. }
  destruct (prologue_outputs s' currentTime timeStep) as (O1 & _ & O3).
  split; [|split; assumption].
  unfold computeForceTorque. rewrite Hc0. reflexivity.
Qed.

End UpdateStateFacts.

Lemma UpdateState_transposes_witness :
  let b := body (fst (@UpdateState exampleExtern exampleInputs loadedScene
                        [noBuffers; noBuffers] exampleInbox 0%N)) 0 in
  dcm_NB (Body.states b) = mtranspose (dcm_BN (Body.states b)) /\
  dcm_BN (Body.states b) = mtranspose (dcm_NB (Body.states b)) /\
  ((Z.of_nat 0 < numBodies loadedScene)%Z ->
   dcm_NB (Body.futureStates b) = mtranspose (dcm_BN (Body.futureStates b)) /\
   dcm_BN (Body.futureStates b) = mtranspose (dcm_NB (Body.futureStates b))).
Proof.
  apply (@UpdateState_transposes exampleExtern exampleInputs loadedScene
           [noBuffers; noBuffers] exampleInbox 0%N 0%nat).
  vm_compute. lia.
Defined.

Lemma UpdateState_reads_messages_witness :
  let msg := if (Z.of_nat 0 <? numBodies loadedScene)%Z
             then nth 0 exampleInbox noBuffers
             else nth 0 [noBuffers; noBuffers] noBuffers in
  Body.states (body (fst (@UpdateState exampleExtern exampleInputs loadedScene
                            [noBuffers; noBuffers] exampleInbox 0%N)) 0)
  = if Body.isSpice (body loadedScene 0)
    then @extractSpice exampleInputs (Body.states (body loadedScene 0)) (plMsg msg)
    else @extractSpacecraft exampleExtern exampleInputs
           (Body.states (body loadedScene 0)) (stateInBuffer msg)
           (massStateInBuffer msg).
Proof.
  apply (@UpdateState_reads_messages exampleExtern exampleInputs loadedScene
           [noBuffers; noBuffers] exampleInbox 0%N 0%nat).
  - vm_compute. lia.
  - vm_compute. lia.
Defined.

Lemma UpdateState_single_body_witness :
  let s := effectorOf [triangleBody vzero (mkDetail (O, O) [])] [] in
  let s' := fst (@UpdateState exampleExtern exampleInputs s [noBuffers]
                   [messageOf vzero vzero] 0%N) in
  closeBodies s' = [] /\
  @computeForceTorque exampleExtern s' exampleTape 0 (1#100)
  = (Fallthrough, prologue s' 0 (1#100), exampleTape) /\
  forceExternal_N (prologue s' 0 (1#100)) = vzero /\
  torqueExternalPntB_B (prologue s' 0 (1#100)) = vzero.
Proof.
  apply (@UpdateState_single_body exampleExtern exampleInputs
           (effectorOf [triangleBody vzero (mkDetail (O, O) [])] [])
           [noBuffers] [messageOf vzero vzero] 0%N exampleTape 0 (1#100)).
  - vm_compute. reflexivity.
  - vm_compute. reflexivity.
Defined.

(** *** The loaders *)

Lemma organizeVertices_cons (x y z : Q) (a : list Q) :
  organizeVertices (x :: y :: z :: a) = mkVec3 x y z :: organizeVertices a.
Proof.
  unfold organizeVertices.
  assert (Hlen : (length (x :: y :: z :: a) / 3 = S (length a / 3))%nat).
  { cbn [length]. change (S (S (S (length a)))) with (1 * 3 + length a)%nat.
    rewrite Nat.div_add_l by discriminate. reflexivity. }
  rewrite Hlen. cbn [seq map]. f_equal.
  rewrite <- seq_shift, map_map. apply map_ext. intro k.
  replace (3 * S k + 0)%nat with (S (S (S (3 * k + 0)))) by lia.
  replace (3 * S k + 1)%nat with (S (S (S (3 * k + 1)))) by lia.
  replace (3 * S k + 2)%nat with (S (S (S (3 * k + 2)))) by lia.
  reflexivity.
Qed.

(** X22.  The loaders' vertex loop undoes the flattening of the loader of
    the file: the numbers x0 y0 z0 x1 y1 z1 ... come back as the vertices
    (x0, y0, z0), (x1, y1, z1), ...; one or two numbers left over at the end
    are dropped. *)
Theorem organizeVertices_round_trip (vertices : list Vec3) (rest : list Q) :
  (length rest < 3)%nat ->
  organizeVertices (flat_map vecOf vertices ++ rest) = vertices.
Proof.
  intro Hrest. induction vertices as [|[x y z] vs IH].
  - cbn [flat_map app]. unfold organizeVertices.
    rewrite Nat.div_small by exact Hrest. reflexivity.
  - cbn [flat_map vecOf app vx vy vz]. rewrite organizeVertices_cons, IH. reflexivity.
Qed.

Lemma organizeVertices_round_trip_witness :
  organizeVertices (flat_map vecOf dartVertices ++ [1; 2]) = dartVertices.
Proof.
  apply organizeVertices_round_trip. cbn [length]. lia.
Defined.

Section LoaderFacts.
Context {E : Extern}.

Lemma runLoad_appends (s s' : RigidBodyContactEffector) (c : loadCall) :
  runLoad s c = Some s' ->
  exists b,
    s' = pushBody s b /\ Body.isSpice b = asSpice c /\
    Body.vertices b = organizeVertices (attribVertices c) /\
    Body.boundingRadius b = boundingRadiusArg c /\
    ComputeHalfEdge (maxBoundingBoxDim s) (minBoundingBoxDim s)
                    (organizeVertices (attribVertices c)) (shapes c)
    = Some (Body.polyhedron b) /\
    Body.forceExternal_N b = [] /\ Body.torqueExternalPntB_B b = [] /\
    Body.impactTimes b = [] /\ Body.impactTimeSteps b = [].
Proof.
  unfold runLoad, AddSpiceBody, LoadSpacecraftBody, loadBody. cbv zeta.
  destruct (ComputeHalfEdge _ _ _ _) as [polyhedron|]; [|destruct (asSpice c); discriminate].
  destruct (asSpice c); intros [= <-]; eexists; repeat split.
Qed.

(** The bodies that a sequence of loader calls appends. *)
Lemma runLoads_appends (calls : list loadCall) :
  forall s s',
    runLoads s calls = Some s' ->
    exists bodies,
      Bodies s' = Bodies s ++ bodies /\
      numBodies s' = (numBodies s + Z.of_nat (length calls))%Z /\
      cycleData s' = cycleData s /\
      map Body.isSpice bodies = map asSpice calls /\
      map Body.vertices bodies
      = map (fun c => organizeVertices (attribVertices c)) calls /\
      Forall (fun b => Body.forceExternal_N b = [] /\
                       Body.torqueExternalPntB_B b = [] /\
                       Body.impactTimes b = [] /\ Body.impactTimeSteps b = []) bodies.
Proof.
  induction calls as [|c calls IH]; intros s s' H.
  - injection H as <-. exists []. rewrite app_nil_r, Z.add_0_r.
    repeat split; constructor.
  - cbn [runLoads] in H. destruct (runLoad s c) as [s1|] eqn:H1; [|discriminate].
    apply runLoad_appends in H1.
    destruct H1 as (b & -> & Hs & Hv & _ & _ & Q1 & Q2 & Q3 & Q4).
    destruct (IH _ _ H) as (bodies & B1 & B2 & B3 & B4 & B5 & B6).
    exists (b :: bodies). cbn [Bodies pushBody numBodies] in B1, B2.
    rewrite B1, B2, B3, <- app_assoc. cbn [map length app].
    rewrite Hs, Hv, B4, B5.
    repeat split; [lia|].
    constructor; [repeat split; assumption|exact B6].
Qed.

(** X23.  An effector built by the constructor and calls of the two
    loaders counts its bodies: [numBodies] is the size of [Bodies] and the
    number of calls; the bodies are in the order of the calls, Spice
    bodies flagged as such, each with the vertices of its file and with
    empty queues; and the effector still waits for the first macro step,
    with no close pair. *)
Theorem loaders_count_the_bodies (raw s : RigidBodyContactEffector)
  (calls : list loadCall) :
  runLoads (construct raw) calls = Some s ->
  numBodies s = Z.of_nat (length (Bodies s)) /\
  length (Bodies s) = length calls /\
  map Body.isSpice (Bodies s) = map asSpice calls /\
  map Body.vertices (Bodies s)
  = map (fun c => organizeVertices (attribVertices c)) calls /\
  (forall i, Body.forceExternal_N (body s i) = [] /\
             Body.torqueExternalPntB_B (body s i) = [] /\
             Body.impactTimes (body s i) = [] /\
             Body.impactTimeSteps (body s i) = []) /\
  closeBodies s = [] /\ currentBodyInCycle s = (-1)%Z /\ newMacroTimeStep s = true.
Proof.
  intro H. apply runLoads_appends in H.
  destruct H as (bodies & B1 & B2 & B3 & B4 & B5 & B6).
  cbn [Bodies construct app numBodies] in B1, B2.
  unfold cycleData in B3. cbn [construct closeBodies currentBodyInCycle
                               newMacroTimeStep topTime topTimeStep secondInter] in B3.
  injection B3 as C1 C2 C3 _ _ _.
  assert (Hlen : length bodies = length calls).
  { rewrite <- (length_map Body.isSpice), B4. apply length_map. }
  rewrite B1. repeat split; try assumption.
  - rewrite B2, Hlen. lia.
  - destruct (nth_in_or_default i bodies noBody) as [Hin|Hd].
    + unfold body. rewrite B1. rewrite Forall_forall in B6. apply (B6 _ Hin).
    + unfold body. rewrite B1, Hd. reflexivity.
  - destruct (nth_in_or_default i bodies noBody) as [Hin|Hd].
    + unfold body. rewrite B1. rewrite Forall_forall in B6. apply (B6 _ Hin).
    + unfold body. rewrite B1, Hd. reflexivity.
  - destruct (nth_in_or_default i bodies noBody) as [Hin|Hd].
    + unfold body. rewrite B1. rewrite Forall_forall in B6. apply (B6 _ Hin).
    + unfold body. rewrite B1, Hd. reflexivity.
  - destruct (nth_in_or_default i bodies noBody) as [Hin|Hd].
    + unfold body. rewrite B1. rewrite Forall_forall in B6. apply (B6 _ Hin).
    + unfold body. rewrite B1, Hd. reflexivity.
Qed.

End LoaderFacts.

Lemma loadedScene_eq :
  @runLoads exampleExtern (construct apartScene) exampleCalls = Some loadedScene.
Proof. vm_compute. reflexivity. Qed.

Lemma loaders_count_the_bodies_witness :
  numBodies loadedScene = Z.of_nat (length (Bodies loadedScene)) /\
  length (Bodies loadedScene) = length exampleCalls /\
  map Body.isSpice (Bodies loadedScene) = map asSpice exampleCalls /\
  map Body.vertices (Bodies loadedScene)
  = map (fun c => organizeVertices (attribVertices c)) exampleCalls /\
  (forall i, Body.forceExternal_N (body loadedScene i) = [] /\
             Body.torqueExternalPntB_B (body loadedScene i) = [] /\
             Body.impactTimes (body loadedScene i) = [] /\
             Body.impactTimeSteps (body loadedScene i) = []) /\
  closeBodies loadedScene = [] /\ currentBodyInCycle loadedScene = (-1)%Z /\
  newMacroTimeStep loadedScene = true.
Proof.
  exact (@loaders_count_the_bodies exampleExtern apartScene loadedScene exampleCalls
           loadedScene_eq).
Defined.

